(** * CaseChallenge-Analytics: track scoring and audience segmentation

    A shallow embedding of the three scripts of the repository,

    - [final_case.py]            (scoring relative to the column maxima),
    - [casechallenge_final.py]   (scoring relative to the column means),
    - [casechallenge_sony.py]    (same scoring, audience analysis by groupby),

    and the properties of their scoring and segmentation functions.

    Conventions of the embedding.
    - A pandas [DataFrame] is the list of its rows, in index order.
    - An [int64] column holds [Z] values; sums wrap around as numpy's do.
    - A [float64] value is a primitive binary64 float of the kernel, so the
      arithmetic of the scripts is evaluated bit for bit ([NaN], infinities
      and rounding included).
    - A display name that a left join did not find is [None] (pandas: NaN).
    - A Python exception is a [Raise e] result; what a function prints is
      the [list] of structured lines it returns next to its value.
    - What the scripts leave to pandas and numpy is modelled as the
      libraries compute it: the sum of a column by pairwise summation, the
      mean of a group by compensated summation, [round] by [rint] on the
      scaled value. Where the libraries leave the result open (the order
      in which [sort_values] leaves rows of equal key) the embedding fixes
      one outcome, and the statements on the ranking hold for every
      outcome. *)

From Stdlib Require Import ZArith List String Ascii Bool Lia.
From Stdlib Require Import Floats Permutation Sorted OrderedTypeEx.
From Stdlib Require Uint63.
From Stdlib Require Reals Lra.
Import ListNotations.

Local Open Scope Z_scope.
Local Open Scope string_scope.

Set Warnings "-inexact-float".

(* ================================================================== *)
(** * Python results *)

Inductive PyExc : Type :=
| ValueError      (* max() of an empty sequence, int(nan), idxmax of nothing *)
| OverflowError   (* int(inf) *)
| IndexError      (* iloc[0] of an empty frame *)
| TrackNotFoundError.  (* named by the specification; no function raises it *)

Inductive PyResult (A : Type) : Type :=
| Ok (a : A)
| Raise (e : PyExc).

Arguments Ok {A} a.
Arguments Raise {A} e.

Definition bind {A B} (m : PyResult A) (k : A -> PyResult B) : PyResult B :=
  match m with
  | Ok a => k a
  | Raise e => Raise e
  end.

Notation "x <- m ;; k" := (bind m (fun x => k))
  (at level 61, m at next level, right associativity).

(** A [for] loop whose body may raise: the results of the iterations, or
    the first exception. *)
Fixpoint for_each {A B} (body : A -> PyResult B) (l : list A)
  : PyResult (list B) :=
  match l with
  | [] => Ok []
  | a :: l' => b <- body a ;; bs <- for_each body l' ;; Ok (b :: bs)
  end.

(* ================================================================== *)
(** * Numbers *)

(** ** int64 *)
Module Int64.

Definition wrap (z : Z) : Z := (z + 2 ^ 63) mod 2 ^ 64 - 2 ^ 63.

Definition add (a b : Z) : Z := wrap (a + b).

(** [Series.sum()] of an int64 column. *)
Definition sum (col : list Z) : Z := fold_left add col 0.

(** The same sum without the wrap-around, for comparison. *)
Definition Zsum (col : list Z) : Z := fold_left Z.add col 0.

Definition in_range (z : Z) : Prop := - 2 ^ 63 <= z < 2 ^ 63.

End Int64.

(** ** float64 *)
Module F64.

Local Open Scope float_scope.

(** int64 to float64, as numpy converts the operands of a true division. *)
Definition of_int64 (z : Z) : float :=
  let n := Z.abs z in
  let m := if (n <? 2 ^ 63)%Z then of_uint63 (Uint63.of_Z n) else 0x1p63 in
  if (z <? 0)%Z then - m else m.

Definition isna (x : float) : bool := is_nan x.
Definition notna (x : float) : bool := negb (is_nan x).

(** Left-to-right float sum. *)
Definition fsum (col : list float) : float := fold_left PrimFloat.add col 0.

Definition fillna (v : float) (col : list float) : list float :=
  map (fun x => if isna x then v else x) col.

(** Eight partial sums, as numpy's pairwise summation keeps them. *)
Record acc8 : Type := Acc8 {
  r0 : float; r1 : float; r2 : float; r3 : float;
  r4 : float; r5 : float; r6 : float; r7 : float
}.

(** As long as 8 values are left, each is added to its partial sum. *)
Fixpoint blocks (r : acc8) (a : list float) : acc8 * list float :=
  match a with
  | x0 :: x1 :: x2 :: x3 :: x4 :: x5 :: x6 :: x7 :: rest =>
      blocks (Acc8 (r0 r + x0) (r1 r + x1) (r2 r + x2) (r3 r + x3)
                   (r4 r + x4) (r5 r + x5) (r6 r + x6) (r7 r + x7)) rest
  | _ => (r, a)
  end.

(** The sum of a block of at most 128 values: fewer than 8 values are added
    from left to right; otherwise the first 8 values start 8 partial sums,
    which take the following values 8 by 8 and are added pairwise, and the
    values left over are added one by one. *)
Definition block_sum (a : list float) : float :=
  match a with
  | x0 :: x1 :: x2 :: x3 :: x4 :: x5 :: x6 :: x7 :: rest =>
      let '(r, tail) := blocks (Acc8 x0 x1 x2 x3 x4 x5 x6 x7) rest in
      fold_left PrimFloat.add tail
        (((r0 r + r1 r) + (r2 r + r3 r)) + ((r4 r + r5 r) + (r6 r + r7 r)))
  | _ => fold_left PrimFloat.add a 0
  end.

(** numpy's pairwise summation: a column of more than 128 values is split
    in two parts, the first one of half the length rounded down to a
    multiple of 8, which are summed separately. [fuel] bounds the depth of
    the splitting; the length of the column is enough
    ([pairwise_sum_fuel]). *)
Fixpoint pairwise_sum (fuel : nat) (a : list float) : float :=
  let n := List.length a in
  match fuel with
  | S fuel' =>
      if (n <=? 128)%nat then block_sum a
      else
        let n2 := (n / 2 - (n / 2) mod 8)%nat in
        pairwise_sum fuel' (firstn n2 a) + pairwise_sum fuel' (skipn n2 a)
  | O => block_sum a
  end.

(** [ndarray.sum()] of a float column, as numpy's [add.reduce] computes it:
    the pairwise sum, added to the initial value 0. (Where pandas finds the
    bottleneck package it sums from left to right instead; the two agree on
    fewer than 8 values.) *)
Definition np_sum (a : list float) : float :=
  0 + pairwise_sum (List.length a) a.

(** [Series.mean()], which skips NaN: the sum of the column with its NaN
    replaced by 0, over the number of values that are not NaN; NaN when
    there is none. *)
Definition Series_mean (col : list float) : float :=
  let count := List.length (filter notna col) in
  match count with
  | O => nan
  | _ => np_sum (fillna 0 col) / of_int64 (Z.of_nat count)
  end.

(** The arithmetic mean of a column, for comparison. *)
Definition mean (col : list float) : float :=
  np_sum col / of_int64 (Z.of_nat (List.length col)).

(** One step of the compensated (Kahan) summation of pandas' [group_mean]:
    the running sum and its compensation term, which is reset when it is
    NaN. *)
Definition kahan_add (acc : float * float) (val : float) : float * float :=
  let y := val - snd acc in
  let t := fst acc + y in
  let c := t - fst acc - y in
  (t, if isna c then 0 else c).

(** The mean of one group, as [groupby(...).agg({..: 'mean'})] computes it:
    the values that are not NaN are added with compensation, and the sum is
    divided by their number; NaN for a group without such a value. *)
Definition group_mean (col : list float) : float :=
  let vals := filter notna col in
  match vals with
  | [] => nan
  | _ => fst (fold_left kahan_add vals (0, 0))
         / of_int64 (Z.of_nat (List.length vals))
  end.

(** numpy's [maximum]: the left operand unless the right one is larger. *)
Definition maximum (a b : float) : float := if PrimFloat.leb b a then a else b.

(** [Series.max()] of a float column, which skips NaN: the maximum of the
    column with its NaN replaced by -inf; NaN when nothing is left. *)
Definition Series_max (col : list float) : float :=
  match filter notna col with
  | [] => nan
  | _ =>
      match fillna neg_infinity col with
      | [] => nan
      | x :: rest => fold_left maximum rest x
      end
  end.

(** [rint]: round to the nearest integer, ties to even. *)
Definition rint (x : float) : float :=
  if abs x <? 0x1p52 then
    let r := (abs x + 0x1p52) - 0x1p52 in
    if get_sign x then - r else r
  else x.

(** [round(x, 1)] on a numpy float: scale, [rint], scale back. *)
Definition round1 (x : float) : float := rint (x * 10) / 10.

(** [int(x)]: truncation toward zero; NaN and the infinities raise. *)
Definition py_int (x : float) : PyResult Z :=
  match Prim2SF x with
  | S754_nan => Raise ValueError
  | S754_infinity _ => Raise OverflowError
  | S754_zero _ => Ok 0%Z
  | S754_finite s m e =>
      let a := Z.shiftl (Zpos m) e in
      Ok (if s then (- a)%Z else a)
  end.

End F64.

(* ================================================================== *)
(** * Sequences: [unique], [sorted] *)

Section Sequences.
Context {A : Type}.

(** [Series.unique()]: the distinct values in order of first appearance. *)
Fixpoint unique_aux (eqb : A -> A -> bool) (seen l : list A) : list A :=
  match l with
  | [] => []
  | x :: l' =>
      if existsb (eqb x) seen then unique_aux eqb seen l'
      else x :: unique_aux eqb (x :: seen) l'
  end.

Definition unique (eqb : A -> A -> bool) (l : list A) : list A :=
  unique_aux eqb [] l.

(** A stable ascending sort: [x] goes before the first element that is
    not below it. *)
Fixpoint insert (leb : A -> A -> bool) (x : A) (l : list A) : list A :=
  match l with
  | [] => [x]
  | y :: l' => if leb x y then x :: l else y :: insert leb x l'
  end.

Fixpoint sorted (leb : A -> A -> bool) (l : list A) : list A :=
  match l with
  | [] => []
  | x :: l' => insert leb x (sorted leb l')
  end.

End Sequences.

(* ================================================================== *)
(** * The data model *)

(** One row of the combined frame: a track in one demographic slice. *)
Record PerformanceRecord : Type := {
  track_name : option string;
  artist_name : option string;
  age_group : string;
  gender : string;
  total_streams : Z;
  total_saves : Z;
  skip_rate : float
}.

Definition DataFrame : Type := list PerformanceRecord.

(** The groupby key [['track_name', 'artist_name']]. *)
Definition TrackIdentity : Type := (string * string)%type.

Definition identity_eqb (k1 k2 : TrackIdentity) : bool :=
  (fst k1 =? fst k2) && (snd k1 =? snd k2).

(** Tuples compare lexicographically. *)
Definition pair_leb (k1 k2 : string * string) : bool :=
  match String.compare (fst k1) (fst k2) with
  | Lt => true
  | Eq => String.leb (snd k1) (snd k2)
  | Gt => false
  end.

Definition row_identity (r : PerformanceRecord) : option TrackIdentity :=
  match track_name r, artist_name r with
  | Some t, Some a => Some (t, a)
  | _, _ => None
  end.

Definition has_identity (k : TrackIdentity) (r : PerformanceRecord) : bool :=
  match row_identity r with
  | Some k' => identity_eqb k k'
  | None => false
  end.

(** One row of [df.groupby(['track_name','artist_name']).agg(...)]. *)
Record TrackMetrics : Type := {
  m_track_name : string;
  m_artist_name : string;
  m_total_streams : Z;     (* 'sum' *)
  m_total_saves : Z;       (* 'sum' *)
  m_skip_rate : float      (* 'mean' *)
}.

Definition m_identity (g : TrackMetrics) : TrackIdentity :=
  (m_track_name g, m_artist_name g).

(** The group keys: rows with a missing name are dropped, the keys are
    sorted. *)
Definition group_keys (df : DataFrame) : list TrackIdentity :=
  sorted pair_leb
    (unique identity_eqb
       (flat_map (fun r => match row_identity r with
                           | Some k => [k]
                           | None => []
                           end) df)).

Definition aggregate_group (df : DataFrame) (k : TrackIdentity) : TrackMetrics :=
  let rows := filter (has_identity k) df in
  {| m_track_name := fst k;
     m_artist_name := snd k;
     m_total_streams := Int64.sum (map total_streams rows);
     m_total_saves := Int64.sum (map total_saves rows);
     m_skip_rate := F64.group_mean (map skip_rate rows) |}.

Definition groupby_agg (df : DataFrame) : list TrackMetrics :=
  map (aggregate_group df) (group_keys df).

(** [sort_values(by, ascending=False)] on a float column: the rows whose
    key is not NaN are reversed, sorted ascending and reversed again; the
    rows whose key is NaN follow, in their order. pandas sorts with numpy's
    default kind, quicksort, which is not stable: where rows of equal key
    end up depends on the numpy build. The embedding places them as a stable
    sort does, which is one of the possible outcomes; the statements on the
    ranking are those that hold wherever the rows of equal key are placed. *)
Definition sort_values_desc {A} (by_ : A -> float) (rows : list A) : list A :=
  let non_nans := filter (fun r => F64.notna (by_ r)) rows in
  let nans := filter (fun r => F64.isna (by_ r)) rows in
  rev (sorted (fun a b => PrimFloat.leb (by_ a) (by_ b)) (rev non_nans)) ++ nans.

(** [Series.max()] of an int64 column, as the float it divides by; NaN for
    an empty column. *)
Definition Series_max_int (col : list Z) : float :=
  match col with
  | [] => nan
  | x :: rest => F64.of_int64 (fold_left Z.max rest x)
  end.

(* ================================================================== *)
(** * Scoring relative to the means
      ([recommend_track] of casechallenge_final.py and casechallenge_sony.py) *)

Module MeanRelative.

Local Open Scope float_scope.

(** A row of [grouped] once every column is added. [s_skip_rate] is the
    column [skip_rate] after it was overwritten by [skip_rate / 100]. *)
Record ScoredTrack : Type := {
  s_track_name : string;
  s_artist_name : string;
  s_total_streams : Z;
  s_total_saves : Z;
  s_skip_rate : float;
  save_rate : float;
  save_rate_norm : float;
  skip_rate_norm : float;
  stream_share : float;
  total_score : float
}.

Definition s_identity (r : ScoredTrack) : TrackIdentity :=
  (s_track_name r, s_artist_name r).

Definition save_rate_of (g : TrackMetrics) : float :=
  F64.of_int64 (m_total_saves g) / F64.of_int64 (m_total_streams g).

Definition skip_rate_of (g : TrackMetrics) : float := m_skip_rate g / 100.

(** The columns added to [grouped], before the sort. *)
Definition scored_rows (grouped : list TrackMetrics) : list ScoredTrack :=
  let SAVE_RATE_AVG := F64.Series_mean (map save_rate_of grouped) in
  let SKIP_RATE_AVG := F64.Series_mean (map skip_rate_of grouped) in
  let TOTAL_STREAMS_ALL := Int64.sum (map m_total_streams grouped) in
  map (fun g =>
         let save_rate := save_rate_of g in
         let skip_rate := skip_rate_of g in
         let save_rate_norm := save_rate / SAVE_RATE_AVG in
         let skip_rate_norm := skip_rate / SKIP_RATE_AVG in
         let stream_share :=
           F64.of_int64 (m_total_streams g) / F64.of_int64 TOTAL_STREAMS_ALL in
         {| s_track_name := m_track_name g;
            s_artist_name := m_artist_name g;
            s_total_streams := m_total_streams g;
            s_total_saves := m_total_saves g;
            s_skip_rate := skip_rate;
            save_rate := save_rate;
            save_rate_norm := save_rate_norm;
            skip_rate_norm := skip_rate_norm;
            stream_share := stream_share;
            total_score :=
              0.5 * save_rate_norm - 0.3 * skip_rate_norm + 0.2 * stream_share |})
      grouped.

(** The scoring of the aggregated frame: the columns, then the sort. *)
Definition score (grouped : list TrackMetrics) : list ScoredTrack :=
  sort_values_desc total_score (scored_rows grouped).

(** [recommend_track df]: [(best, grouped)], or IndexError from
    [grouped.iloc[0]] when no row of [df] has both names. *)
Definition recommend_track (df : DataFrame)
  : PyResult (ScoredTrack * list ScoredTrack) :=
  let grouped := score (groupby_agg df) in
  match grouped with
  | [] => Raise IndexError
  | best :: _ => Ok (best, grouped)
  end.

End MeanRelative.

(* ================================================================== *)
(** * Scoring relative to the maxima ([recommend_track] of final_case.py) *)

Module MaxRelative.

Local Open Scope float_scope.

Record ScoredTrack : Type := {
  s_track_name : string;
  s_artist_name : string;
  s_total_streams : Z;
  s_total_saves : Z;
  s_skip_rate : float;
  save_rate : float;
  stream_score : float;
  save_score : float;
  skip_score : float;
  total_score : float
}.

Definition s_identity (r : ScoredTrack) : TrackIdentity :=
  (s_track_name r, s_artist_name r).

Definition scored_rows (grouped : list TrackMetrics) : list ScoredTrack :=
  let max_streams := Series_max_int (map m_total_streams grouped) in
  let max_saves := Series_max_int (map m_total_saves grouped) in
  let max_skip := F64.Series_max (map m_skip_rate grouped) in
  map (fun g =>
         let stream_score := F64.of_int64 (m_total_streams g) / max_streams in
         let save_score := F64.of_int64 (m_total_saves g) / max_saves in
         let skip_score := 1 - m_skip_rate g / max_skip in
         {| s_track_name := m_track_name g;
            s_artist_name := m_artist_name g;
            s_total_streams := m_total_streams g;
            s_total_saves := m_total_saves g;
            s_skip_rate := m_skip_rate g;
            save_rate :=
              F64.of_int64 (m_total_saves g) / F64.of_int64 (m_total_streams g) * 100;
            stream_score := stream_score;
            save_score := save_score;
            skip_score := skip_score;
            total_score :=
              stream_score * 0.5 + save_score * 0.3 + skip_score * 0.2 |})
      grouped.

Definition score (grouped : list TrackMetrics) : list ScoredTrack :=
  sort_values_desc total_score (scored_rows grouped).

Definition recommend_track (df : DataFrame)
  : PyResult (ScoredTrack * list ScoredTrack) :=
  let grouped := score (groupby_agg df) in
  match grouped with
  | [] => Raise IndexError
  | best :: _ => Ok (best, grouped)
  end.

End MaxRelative.

(* ================================================================== *)
(** * Audience analysis *)

(** [df[col] == name] on a name column: a missing name matches nothing. *)
Definition name_is (name : string) (cell : option string) : bool :=
  match cell with
  | Some s => s =? name
  | None => false
  end.

(** [df[(df['track_name']==track_name) & (df['artist_name']==artist_name)]] *)
Definition track_rows (df : DataFrame) (track artist : string) : DataFrame :=
  filter (fun r => name_is track (track_name r) && name_is artist (artist_name r)) df.

(** [round(streams / total_streams * 100, 1)] *)
Definition share_pct (streams total : Z) : float :=
  F64.round1 (F64.of_int64 streams / F64.of_int64 total * 100)%float.

Definition streams_where (p : PerformanceRecord -> bool) (track_df : DataFrame) : Z :=
  Int64.sum (map total_streams (filter p track_df)).

(** One printed line of a distribution: the text, the share and the number
    [int(pct / 3)] by which the bar glyph is repeated. *)
Record DistLine : Type := {
  line_text : string;
  line_pct : float;
  line_bars : Z
}.

Definition dist_line (text : string) (pct : float) : PyResult DistLine :=
  n <- F64.py_int (pct / 3)%float ;;
  Ok {| line_text := text; line_pct := pct; line_bars := n |}.

(** What [audience_analysis] returns. *)
Record SegmentationResult : Type := {
  track : string;
  artist : string;
  kernzielgruppe : string;
  anteil : float
}.

(** What it prints: the two distributions. *)
Record Printed : Type := {
  altersverteilung : list DistLine;
  geschlechtsverteilung : list DistLine
}.

(** [max(d, key=d.get)] over the keys of a dict in insertion order: the
    first key whose value no later value exceeds; ValueError when empty. *)
Fixpoint max_from {K} (cur : K * float) (items : list (K * float)) : K * float :=
  match items with
  | [] => cur
  | x :: rest => max_from (if PrimFloat.ltb (snd cur) (snd x) then x else cur) rest
  end.

Definition py_max_key {K} (d : list (K * float)) : PyResult (K * float) :=
  match d with
  | [] => Raise ValueError
  | x :: rest => Ok (max_from x rest)
  end.

(** ** casechallenge_final.py and final_case.py *)
Module Final.

Definition gender_text (g : string) : string :=
  if g =? "MALE" then "männlich" else "weiblich".

Definition gender_text_primary (g : string) : string :=
  if g =? "MALE" then "männliche" else "weibliche".

Definition age_groups (track_df : DataFrame) : list string :=
  sorted String.leb (unique String.eqb (map age_group track_df)).

Definition genders (track_df : DataFrame) : list string :=
  unique String.eqb (map gender track_df).

(** The dict [age_gender_pct], in insertion order. *)
Definition age_gender_pct (track_df : DataFrame) (total_streams : Z)
  : list ((string * string) * float) :=
  flat_map
    (fun age =>
       map (fun g =>
              ((age, g),
               share_pct
                 (streams_where
                    (fun r => (age_group r =? age) && (gender r =? g)) track_df)
                 total_streams))
           (genders track_df))
    (age_groups track_df).

Definition audience_analysis (df : DataFrame) (track_name artist_name : string)
  : PyResult (Printed * SegmentationResult) :=
  let track_df := track_rows df track_name artist_name in
  let total_streams := Int64.sum (map total_streams track_df) in
  age_lines <-
    for_each
      (fun age =>
         dist_line age
           (share_pct (streams_where (fun r => age_group r =? age) track_df)
                      total_streams))
      (age_groups track_df) ;;
  gender_lines <-
    for_each
      (fun g =>
         dist_line (gender_text g)
           (share_pct (streams_where (fun r => gender r =? g) track_df)
                      total_streams))
      (genders track_df) ;;
  primary <- py_max_key (age_gender_pct track_df total_streams) ;;
  let '((age_group, gender), primary_share) := primary in
  Ok ({| altersverteilung := age_lines;
         geschlechtsverteilung := gender_lines |},
      {| track := track_name;
         artist := artist_name;
         kernzielgruppe := gender_text_primary gender ++ " " ++ age_group;
         anteil := primary_share |}).

End Final.

(** ** casechallenge_sony.py *)
Module Sony.

Definition get_german_gender_text (gender : string) : string :=
  if gender =? "MALE" then "männlich" else "weiblich".

Definition get_german_gender_text_primary (gender : string) : string :=
  if gender =? "MALE" then "männliche" else "weibliche".

Inductive GroupCol : Type := col_age_group | col_gender.

Definition column (c : GroupCol) : PerformanceRecord -> string :=
  match c with
  | col_age_group => age_group
  | col_gender => gender
  end.

Definition print_distribution (df : DataFrame) (group_col : GroupCol)
           (total_streams : Z) : PyResult (list DistLine) :=
  let groups := sorted String.leb (unique String.eqb (map (column group_col) df)) in
  for_each
    (fun group =>
       let pct :=
         share_pct (streams_where (fun r => column group_col r =? group) df)
                   total_streams in
       let display_text :=
         match group_col with
         | col_gender => get_german_gender_text group
         | col_age_group => group
         end in
       dist_line display_text pct)
    groups.

Definition pair_eqb (k1 k2 : string * string) : bool :=
  (fst k1 =? fst k2) && (snd k1 =? snd k2).

(** [round(track_df.groupby(['age_group','gender'])['total_streams'].sum()
           / total_streams * 100, 1)]: one entry per observed pair, the
    pairs sorted. *)
Definition age_gender_pct (track_df : DataFrame) (total_streams : Z)
  : list ((string * string) * float) :=
  map (fun k =>
         (k,
          share_pct
            (streams_where
               (fun r => pair_eqb (age_group r, gender r) k) track_df)
            total_streams))
      (sorted pair_leb
         (unique pair_eqb (map (fun r => (age_group r, gender r)) track_df))).

(** [Series.idxmax()]: the label of the first maximum, NaN skipped (they
    count as -inf); ValueError when the Series is empty or all NaN. *)
Definition idxmax {K} (s : list (K * float)) : PyResult K :=
  match filter (fun kv => F64.notna (snd kv)) s with
  | [] => Raise ValueError
  | _ =>
      kv <- py_max_key
              (map (fun kv => (fst kv,
                               if F64.isna (snd kv) then neg_infinity else snd kv)) s) ;;
      Ok (fst kv)
  end.

Definition audience_analysis (df : DataFrame) (track_name artist_name : string)
  : PyResult (Printed * SegmentationResult) :=
  let track_df := track_rows df track_name artist_name in
  let total_streams := Int64.sum (map total_streams track_df) in
  age_lines <- print_distribution track_df col_age_group total_streams ;;
  gender_lines <- print_distribution track_df col_gender total_streams ;;
  let age_gender_pct := age_gender_pct track_df total_streams in
  primary <- idxmax age_gender_pct ;;
  let primary_share := F64.Series_max (map snd age_gender_pct) in
  let '(age_group, gender) := primary in
  let gender_text := get_german_gender_text_primary gender in
  Ok ({| altersverteilung := age_lines;
         geschlechtsverteilung := gender_lines |},
      {| track := track_name;
         artist := artist_name;
         kernzielgruppe := gender_text ++ " " ++ age_group;
         anteil := primary_share |}).

End Sony.


(* ================================================================== *)
(** * The properties to compare the code with *)

(** The strict order of tuples of two strings. *)
Definition pair_ltb (k1 k2 : string * string) : bool :=
  match String.compare (fst k1) (fst k2) with
  | Lt => true
  | Eq => String.ltb (snd k1) (snd k2)
  | Gt => false
  end.

Module Ranking.

(** The sort key of a scored row: composite score, total streams, identity. *)
Definition Key : Type := (float * Z * TrackIdentity)%type.

Definition key_score (k : Key) : float := fst (fst k).
Definition key_streams (k : Key) : Z := snd (fst k).
Definition key_identity (k : Key) : TrackIdentity := snd k.

(** The order of the embedded sort: higher score first, a NaN score after
    every other, rows of equal score (or both NaN) by ascending identity.
    The last part is the placement of rows of equal score that the
    embedding fixes, not one that pandas promises (see [sort_values_desc]). *)
Definition ranks_before (a b : Key) : bool :=
  PrimFloat.ltb (key_score b) (key_score a)
  || (F64.notna (key_score a) && F64.isna (key_score b))
  || ((PrimFloat.eqb (key_score a) (key_score b)
       || (F64.isna (key_score a) && F64.isna (key_score b)))
      && pair_ltb (key_identity a) (key_identity b)).

(** What a descending sort on the score guarantees, wherever it places
    rows of equal score: a row is followed only by rows whose score is not
    larger, and a row whose score is NaN only by rows whose score is NaN. *)
Definition score_before (a b : Key) : bool :=
  PrimFloat.leb (key_score b) (key_score a) || F64.isna (key_score b).

(** The order of the specification: higher score first; at equal score more
    streams first; then ascending track name, then artist name. *)
Definition spec_ranks_before (a b : Key) : bool :=
  PrimFloat.ltb (key_score b) (key_score a)
  || (PrimFloat.eqb (key_score a) (key_score b)
      && ((key_streams b <? key_streams a)%Z
          || ((key_streams a =? key_streams b)%Z
              && pair_leb (key_identity a) (key_identity b)))).

(** No two adjacent entries violate the order. *)
Fixpoint adjacent_ok {A} (before : A -> A -> bool) (l : list A) : bool :=
  match l with
  | a :: (b :: _) as l' => before a b && adjacent_ok before l'
  | _ => true
  end.

End Ranking.

(** The composite of the specification under MEAN_RELATIVE, for a track [t]
    of the population [tracks]. *)
Definition mean_relative_composite (w_engagement w_quality w_volume : float)
           (tracks : list TrackMetrics) (t : TrackMetrics) : float :=
  let save_rate u :=
    (F64.of_int64 (m_total_saves u) / F64.of_int64 (m_total_streams u))%float in
  let skip_fraction u := (m_skip_rate u / 100)%float in
  (w_engagement * (save_rate t / F64.Series_mean (map save_rate tracks))
   - w_quality * (skip_fraction t / F64.Series_mean (map skip_fraction tracks))
   + w_volume * (F64.of_int64 (m_total_streams t)
                 / F64.of_int64 (Int64.sum (map m_total_streams tracks))))%float.

(** The three sub-scores of the specification under MAX_RELATIVE. *)
Definition max_relative_stream_score (tracks : list TrackMetrics) (t : TrackMetrics) : float :=
  (F64.of_int64 (m_total_streams t) / Series_max_int (map m_total_streams tracks))%float.

Definition max_relative_save_score (tracks : list TrackMetrics) (t : TrackMetrics) : float :=
  (F64.of_int64 (m_total_saves t) / Series_max_int (map m_total_saves tracks))%float.

Definition max_relative_skip_score (tracks : list TrackMetrics) (t : TrackMetrics) : float :=
  (1 - m_skip_rate t / F64.Series_max (map m_skip_rate tracks))%float.

(** The binary64 value of [k] tenths of a percentage point: [k / 10] as
    the division of binary64 gives it. A share rounded to one decimal is
    such a value, and prints as [k / 10]. *)
Definition tenths (k : Z) : float := (F64.of_int64 k / 10)%float.

(** The sort keys of the scored rows of the two scripts. *)
Definition mean_rank_key (r : MeanRelative.ScoredTrack) : Ranking.Key :=
  (MeanRelative.total_score r, MeanRelative.s_total_streams r,
   MeanRelative.s_identity r).

Definition max_rank_key (r : MaxRelative.ScoredTrack) : Ranking.Key :=
  (MaxRelative.total_score r, MaxRelative.s_total_streams r,
   MaxRelative.s_identity r).

(** Concrete frames, for the scenarios of the specification. *)
Module Examples.

Definition record (track artist age g : string) (streams saves : Z) (skip : float)
  : PerformanceRecord :=
  {| track_name := Some track; artist_name := Some artist;
     age_group := age; gender := g;
     total_streams := streams; total_saves := saves; skip_rate := skip |}.

(** T1(streams=1000, saves=100, skip=5), T2(500, 20, 10), T3(2000, 150, 2). *)
Definition three_tracks : DataFrame :=
  [ record "T1" "Artist" "18-24" "MALE" 1000 100 5;
    record "T2" "Artist" "18-24" "MALE" 500 20 10;
    record "T3" "Artist" "18-24" "MALE" 2000 150 2 ].

(** Two tracks whose composites are both 0.3 in binary64. *)
Definition tied_tracks : DataFrame :=
  [ record "A" "Artist" "18-24" "MALE" 1 1 5;
    record "B" "Artist" "18-24" "MALE" 3 3 7 ].

(** The same two tracks with the names exchanged: the column of scores is
    the same as in [tied_tracks]. *)
Definition tied_tracks_swapped : DataFrame :=
  [ record "A" "Artist" "18-24" "MALE" 3 3 7;
    record "B" "Artist" "18-24" "MALE" 1 1 5 ].

(** Two tracks without streams among two with streams. *)
Definition zero_stream_tracks : DataFrame :=
  [ record "A" "Artist" "18-24" "MALE" 0 1 5;
    record "B" "Artist" "18-24" "MALE" 3 3 7;
    record "C" "Artist" "18-24" "MALE" 0 0 7;
    record "D" "Artist" "18-24" "MALE" 10 2 7 ].

(** (18-24,MALE)=800, (18-24,FEMALE)=600, (25-34,MALE)=400,
    (25-34,FEMALE)=200, and a row of another track. *)
Definition four_cells : DataFrame :=
  [ record "T" "Artist" "18-24" "MALE" 800 80 5;
    record "T" "Artist" "18-24" "FEMALE" 600 60 5;
    record "T" "Artist" "25-34" "MALE" 400 40 5;
    record "T" "Artist" "25-34" "FEMALE" 200 20 5;
    record "U" "Artist" "35-44" "MALE" 100 10 5 ].

(** Two cells of the same size, the MALE rows first. *)
Definition tied_cells : DataFrame :=
  [ record "T" "Artist" "18-24" "MALE" 500 50 5;
    record "T" "Artist" "18-24" "FEMALE" 500 50 5 ].

(** Six age buckets of the same size; the gender split is one to five. *)
Definition six_buckets : DataFrame :=
  [ record "T" "Artist" "18-22" "MALE" 1 0 5;
    record "T" "Artist" "23-27" "FEMALE" 1 0 5;
    record "T" "Artist" "28-34" "FEMALE" 1 0 5;
    record "T" "Artist" "35-44" "FEMALE" 1 0 5;
    record "T" "Artist" "45-59" "FEMALE" 1 0 5;
    record "T" "Artist" "60-150" "FEMALE" 1 0 5 ].

End Examples.

(** NaN or an infinity: what a division by zero yields. *)
Definition nan_or_inf (x : float) : bool :=
  match Prim2SF x with
  | S754_nan | S754_infinity _ => true
  | _ => false
  end.

(** One of the partial sums is NaN or an infinity. *)
Definition acc8_nan_or_inf (r : F64.acc8) : bool :=
  nan_or_inf (F64.r0 r) || nan_or_inf (F64.r1 r) || nan_or_inf (F64.r2 r)
  || nan_or_inf (F64.r3 r) || nan_or_inf (F64.r4 r) || nan_or_inf (F64.r5 r)
  || nan_or_inf (F64.r6 r) || nan_or_inf (F64.r7 r).

(** A share whose bar can be printed: [int(pct / 3)] is defined, that is,
    [pct] is neither NaN nor infinite. *)
Definition printable (pct : float) : bool :=
  match F64.py_int (pct / 3)%float with
  | Ok _ => true
  | Raise _ => false
  end.

Definition bars_of (pct : float) : Z :=
  match F64.py_int (pct / 3)%float with
  | Ok n => n
  | Raise _ => 0
  end.

(** The rows of a track whose distribution lines can all be printed. *)
Definition lines_printable (track_df : DataFrame) : Prop :=
  let total := Int64.sum (map total_streams track_df) in
  forall r, In r track_df ->
    printable (share_pct (streams_where (fun r' => age_group r' =? age_group r) track_df)
                         total) = true
    /\ printable (share_pct (streams_where (fun r' => gender r' =? gender r) track_df)
                            total) = true.

(** The identities of the rows that carry both names, row by row. *)
Definition named_keys (df : DataFrame) : list TrackIdentity :=
  flat_map (fun r => match row_identity r with
                     | Some k => [k]
                     | None => []
                     end) df.

(** [m] is a maximum of the shares: no entry [x] has a larger share. *)
Definition no_greater {K} (m : K * float) (x : K * float) : Prop :=
  PrimFloat.ltb (snd m) (snd x) = false.

(** The share of [x] differs from the share of [m]. *)
Definition not_equal {K} (m : K * float) (x : K * float) : Prop :=
  PrimFloat.eqb (snd x) (snd m) = false.

(** The shares that [audience_analysis] prints for an age bucket and for a
    gender of the rows [track_df] of a track. *)
Definition age_share (track_df : DataFrame) (age : string) : float :=
  share_pct (streams_where (fun r => age_group r =? age) track_df)
            (Int64.sum (map total_streams track_df)).

Definition gender_share (track_df : DataFrame) (g : string) : float :=
  share_pct (streams_where (fun r => gender r =? g) track_df)
            (Int64.sum (map total_streams track_df)).

Definition line_of (text : string) (pct : float) : DistLine :=
  {| line_text := text; line_pct := pct; line_bars := bars_of pct |}.

(** The rows that [groupby] keeps: both names present. *)
Definition is_named (r : PerformanceRecord) : bool :=
  match row_identity r with
  | Some _ => true
  | None => false
  end.

(** The cells whose shares [audience_analysis] computes: the streams of
    each observed age bucket, of each observed gender, and of each pair of
    the cross-tabulation. *)
Definition age_cells (track_df : DataFrame) : list Z :=
  map (fun age => streams_where (fun r => age_group r =? age) track_df)
      (Final.age_groups track_df).

Definition gender_cells (track_df : DataFrame) : list Z :=
  map (fun g => streams_where (fun r => gender r =? g) track_df)
      (Final.genders track_df).

Definition final_cross_cells (track_df : DataFrame) : list Z :=
  map (fun k => streams_where
                  (fun r => (age_group r =? fst k) && (gender r =? snd k)) track_df)
      (list_prod (Final.age_groups track_df) (Final.genders track_df)).

Definition sony_cross_cells (track_df : DataFrame) : list Z :=
  map (fun k => streams_where
                  (fun r => Sony.pair_eqb (age_group r, gender r) k) track_df)
      (sorted pair_leb
         (unique Sony.pair_eqb (map (fun r => (age_group r, gender r)) track_df))).

(** The cells of the gender distribution of casechallenge_sony.py, whose
    [groupby] sorts the labels. *)
Definition sony_gender_cells (track_df : DataFrame) : list Z :=
  map (fun g => streams_where (fun r => gender r =? g) track_df)
      (sorted String.leb (unique String.eqb (map gender track_df))).

(** The shares of the cells as the scripts compute them. *)
Definition float_shares (cells : list Z) (total : Z) : list float :=
  map (fun c => share_pct c total) cells.

(** The comparison of two binary64 values, [None] when one of them is NaN. *)
Definition float_cmp (x y : float) : option comparison :=
  SFcompare (Prim2SF x) (Prim2SF y).

(* ================================================================== *)
(** * [main]: scoring, then the audience of the best track

    [data] is what the loader returned: [None] when it failed, in which
    case [main] prints "Analyse failed." and returns. *)

(** casechallenge_final.py *)
Definition main_final (data : option DataFrame)
  : PyResult (option ((MeanRelative.ScoredTrack * list MeanRelative.ScoredTrack)
                      * (Printed * SegmentationResult))) :=
  match data with
  | None => Ok None
  | Some data =>
      scored <- MeanRelative.recommend_track data ;;
      let best_track := fst scored in
      audience_info <-
        Final.audience_analysis data (MeanRelative.s_track_name best_track)
                                (MeanRelative.s_artist_name best_track) ;;
      Ok (Some (scored, audience_info))
  end.

(** final_case.py *)
Definition main_final_case (data : option DataFrame)
  : PyResult (option ((MaxRelative.ScoredTrack * list MaxRelative.ScoredTrack)
                      * (Printed * SegmentationResult))) :=
  match data with
  | None => Ok None
  | Some data =>
      scored <- MaxRelative.recommend_track data ;;
      let best_track := fst scored in
      audience_info <-
        Final.audience_analysis data (MaxRelative.s_track_name best_track)
                                (MaxRelative.s_artist_name best_track) ;;
      Ok (Some (scored, audience_info))
  end.

(** casechallenge_sony.py *)
Definition main_sony (data : option DataFrame)
  : PyResult (option ((MeanRelative.ScoredTrack * list MeanRelative.ScoredTrack)
                      * (Printed * SegmentationResult))) :=
  match data with
  | None => Ok None
  | Some data =>
      scored <- MeanRelative.recommend_track data ;;
      let best_track := fst scored in
      audience_df <-
        Sony.audience_analysis data (MeanRelative.s_track_name best_track)
                               (MeanRelative.s_artist_name best_track) ;;
      Ok (Some (scored, audience_df))
  end.

(** A track with one record and no streams. *)
Definition zero_volume_example : DataFrame :=
  [ {| track_name := Some "T"; artist_name := Some "Artist";
       age_group := "18-24"; gender := "MALE";
       total_streams := 0; total_saves := 0; skip_rate := 5 |} ].

(* ================================================================== *)
(** * Rounding to binary64: what the proofs on the shares speak of *)

(** Where the quotient [N / D] lies between its integer part and the next
    integer: the location that [SFdiv] hands to the rounding. *)
Definition loc_of (N D : Z) : location :=
  if (N mod D =? 0)%Z then loc_Exact else loc_Inexact (2 * (N mod D) ?= D)%Z.

(** The record that the right shifts of the rounding work on. *)
Definition rec_of (N D : Z) : shr_record :=
  shr_record_of_loc (N / D)%Z (loc_of N D).

(** The value of a binary64 number as a real number. *)
Module RealValue.
Import Reals.

Definition bpow (e : Z) : R := powerRZ 2 e.

(** The unit roundoff of binary64, 2 ^ -53. *)
Definition u53 : R := / 9007199254740992.

(** [x] is a positive normal binary64 number of value [v]. *)
Definition pos_normal (x : spec_float) (v : R) : Prop :=
  exists m e,
    x = S754_finite false m e
    /\ (2 ^ 52 <= Z.pos m < 2 ^ 53)%Z
    /\ (-1074 <= e <= 971)%Z
    /\ v = (IZR (Z.pos m) * bpow e)%R.

End RealValue.

(* ================================================================== *)
(** * The order of binary64 values *)

Module FloatOrder.

Local Open Scope Z_scope.

Lemma ltb_cmp x y : PrimFloat.ltb x y = true <-> float_cmp x y = Some Lt.
Proof.
  rewrite FloatAxioms.ltb_spec. unfold SFltb, float_cmp.
  destruct (SFcompare _ _) as [[]|]; split; congruence.
Qed.

Lemma eqb_cmp x y : PrimFloat.eqb x y = true <-> float_cmp x y = Some Eq.
Proof.
  rewrite FloatAxioms.eqb_spec. unfold SFeqb, float_cmp.
  destruct (SFcompare _ _) as [[]|]; split; congruence.
Qed.

Lemma leb_cmp x y :
  PrimFloat.leb x y = true <-> float_cmp x y = Some Lt \/ float_cmp x y = Some Eq.
Proof.
  rewrite FloatAxioms.leb_spec. unfold SFleb, float_cmp.
  destruct (SFcompare _ _) as [[]|]; split; intros H; auto; try congruence;
    destruct H; congruence.
Qed.

Lemma SFcompare_refl f : f <> S754_nan -> SFcompare f f = Some Eq.
Proof.
  destruct f as [s|s| |s m e]; simpl; intros; try congruence.
  - destruct s; reflexivity.
  - destruct s; rewrite Z.compare_refl;
      change (Pos.compare_cont Eq m m) with (Pos.compare m m);
      rewrite Pos.compare_refl; reflexivity.
Qed.

Lemma SFcompare_antisym f g :
  SFcompare g f = option_map CompOpp (SFcompare f g).
Proof.
  destruct f as [s|s| |s m e], g as [s'|s'| |s' m' e']; simpl;
    try reflexivity; try (destruct s; reflexivity);
    try (destruct s'; reflexivity);
    try (destruct s, s'; reflexivity).
  change (Pos.compare_cont Eq m m') with (Pos.compare m m').
  change (Pos.compare_cont Eq m' m) with (Pos.compare m' m).
  rewrite (Z.compare_antisym e e'), (Pos.compare_antisym m m').
  destruct s, s'; simpl; try reflexivity;
    destruct (e ?= e'); simpl; try reflexivity;
    destruct (m ?= m')%positive; reflexivity.
Qed.

Lemma SFcompare_lt_trans f g h :
  SFcompare f g = Some Lt -> SFcompare g h = Some Lt -> SFcompare f h = Some Lt.
Proof.
  destruct f as [s|s| |s m e], g as [s'|s'| |s' m' e'], h as [s''|s''| |s'' m'' e''];
    simpl; try discriminate;
    try (destruct s; simpl; try discriminate; try reflexivity);
    try (destruct s'; simpl; try discriminate; try reflexivity);
    try (destruct s''; simpl; try discriminate; try reflexivity);
    change (Pos.compare_cont Eq m m') with (Pos.compare m m');
    change (Pos.compare_cont Eq m' m'') with (Pos.compare m' m'');
    change (Pos.compare_cont Eq m m'') with (Pos.compare m m'');
    destruct (Z.compare_spec e e'), (Z.compare_spec e' e''),
      (Z.compare_spec e e''); try discriminate; try reflexivity; try lia;
    subst;
    destruct (Pos.compare_spec m m'), (Pos.compare_spec m' m''),
      (Pos.compare_spec m m''); simpl; try discriminate; try reflexivity; lia.
Qed.

Lemma SFcompare_eq_l f g h :
  SFcompare f g = Some Eq -> SFcompare f h = SFcompare g h.
Proof.
  destruct f as [s|s| |s m e], g as [s'|s'| |s' m' e'], h as [s''|s''| |s'' m'' e''];
    simpl; try discriminate; try reflexivity;
    try (destruct s; simpl; try discriminate; try reflexivity);
    try (destruct s'; simpl; try discriminate; try reflexivity);
    try (destruct s''; simpl; try discriminate; try reflexivity);
    change (Pos.compare_cont Eq m m') with (Pos.compare m m');
    destruct (Z.compare_spec e e'); try discriminate;
    destruct (Pos.compare_spec m m'); simpl; try discriminate; subst; reflexivity.
Qed.

Lemma SFcompare_none f g :
  SFcompare f g = None <-> f = S754_nan \/ g = S754_nan.
Proof.
  destruct f as [s|s| |s m e], g as [s'|s'| |s' m' e']; simpl;
    split; intros H; auto; try discriminate;
    try (destruct H; discriminate).
Qed.

(** ** The same facts on the primitive comparisons *)

Lemma isna_spec x : F64.isna x = true <-> Prim2SF x = S754_nan.
Proof.
  unfold F64.isna, is_nan. rewrite negb_true_iff, FloatAxioms.eqb_spec. unfold SFeqb.
  split; intros H.
  - destruct (Prim2SF x) eqn:E; auto; rewrite SFcompare_refl in H;
      congruence.
  - rewrite H. reflexivity.
Qed.

Lemma notna_spec x : F64.notna x = true <-> Prim2SF x <> S754_nan.
Proof.
  unfold F64.notna. fold (F64.isna x). rewrite negb_true_iff.
  rewrite <- isna_spec. destruct (F64.isna x); split; congruence.
Qed.

Lemma notna_isna x : F64.notna x = negb (F64.isna x).
Proof. reflexivity. Qed.

Lemma cmp_none x y :
  float_cmp x y = None <-> F64.isna x = true \/ F64.isna y = true.
Proof. unfold float_cmp. rewrite SFcompare_none, !isna_spec. tauto. Qed.

Lemma cmp_some x y :
  F64.notna x = true -> F64.notna y = true -> exists c, float_cmp x y = Some c.
Proof.
  intros Hx Hy. destruct (float_cmp x y) as [c|] eqn:E; eauto.
  apply cmp_none in E. rewrite !notna_isna, negb_true_iff in *.
  destruct E; congruence.
Qed.

Lemma cmp_antisym x y : float_cmp y x = option_map CompOpp (float_cmp x y).
Proof. apply SFcompare_antisym. Qed.

Lemma ltb_trans x y z :
  PrimFloat.ltb x y = true -> PrimFloat.ltb y z = true -> PrimFloat.ltb x z = true.
Proof. rewrite !ltb_cmp. apply SFcompare_lt_trans. Qed.

Lemma ltb_irrefl x : PrimFloat.ltb x x = false.
Proof.
  destruct (PrimFloat.ltb x x) eqn:E; auto.
  apply ltb_cmp in E. pose proof (cmp_antisym x x) as H.
  rewrite E in H. discriminate.
Qed.

Lemma ltb_asym x y : PrimFloat.ltb x y = true -> PrimFloat.ltb y x = false.
Proof.
  intros H. destruct (PrimFloat.ltb y x) eqn:E; auto.
  pose proof (ltb_irrefl x) as I. rewrite (ltb_trans _ _ _ H E) in I.
  discriminate.
Qed.

Lemma eqb_sym x y : PrimFloat.eqb x y = PrimFloat.eqb y x.
Proof.
  rewrite !FloatAxioms.eqb_spec. unfold SFeqb. rewrite (SFcompare_antisym (Prim2SF x)).
  destruct (SFcompare (Prim2SF x) (Prim2SF y)) as [[]|]; reflexivity.
Qed.

Lemma eqb_ltb_l x y z :
  PrimFloat.eqb x y = true -> PrimFloat.ltb x z = PrimFloat.ltb y z.
Proof.
  intros H. apply eqb_cmp in H. rewrite !FloatAxioms.ltb_spec. unfold SFltb.
  unfold float_cmp in H. rewrite (SFcompare_eq_l _ _ _ H). reflexivity.
Qed.

Lemma eqb_ltb_r x y z :
  PrimFloat.eqb x y = true -> PrimFloat.ltb z x = PrimFloat.ltb z y.
Proof.
  intros H. apply eqb_cmp in H. rewrite !FloatAxioms.ltb_spec. unfold SFltb.
  unfold float_cmp in H.
  rewrite (SFcompare_antisym (Prim2SF x)), (SFcompare_antisym (Prim2SF y)).
  rewrite (SFcompare_eq_l _ _ _ H). reflexivity.
Qed.

Lemma eqb_notna x y : PrimFloat.eqb x y = true -> F64.notna x = true /\ F64.notna y = true.
Proof.
  intros H. apply eqb_cmp in H.
  split; rewrite notna_isna, negb_true_iff;
    destruct (F64.isna _) eqn:E; auto;
    assert (float_cmp x y = None) by (apply cmp_none; auto); congruence.
Qed.

Lemma ltb_notna x y : PrimFloat.ltb x y = true -> F64.notna x = true /\ F64.notna y = true.
Proof.
  intros H. apply ltb_cmp in H.
  split; rewrite notna_isna, negb_true_iff;
    destruct (F64.isna _) eqn:E; auto;
    assert (float_cmp x y = None) by (apply cmp_none; auto); congruence.
Qed.

Lemma leb_iff x y :
  PrimFloat.leb x y = true <-> PrimFloat.ltb x y = true \/ PrimFloat.eqb x y = true.
Proof. rewrite leb_cmp, ltb_cmp, eqb_cmp. tauto. Qed.

Lemma leb_total x y :
  F64.notna x = true -> F64.notna y = true ->
  PrimFloat.leb x y = true \/ PrimFloat.leb y x = true.
Proof.
  intros Hx Hy. destruct (cmp_some x y Hx Hy) as [c Hc].
  rewrite !leb_cmp, (cmp_antisym x y), Hc.
  destruct c; simpl; auto.
Qed.

Lemma leb_false x y :
  F64.notna x = true -> F64.notna y = true ->
  PrimFloat.leb x y = false -> PrimFloat.ltb y x = true.
Proof.
  intros Hx Hy H. destruct (cmp_some x y Hx Hy) as [c Hc].
  apply ltb_cmp. rewrite (cmp_antisym x y), Hc.
  destruct c; simpl; auto;
    assert (PrimFloat.leb x y = true) by (apply leb_cmp; auto); congruence.
Qed.

Lemma leb_trans x y z :
  PrimFloat.leb x y = true -> PrimFloat.leb y z = true -> PrimFloat.leb x z = true.
Proof.
  rewrite !leb_iff. intros [H1|H1] [H2|H2].
  - left. eapply ltb_trans; eauto.
  - left. rewrite <- (eqb_ltb_r _ _ _ H2). exact H1.
  - left. rewrite (eqb_ltb_l _ _ _ H1). exact H2.
  - right. apply eqb_cmp. apply eqb_cmp in H1, H2. unfold float_cmp in *.
    rewrite (SFcompare_eq_l _ _ _ H1). exact H2.
Qed.

End FloatOrder.

(* ================================================================== *)
(** * The order of strings and of pairs of strings *)

Module StringOrder.

Lemma compare_refl s : String.compare s s = Eq.
Proof. apply String_as_OT.cmp_eq. reflexivity. Qed.

Lemma compare_eq s t : String.compare s t = Eq -> s = t.
Proof. apply String_as_OT.cmp_eq. Qed.

Lemma compare_lt_trans s t u :
  String.compare s t = Lt -> String.compare t u = Lt -> String.compare s u = Lt.
Proof.
  intros H1 H2. apply String_as_OT.cmp_lt.
  apply String_as_OT.cmp_lt in H1, H2.
  eapply String_as_OT.lt_trans; eauto.
Qed.

Lemma compare_gt_lt s t : String.compare s t = Gt -> String.compare t s = Lt.
Proof.
  intros H. pose proof (String_as_OT.cmp_antisym t s) as A.
  unfold String_as_OT.cmp in A. rewrite H in A. exact A.
Qed.

Lemma compare_lt_gt s t : String.compare s t = Lt -> String.compare t s = Gt.
Proof.
  intros H. pose proof (String_as_OT.cmp_antisym t s) as A.
  unfold String_as_OT.cmp in A. rewrite H in A. exact A.
Qed.

Lemma str_leb_iff s t : String.leb s t = true <-> String.compare s t = Lt \/ s = t.
Proof.
  unfold String.leb. destruct (String.compare s t) eqn:E; split; intros H; auto.
  - right. apply compare_eq. exact E.
  - discriminate.
  - destruct H as [H|H]; [discriminate|]. subst. rewrite compare_refl in E.
    discriminate.
Qed.

Lemma str_ltb_iff s t : String.ltb s t = true <-> String.compare s t = Lt.
Proof.
  unfold String.ltb. destruct (String.compare s t); split; congruence.
Qed.

Lemma str_leb_refl s : String.leb s s = true.
Proof. apply str_leb_iff. auto. Qed.

Lemma str_leb_trans s t u :
  String.leb s t = true -> String.leb t u = true -> String.leb s u = true.
Proof.
  rewrite !str_leb_iff. intros [H1|H1] [H2|H2]; subst; auto.
  left. eapply compare_lt_trans; eauto.
Qed.

Lemma eqb_pair_eq (k1 k2 : string * string) :
  (String.eqb (fst k1) (fst k2) && String.eqb (snd k1) (snd k2)) = true <-> k1 = k2.
Proof.
  destruct k1, k2; simpl. rewrite andb_true_iff, !String.eqb_eq.
  split; [intros []; subst; auto | intros H; inversion H; auto].
Qed.

Lemma identity_eqb_eq k1 k2 : identity_eqb k1 k2 = true <-> k1 = k2.
Proof. apply eqb_pair_eq. Qed.

Lemma pair_leb_refl k : pair_leb k k = true.
Proof. unfold pair_leb. rewrite compare_refl. apply str_leb_refl. Qed.

Lemma pair_leb_total k1 k2 : pair_leb k1 k2 = true \/ pair_leb k2 k1 = true.
Proof.
  unfold pair_leb. destruct (String.compare (fst k1) (fst k2)) eqn:E; auto.
  - apply compare_eq in E. rewrite E, compare_refl. apply String.leb_total.
  - right. rewrite (compare_gt_lt _ _ E). reflexivity.
Qed.

Lemma pair_leb_trans k1 k2 k3 :
  pair_leb k1 k2 = true -> pair_leb k2 k3 = true -> pair_leb k1 k3 = true.
Proof.
  unfold pair_leb.
  destruct (String.compare (fst k1) (fst k2)) eqn:E1; try discriminate;
    destruct (String.compare (fst k2) (fst k3)) eqn:E2; try discriminate;
    intros H1 H2.
  - apply compare_eq in E1, E2. rewrite E1, E2, compare_refl.
    eapply str_leb_trans; eauto.
  - apply compare_eq in E1. rewrite E1, E2. reflexivity.
  - apply compare_eq in E2. rewrite <- E2, E1. reflexivity.
  - rewrite (compare_lt_trans _ _ _ E1 E2). reflexivity.
Qed.

Lemma pair_leb_antisym k1 k2 :
  pair_leb k1 k2 = true -> pair_leb k2 k1 = true -> k1 = k2.
Proof.
  unfold pair_leb. destruct k1 as [a1 b1], k2 as [a2 b2]; simpl.
  destruct (String.compare a1 a2) eqn:E; try discriminate.
  - apply compare_eq in E. subst. rewrite compare_refl. intros H1 H2.
    f_equal. apply String.leb_antisym; auto.
  - rewrite (compare_lt_gt _ _ E). discriminate.
Qed.

Lemma pair_ltb_iff k1 k2 :
  pair_ltb k1 k2 = true <-> pair_leb k1 k2 = true /\ k1 <> k2.
Proof.
  unfold pair_ltb, pair_leb. destruct k1 as [a1 b1], k2 as [a2 b2]; simpl.
  destruct (String.compare a1 a2) eqn:E.
  - apply compare_eq in E. subst. rewrite str_ltb_iff, str_leb_iff. split.
    + intros H. split; auto. intros Heq. inversion Heq; subst.
      rewrite compare_refl in H. discriminate.
    + intros [[H|H] N]; auto. subst. congruence.
  - split; auto. intros _. split; auto. intros Heq. inversion Heq; subst.
    rewrite compare_refl in E. discriminate.
  - split; [discriminate | intros []; discriminate].
Qed.

Lemma pair_ltb_trans k1 k2 k3 :
  pair_ltb k1 k2 = true -> pair_ltb k2 k3 = true -> pair_ltb k1 k3 = true.
Proof.
  rewrite !pair_ltb_iff. intros [H1 N1] [H2 N2]. split.
  - eapply pair_leb_trans; eauto.
  - intros ->. apply N2. apply pair_leb_antisym; auto.
Qed.

Lemma pair_ltb_irrefl k : pair_ltb k k = false.
Proof.
  destruct (pair_ltb k k) eqn:E; auto. apply pair_ltb_iff in E.
  destruct E; congruence.
Qed.

Lemma pair_ltb_leb k1 k2 : pair_ltb k1 k2 = true -> pair_leb k1 k2 = true.
Proof. intros H. apply pair_ltb_iff in H. tauto. Qed.

End StringOrder.

(* ================================================================== *)
(** * Facts on [unique], [sorted] and sorted lists *)

Section UniqueFacts.
Context {A : Type}.
Variable eqb : A -> A -> bool.
Hypothesis eqb_eq : forall a b, eqb a b = true <-> a = b.

Lemma existsb_eqb_In x l : existsb (eqb x) l = true <-> In x l.
Proof.
  rewrite existsb_exists. split.
  - intros [y [Hy E]]. apply eqb_eq in E. subst. exact Hy.
  - intros H. exists x. split; auto. apply eqb_eq. reflexivity.
Qed.

Lemma unique_aux_In seen l x :
  In x (unique_aux eqb seen l) <-> In x l /\ ~ In x seen.
Proof.
  revert seen. induction l as [|y l IH]; intros seen; simpl.
  - tauto.
  - destruct (existsb (eqb y) seen) eqn:E.
    + apply existsb_eqb_In in E. rewrite IH. split.
      * tauto.
      * intros [[->|H] N]; tauto.
    + assert (~ In y seen) as Ny.
      { intros H. apply existsb_eqb_In in H. congruence. }
      simpl. rewrite IH. simpl. split.
      * intros [->|[H N]]; [tauto|]. split; [tauto|]. intros H'. apply N. auto.
      * intros [[->|H] N]; auto.
        destruct (eqb y x) eqn:E'.
        -- apply eqb_eq in E'. auto.
        -- right. split; auto. intros [->|H']; auto.
           rewrite (proj2 (eqb_eq x x) eq_refl) in E'. discriminate.
Qed.

Lemma unique_aux_NoDup seen l : NoDup (unique_aux eqb seen l).
Proof.
  revert seen. induction l as [|y l IH]; intros seen; simpl.
  - constructor.
  - destruct (existsb (eqb y) seen); auto.
    constructor; auto. rewrite unique_aux_In. simpl. tauto.
Qed.

Lemma unique_In l x : In x (unique eqb l) <-> In x l.
Proof. unfold unique. rewrite unique_aux_In. simpl. tauto. Qed.

Lemma unique_NoDup l : NoDup (unique eqb l).
Proof. apply unique_aux_NoDup. Qed.

Lemma unique_nil_inv l : unique eqb l = [] -> l = [].
Proof.
  destruct l as [|x l]; auto. intros H.
  assert (In x (unique eqb (x :: l))) as I by (apply unique_In; left; auto).
  rewrite H in I. destruct I.
Qed.

End UniqueFacts.

Section SortedFacts.
Context {A : Type}.
Variable leb : A -> A -> bool.

Lemma insert_perm x l : Permutation (insert leb x l) (x :: l).
Proof.
  induction l as [|y l IH]; simpl; auto.
  destruct (leb x y); auto.
  rewrite IH. apply perm_swap.
Qed.

Lemma sorted_perm l : Permutation (sorted leb l) l.
Proof.
  induction l as [|x l IH]; simpl; auto.
  rewrite insert_perm. auto.
Qed.

Lemma sorted_In l x : In x (sorted leb l) <-> In x l.
Proof.
  split; apply Permutation_in; [|symmetry]; apply sorted_perm.
Qed.

Lemma sorted_nil_inv l : sorted leb l = [] -> l = [].
Proof.
  intros H. apply Permutation_nil. rewrite <- H. apply sorted_perm.
Qed.

(** The elements the sort is applied to, on which [leb] is a total
    preorder. *)
Variable D : A -> Prop.
Hypothesis leb_total : forall a b, D a -> D b -> leb a b = true \/ leb b a = true.
Hypothesis leb_trans :
  forall a b c, leb a b = true -> leb b c = true -> leb a c = true.

(** [T] orders the input; the sort keeps it among the elements that [leb]
    does not separate. *)
Variable T : A -> A -> Prop.

Definition sorted_by (a b : A) : Prop :=
  leb a b = true /\ (leb b a = true -> T a b).

Lemma insert_sorted_by x l :
  D x -> Forall D l -> Forall (T x) l ->
  StronglySorted sorted_by l -> StronglySorted sorted_by (insert leb x l).
Proof.
  intros Dx Dl Tx S. induction S as [|y l S IH F]; simpl.
  - repeat constructor.
  - inversion Dl as [|? ? Dy Dl']; subst. inversion Tx as [|? ? Txy Tx']; subst.
    destruct (leb x y) eqn:E.
    + constructor; [constructor; auto|].
      constructor; [split; auto|].
      rewrite Forall_forall in *. intros z Hz.
      destruct (F z Hz) as [Lyz _]. split.
      * eapply leb_trans; eauto.
      * intros _. apply Tx'. exact Hz.
    + constructor; [apply IH; auto|].
      rewrite Forall_forall in *. intros z Hz.
      apply (Permutation_in _ (insert_perm x l)) in Hz.
      destruct Hz as [<-|Hz]; [|apply F; exact Hz].
      split.
      * destruct (leb_total x y Dx Dy); congruence.
      * congruence.
Qed.

Lemma sorted_sorted_by l :
  Forall D l -> StronglySorted T l -> StronglySorted sorted_by (sorted leb l).
Proof.
  intros Dl S. induction S as [|x l S IH F]; simpl.
  - constructor.
  - inversion Dl as [|? ? Dx Dl']; subst.
    assert (Forall D (sorted leb l)) as F1.
    { rewrite Forall_forall in *. intros z Hz. apply (proj1 (sorted_In _ _)) in Hz. auto. }
    assert (Forall (T x) (sorted leb l)) as F2.
    { rewrite Forall_forall in *. intros z Hz. apply (proj1 (sorted_In _ _)) in Hz. auto. }
    apply insert_sorted_by; auto.
Qed.

End SortedFacts.

Section StronglySortedFacts.
Context {A : Type}.

Lemma StronglySorted_app (R : A -> A -> Prop) l1 l2 :
  StronglySorted R l1 -> StronglySorted R l2 ->
  (forall a b, In a l1 -> In b l2 -> R a b) ->
  StronglySorted R (l1 ++ l2).
Proof.
  intros S1 S2 H. induction S1 as [|x l1 S1 IH F]; simpl; auto.
  constructor.
  - apply IH. intros a b Ha Hb. apply H; simpl; auto.
  - rewrite Forall_forall in *. intros z Hz. apply in_app_or in Hz.
    destruct Hz; [apply F; auto | apply H; simpl; auto].
Qed.

Lemma StronglySorted_rev (R : A -> A -> Prop) l :
  StronglySorted R l -> StronglySorted (fun a b => R b a) (rev l).
Proof.
  intros S. induction S as [|x l S IH F]; simpl.
  - constructor.
  - apply StronglySorted_app; auto.
    + repeat constructor.
    + intros a b Ha [<-|[]]. apply in_rev in Ha.
      rewrite Forall_forall in F. apply F. exact Ha.
Qed.

Lemma StronglySorted_filter (R : A -> A -> Prop) p l :
  StronglySorted R l -> StronglySorted R (filter p l).
Proof.
  intros S. induction S as [|x l S IH F]; simpl.
  - constructor.
  - destruct (p x); auto. constructor; auto.
    rewrite Forall_forall in *. intros z Hz. apply filter_In in Hz.
    apply F. tauto.
Qed.

Lemma StronglySorted_map {B} (f : A -> B) (R : B -> B -> Prop) l :
  StronglySorted (fun a b => R (f a) (f b)) l <-> StronglySorted R (map f l).
Proof.
  induction l as [|x l IH]; simpl.
  - split; constructor.
  - split; intros S; inversion S; subst; constructor; try (apply IH; auto).
    + rewrite Forall_forall in *. intros z Hz. apply in_map_iff in Hz.
      destruct Hz as [y [<- Hy]]. auto.
    + rewrite Forall_forall in *. intros z Hz. match goal with
      | H : forall _, In _ (map f l) -> _ |- _ => apply H end.
      apply in_map. exact Hz.
Qed.

Lemma StronglySorted_impl (R S : A -> A -> Prop) l :
  (forall a b, In a l -> In b l -> R a b -> S a b) ->
  StronglySorted R l -> StronglySorted S l.
Proof.
  intros H St. induction St as [|x l St IH F]; constructor.
  - apply IH. intros a b Ha Hb. apply H; simpl; auto.
  - rewrite Forall_forall in *. intros z Hz. apply H; simpl; auto.
Qed.

Lemma StronglySorted_NoDup (R : A -> A -> Prop) l :
  (forall a, ~ R a a) -> StronglySorted R l -> NoDup l.
Proof.
  intros Irr S. induction S as [|x l S IH F]; constructor; auto.
  intros Hx. rewrite Forall_forall in F. apply (Irr x). apply F. exact Hx.
Qed.

Lemma filter_partition_perm (p : A -> bool) l :
  Permutation (filter p l ++ filter (fun a => negb (p a)) l) l.
Proof.
  induction l as [|x l IH]; simpl; auto.
  destruct (p x); simpl.
  - constructor. exact IH.
  - rewrite <- Permutation_middle. constructor. exact IH.
Qed.

End StronglySortedFacts.

(* ================================================================== *)
(** * Facts on [groupby] and [sort_values] *)

Local Open Scope list_scope.

Section GroupFacts.

Lemma named_keys_In df k :
  In k (named_keys df) <-> exists r, In r df /\ row_identity r = Some k.
Proof.
  unfold named_keys. rewrite in_flat_map. split.
  - intros [r [Hr Hk]]. exists r. split; auto.
    destruct (row_identity r); simpl in Hk; [|tauto].
    destruct Hk as [->|[]]. reflexivity.
  - intros [r [Hr Hk]]. exists r. split; auto. rewrite Hk. left. reflexivity.
Qed.

Lemma group_keys_In df k :
  In k (group_keys df) <-> exists r, In r df /\ row_identity r = Some k.
Proof.
  unfold group_keys. rewrite sorted_In.
  rewrite (unique_In identity_eqb StringOrder.identity_eqb_eq).
  apply named_keys_In.
Qed.

Lemma group_keys_NoDup df : NoDup (group_keys df).
Proof.
  unfold group_keys.
  eapply Permutation_NoDup; [symmetry; apply sorted_perm|].
  apply (unique_NoDup identity_eqb StringOrder.identity_eqb_eq).
Qed.

(** The keys come out in strictly ascending order. *)
Lemma group_keys_sorted df :
  StronglySorted (fun a b => pair_ltb a b = true) (group_keys df).
Proof.
  pose proof (group_keys_NoDup df) as ND. unfold group_keys in *.
  set (l := unique identity_eqb _) in *. clearbody l.
  assert (StronglySorted (sorted_by pair_leb (fun _ _ => True)) (sorted pair_leb l)) as S.
  { apply (sorted_sorted_by pair_leb (fun _ => True)).
    - intros a b _ _. apply StringOrder.pair_leb_total.
    - apply StringOrder.pair_leb_trans.
    - rewrite Forall_forall. auto.
    - clear. induction l; constructor; auto. rewrite Forall_forall. auto. }
  revert ND S. generalize (sorted pair_leb l). clear l.
  intros l ND S. induction S as [|x l S IH F]; constructor.
  - apply IH. inversion ND; auto.
  - inversion ND as [|? ? Nx ND']; subst.
    rewrite Forall_forall in *. intros z Hz.
    apply StringOrder.pair_ltb_iff. split.
    + apply (F z Hz).
    + intros ->. auto.
Qed.

Lemma groupby_agg_identities df :
  map m_identity (groupby_agg df) = group_keys df.
Proof.
  unfold groupby_agg. rewrite map_map. unfold m_identity, aggregate_group; simpl.
  induction (group_keys df) as [|[t a] l IH]; simpl; auto. f_equal. exact IH.
Qed.

Lemma groupby_agg_nil df :
  groupby_agg df = [] <-> forall r, In r df -> row_identity r = None.
Proof.
  split.
  - intros H r Hr. destruct (row_identity r) as [k|] eqn:E; auto.
    assert (In k (group_keys df)) as I by (apply group_keys_In; eauto).
    rewrite <- groupby_agg_identities, H in I. destruct I.
  - intros H. destruct (groupby_agg df) as [|g l] eqn:E; auto.
    assert (In (m_identity g) (group_keys df)) as I.
    { rewrite <- groupby_agg_identities, E. left. reflexivity. }
    apply group_keys_In in I. destruct I as [r [Hr Hk]].
    rewrite (H r Hr) in Hk. discriminate.
Qed.

End GroupFacts.

Section SortValuesFacts.
Context {A : Type}.
Variable by_ : A -> float.

Lemma sort_values_desc_perm rows : Permutation (sort_values_desc by_ rows) rows.
Proof.
  unfold sort_values_desc.
  rewrite <- (filter_partition_perm (fun r => F64.notna (by_ r)) rows) at 3.
  apply Permutation_app.
  - rewrite <- Permutation_rev, sorted_perm, <- Permutation_rev. reflexivity.
  - erewrite filter_ext; [reflexivity|]. intros a. unfold F64.notna, F64.isna.
    rewrite negb_involutive. reflexivity.
Qed.

Lemma sort_values_desc_In rows r : In r (sort_values_desc by_ rows) <-> In r rows.
Proof.
  split; apply Permutation_in; [|symmetry]; apply sort_values_desc_perm.
Qed.

Lemma sort_values_desc_nil rows : sort_values_desc by_ rows = [] <-> rows = [].
Proof.
  split; intros H.
  - apply Permutation_nil. rewrite <- H. apply sort_values_desc_perm.
  - subst. reflexivity.
Qed.

(** The rows whose key is NaN come last, in their order. *)
Lemma sort_values_desc_nan_last rows :
  exists valid,
    sort_values_desc by_ rows = valid ++ filter (fun r => F64.isna (by_ r)) rows
    /\ Forall (fun r => F64.notna (by_ r) = true) valid.
Proof.
  unfold sort_values_desc. eexists. split; [reflexivity|].
  rewrite Forall_forall. intros r Hr.
  apply in_rev in Hr. apply (proj1 (sorted_In _ _ _)) in Hr.
  apply in_rev in Hr. apply filter_In in Hr. tauto.
Qed.

Variable streams : A -> Z.
Variable ident : A -> TrackIdentity.

Let key (a : A) : Ranking.Key := (by_ a, streams a, ident a).

Lemma sort_values_desc_ranked rows :
  StronglySorted (fun a b => pair_ltb (ident a) (ident b) = true) rows ->
  StronglySorted (fun a b => Ranking.ranks_before (key a) (key b) = true)
                 (sort_values_desc by_ rows).
Proof.
  intros S. unfold sort_values_desc.
  set (idlt := fun a b => pair_ltb (ident a) (ident b) = true) in *.
  set (nn := filter (fun r => F64.notna (by_ r)) rows).
  set (leb := fun a b => PrimFloat.leb (by_ a) (by_ b)).
  assert (StronglySorted (sorted_by leb (fun a b => idlt b a)) (sorted leb (rev nn))) as S1.
  { apply (sorted_sorted_by leb (fun a => F64.notna (by_ a) = true)).
    - intros a b Ha Hb. apply FloatOrder.leb_total; auto.
    - intros a b c. apply FloatOrder.leb_trans.
    - rewrite Forall_forall. intros a Ha. apply in_rev in Ha.
      apply filter_In in Ha. tauto.
    - apply StronglySorted_rev. apply StronglySorted_filter. exact S. }
  apply StronglySorted_rev in S1.
  apply StronglySorted_app.
  - eapply StronglySorted_impl; [|exact S1]. simpl.
    intros a b _ _ [L T]. unfold Ranking.ranks_before, key; simpl.
    unfold Ranking.key_score, Ranking.key_identity; simpl.
    unfold leb in *. apply FloatOrder.leb_iff in L.
    destruct L as [L|L]; [rewrite L; reflexivity|].
    assert (PrimFloat.eqb (by_ a) (by_ b) = true) as E
        by (rewrite FloatOrder.eqb_sym; exact L).
    rewrite E. simpl. rewrite T; [apply orb_true_r|].
    apply FloatOrder.leb_iff. auto.
  - eapply StronglySorted_impl; [|apply StronglySorted_filter; exact S].
    simpl. intros a b Ha Hb I. apply filter_In in Ha, Hb.
    unfold Ranking.ranks_before, key, Ranking.key_score, Ranking.key_identity; simpl.
    destruct Ha as [_ ->], Hb as [_ ->]. unfold idlt in I. rewrite I.
    simpl. rewrite !orb_true_r. reflexivity.
  - intros a b Ha Hb. apply in_rev in Ha. apply (proj1 (sorted_In _ _ _)) in Ha.
    apply in_rev in Ha. apply filter_In in Ha, Hb.
    unfold Ranking.ranks_before, key, Ranking.key_score, Ranking.key_identity; simpl.
    destruct Ha as [_ ->], Hb as [_ ->]. simpl. rewrite orb_true_r. reflexivity.
Qed.

End SortValuesFacts.

(* ================================================================== *)
(** * Facts on binary64 arithmetic *)

Module FloatArith.

Local Open Scope Z_scope.

Lemma SFmul_comm prec emax f g : SFmul prec emax f g = SFmul prec emax g f.
Proof.
  destruct f as [s|s| |s m e], g as [s'|s'| |s' m' e']; simpl;
    try reflexivity; try (rewrite xorb_comm; reflexivity).
  rewrite xorb_comm, Pos.mul_comm, Z.add_comm. reflexivity.
Qed.

Lemma mul_comm x y : PrimFloat.mul x y = PrimFloat.mul y x.
Proof.
  apply Prim2SF_inj. rewrite !mul_spec. apply SFmul_comm.
Qed.

(** On a column without NaN, [Series.mean()] is the arithmetic mean. *)
Lemma fillna_notna v col :
  Forall (fun x => F64.notna x = true) col -> F64.fillna v col = col.
Proof.
  intros H. induction H as [|x col Hx H IH]; simpl; auto.
  fold (F64.fillna v col). rewrite IH. f_equal.
  unfold F64.notna, F64.isna in *. apply negb_true_iff in Hx. rewrite Hx.
  reflexivity.
Qed.

Lemma filter_notna col :
  Forall (fun x => F64.notna x = true) col -> filter F64.notna col = col.
Proof.
  intros H. induction H as [|x col Hx H IH]; simpl; auto.
  rewrite Hx, IH. reflexivity.
Qed.

Lemma Series_mean_notna col :
  Forall (fun x => F64.notna x = true) col -> F64.Series_mean col = F64.mean col.
Proof.
  intros H. unfold F64.Series_mean, F64.mean.
  rewrite (filter_notna _ H), (fillna_notna _ _ H).
  destruct col; reflexivity.
Qed.

(** The compensation at work: the mean of the group (0.1, 0.2, 0.3) is the
    binary64 value below 0.2, where the sum from left to right gives the
    one above it. *)
Lemma group_mean_compensated :
  F64.group_mean [0.1; 0.2; 0.3]%float = 0.19999999999999998%float
  /\ (F64.fsum [0.1; 0.2; 0.3] / 3)%float = 0.20000000000000004%float.
Proof. split; vm_compute; reflexivity. Qed.

(** The pairwise sum at work: ten times 0.1 add up to 1 in 8 partial sums,
    and to the binary64 value below 1 from left to right. *)
Lemma np_sum_pairwise :
  F64.np_sum (repeat 0.1%float 10) = 1%float
  /\ F64.fsum (repeat 0.1%float 10) = 0.99999999999999989%float.
Proof. split; vm_compute; reflexivity. Qed.

End FloatArith.

(* ================================================================== *)
(** * Scoring: the composite scores *)

Lemma mean_scored_rows_spec tracks :
  map (fun r => (MeanRelative.s_identity r, MeanRelative.total_score r))
      (MeanRelative.scored_rows tracks)
  = map (fun t => (m_identity t, mean_relative_composite 0.5 0.3 0.2 tracks t))
        tracks.
Proof.
  unfold MeanRelative.scored_rows. rewrite map_map. reflexivity.
Qed.

Lemma mean_scored_rows_identities tracks :
  map MeanRelative.s_identity (MeanRelative.scored_rows tracks) = map m_identity tracks.
Proof.
  unfold MeanRelative.scored_rows. rewrite map_map. reflexivity.
Qed.

Lemma max_scored_rows_identities tracks :
  map MaxRelative.s_identity (MaxRelative.scored_rows tracks) = map m_identity tracks.
Proof.
  unfold MaxRelative.scored_rows. rewrite map_map. reflexivity.
Qed.

(** C1. Under MEAN_RELATIVE with the weights 0.5 / 0.3 / 0.2 of the script,
    scoring assigns to every track of the aggregated frame, once, the
    composite [0.5 * (save_rate / mean(save_rate))
    - 0.3 * ((skip_rate / 100) / mean(skip_rate / 100))
    + 0.2 * (total_streams / sum(total_streams))], the skip term being
    subtracted. The mean is pandas' [Series.mean()], which is the arithmetic
    mean on a column without NaN ([FloatArith.Series_mean_notna]). *)
Theorem C1_mean_relative_formula (tracks : list TrackMetrics) :
  Permutation
    (map (fun r => (MeanRelative.s_identity r, MeanRelative.total_score r))
         (MeanRelative.score tracks))
    (map (fun t => (m_identity t, mean_relative_composite 0.5 0.3 0.2 tracks t))
         tracks).
Proof.
  rewrite <- mean_scored_rows_spec. apply Permutation_map.
  apply sort_values_desc_perm.
Qed.

(** C2. Under MAX_RELATIVE every track of the aggregated frame gets, once,
    the sub-scores [total_streams / max(total_streams)],
    [total_saves / max(total_saves)] and [1 - skip_rate / max(skip_rate)],
    and the composite [0.5 * stream_score + 0.3 * save_score
    + 0.2 * skip_score]: the volume carries the weight 0.5 and the
    engagement the weight 0.3. *)
Theorem C2_max_relative_formula (tracks : list TrackMetrics) :
  Permutation
    (map (fun r => (MaxRelative.s_identity r,
                    (MaxRelative.stream_score r, MaxRelative.save_score r,
                     MaxRelative.skip_score r),
                    MaxRelative.total_score r))
         (MaxRelative.score tracks))
    (map (fun t =>
            let stream_score := max_relative_stream_score tracks t in
            let save_score := max_relative_save_score tracks t in
            let skip_score := max_relative_skip_score tracks t in
            (m_identity t, (stream_score, save_score, skip_score),
             (0.5 * stream_score + 0.3 * save_score + 0.2 * skip_score)%float))
         tracks).
Proof.
  transitivity
    (map (fun r => (MaxRelative.s_identity r,
                    (MaxRelative.stream_score r, MaxRelative.save_score r,
                     MaxRelative.skip_score r),
                    MaxRelative.total_score r))
         (MaxRelative.scored_rows tracks)).
  - apply Permutation_map. apply sort_values_desc_perm.
  - unfold MaxRelative.scored_rows. rewrite map_map. simpl.
    match goal with |- Permutation ?a ?b => replace a with b; [reflexivity|] end.
    apply map_ext. intros t.
    unfold max_relative_stream_score, max_relative_save_score,
      max_relative_skip_score, m_identity.
    rewrite !(FloatArith.mul_comm 0.5), !(FloatArith.mul_comm 0.3),
      !(FloatArith.mul_comm 0.2).
    reflexivity.
Qed.

(** C7. On T1(streams=1000, saves=100, skip=5), T2(500, 20, 10) and
    T3(2000, 150, 2) the scoring of casechallenge_final.py returns the
    order T3, T1, T2, with composites within 1e-3 of 0.532, 0.490 and
    -0.222. *)
Theorem C7_three_track_scenario :
  exists best s3 s1 s2,
    MeanRelative.recommend_track Examples.three_tracks = Ok (best, [s3; s1; s2])
    /\ best = s3
    /\ map MeanRelative.s_track_name [s3; s1; s2] = ["T3"; "T1"; "T2"]%string
    /\ map (fun r => (MeanRelative.s_total_streams r, MeanRelative.s_total_saves r))
           [s1; s2; s3] = [(1000, 100); (500, 20); (2000, 150)]%Z
    /\ PrimFloat.leb (abs (MeanRelative.total_score s1 - 0.490)) 1e-3 = true
    /\ PrimFloat.leb (abs (MeanRelative.total_score s2 - (-0.222))) 1e-3 = true
    /\ PrimFloat.leb (abs (MeanRelative.total_score s3 - 0.532)) 1e-3 = true.
Proof.
  do 4 eexists. split; [vm_compute; reflexivity|].
  repeat split; vm_compute; reflexivity.
Qed.

(* ================================================================== *)
(** * Scoring: the ranking *)

Lemma StronglySorted_adjacent_ok {A} (before : A -> A -> bool) l :
  StronglySorted (fun a b => before a b = true) l ->
  Ranking.adjacent_ok before l = true.
Proof.
  intros S. induction S as [|x l S IH F]; auto.
  destruct l as [|y l]; auto.
  change (before x y && Ranking.adjacent_ok before (y :: l) = true).
  rewrite IH. inversion F; subst. rewrite H1. reflexivity.
Qed.

Lemma mean_score_identities tracks :
  Permutation (map MeanRelative.s_identity (MeanRelative.score tracks))
              (map m_identity tracks).
Proof.
  rewrite <- mean_scored_rows_identities. apply Permutation_map.
  apply sort_values_desc_perm.
Qed.

Lemma max_score_identities tracks :
  Permutation (map MaxRelative.s_identity (MaxRelative.score tracks))
              (map m_identity tracks).
Proof.
  rewrite <- max_scored_rows_identities. apply Permutation_map.
  apply sort_values_desc_perm.
Qed.

Lemma mean_score_ranked df :
  StronglySorted (fun a b => Ranking.ranks_before a b = true)
                 (map mean_rank_key (MeanRelative.score (groupby_agg df))).
Proof.
  apply StronglySorted_map. unfold MeanRelative.score.
  apply (sort_values_desc_ranked MeanRelative.total_score
           MeanRelative.s_total_streams MeanRelative.s_identity).
  apply (StronglySorted_map MeanRelative.s_identity (fun a b => pair_ltb a b = true)).
  rewrite mean_scored_rows_identities, groupby_agg_identities.
  apply group_keys_sorted.
Qed.

Lemma max_score_ranked df :
  StronglySorted (fun a b => Ranking.ranks_before a b = true)
                 (map max_rank_key (MaxRelative.score (groupby_agg df))).
Proof.
  apply StronglySorted_map. unfold MaxRelative.score.
  apply (sort_values_desc_ranked MaxRelative.total_score
           MaxRelative.s_total_streams MaxRelative.s_identity).
  apply (StronglySorted_map MaxRelative.s_identity (fun a b => pair_ltb a b = true)).
  rewrite max_scored_rows_identities, groupby_agg_identities.
  apply group_keys_sorted.
Qed.

Lemma groupby_agg_nonempty df :
  (exists r k, In r df /\ row_identity r = Some k) -> groupby_agg df <> [].
Proof.
  intros [r [k [Hr Hk]]] E. rewrite groupby_agg_nil in E.
  rewrite (E r Hr) in Hk. discriminate.
Qed.

Lemma mean_recommend_track_ok df :
  (exists r k, In r df /\ row_identity r = Some k) ->
  exists best rest,
    MeanRelative.score (groupby_agg df) = best :: rest
    /\ MeanRelative.recommend_track df = Ok (best, best :: rest).
Proof.
  intros H. apply groupby_agg_nonempty in H. unfold MeanRelative.recommend_track.
  destruct (MeanRelative.score (groupby_agg df)) as [|best rest] eqn:E.
  - exfalso. apply H. unfold MeanRelative.score in E.
    apply sort_values_desc_nil in E. unfold MeanRelative.scored_rows in E.
    apply map_eq_nil in E. exact E.
  - eauto.
Qed.

Lemma max_recommend_track_ok df :
  (exists r k, In r df /\ row_identity r = Some k) ->
  exists best rest,
    MaxRelative.score (groupby_agg df) = best :: rest
    /\ MaxRelative.recommend_track df = Ok (best, best :: rest).
Proof.
  intros H. apply groupby_agg_nonempty in H. unfold MaxRelative.recommend_track.
  destruct (MaxRelative.score (groupby_agg df)) as [|best rest] eqn:E.
  - exfalso. apply H. unfold MaxRelative.score in E.
    apply sort_values_desc_nil in E. unfold MaxRelative.scored_rows in E.
    apply map_eq_nil in E. exact E.
  - eauto.
Qed.

Lemma ranks_before_score_before a b :
  Ranking.ranks_before a b = true -> Ranking.score_before a b = true.
Proof.
  unfold Ranking.ranks_before, Ranking.score_before. intros H.
  apply orb_true_iff in H. destruct H as [H|H].
  - apply orb_true_iff in H. destruct H as [H|H].
    + apply orb_true_iff. left. apply FloatOrder.leb_iff. auto.
    + apply andb_true_iff in H. destruct H as [_ H]. rewrite H.
      apply orb_true_r.
  - apply andb_true_iff in H. destruct H as [H _].
    apply orb_true_iff in H. destruct H as [H|H].
    + apply orb_true_iff. left. apply FloatOrder.leb_iff. right.
      rewrite FloatOrder.eqb_sym. exact H.
    + apply andb_true_iff in H. destruct H as [_ H]. rewrite H.
      apply orb_true_r.
Qed.

Lemma mean_score_sorted df :
  StronglySorted (fun a b => Ranking.score_before a b = true)
                 (map mean_rank_key (MeanRelative.score (groupby_agg df))).
Proof.
  eapply StronglySorted_impl; [|apply mean_score_ranked].
  intros a b _ _. apply ranks_before_score_before.
Qed.

Lemma max_score_sorted df :
  StronglySorted (fun a b => Ranking.score_before a b = true)
                 (map max_rank_key (MaxRelative.score (groupby_agg df))).
Proof.
  eapply StronglySorted_impl; [|apply max_score_ranked].
  intros a b _ _. apply ranks_before_score_before.
Qed.

(** C5, as the code has it. For every frame with at least one row that
    carries both names, [recommend_track] returns every track identity
    exactly once, the best first, sorted descending by composite score: no
    row is followed by a row of larger score, and rows whose score is NaN
    come last. The sort looks at the score alone: among rows of equal score
    neither the number of streams nor the names decide the order. *)
Theorem C5_ranking_order (df : DataFrame)
        (H : exists r k, In r df /\ row_identity r = Some k) :
  exists best ranked,
    MeanRelative.recommend_track df = Ok (best, ranked)
    /\ hd_error ranked = Some best
    /\ Permutation (map MeanRelative.s_identity ranked) (group_keys df)
    /\ NoDup (map MeanRelative.s_identity ranked)
    /\ StronglySorted (fun a b => Ranking.score_before a b = true)
                      (map mean_rank_key ranked)
    /\ Ranking.adjacent_ok Ranking.score_before (map mean_rank_key ranked) = true.
Proof.
  destruct (mean_recommend_track_ok df H) as [best [rest [E R]]].
  exists best, (best :: rest). rewrite <- E.
  assert (Permutation (map MeanRelative.s_identity (MeanRelative.score (groupby_agg df)))
                      (group_keys df)) as P.
  { rewrite mean_score_identities. rewrite groupby_agg_identities. reflexivity. }
  repeat split.
  - rewrite E. exact R.
  - rewrite E. reflexivity.
  - exact P.
  - eapply Permutation_NoDup; [symmetry; exact P|]. apply group_keys_NoDup.
  - apply mean_score_sorted.
  - apply StronglySorted_adjacent_ok. apply mean_score_sorted.
Qed.

Lemma C5_ranking_order_witness :
  exists best ranked,
    MeanRelative.recommend_track Examples.three_tracks = Ok (best, ranked)
    /\ hd_error ranked = Some best
    /\ Permutation (map MeanRelative.s_identity ranked)
                   (group_keys Examples.three_tracks)
    /\ NoDup (map MeanRelative.s_identity ranked)
    /\ StronglySorted (fun a b => Ranking.score_before a b = true)
                      (map mean_rank_key ranked)
    /\ Ranking.adjacent_ok Ranking.score_before (map mean_rank_key ranked) = true.
Proof.
  apply (C5_ranking_order Examples.three_tracks).
  eexists. eexists. split; [left; reflexivity | reflexivity].
Defined.

(** C5 as stated fails. In [tied_tracks] the track A has 1 stream and B has
    3; in [tied_tracks_swapped] A has 3 and B has 1. In both frames the two
    composites are the same binary64 value 0.3, so the sort, which reads the
    scores only, arranges the two rows in the same way in both frames; the
    order of the specification asks for B first in one frame and for A first
    in the other. Wherever the sort places rows of equal score, one of the
    two returned rankings violates the order of the specification. *)
Lemma C5_counterexample :
  exists best1 ranked1 best2 ranked2,
    MeanRelative.recommend_track Examples.tied_tracks = Ok (best1, ranked1)
    /\ MeanRelative.recommend_track Examples.tied_tracks_swapped = Ok (best2, ranked2)
    /\ map MeanRelative.total_score ranked1 = [0.3; 0.3]%float
    /\ map MeanRelative.total_score ranked2 = [0.3; 0.3]%float
    /\ Permutation
         (map (fun r => (MeanRelative.s_track_name r, MeanRelative.s_total_streams r))
              ranked1)
         [("A"%string, 1%Z); ("B"%string, 3%Z)]
    /\ Permutation
         (map (fun r => (MeanRelative.s_track_name r, MeanRelative.s_total_streams r))
              ranked2)
         [("A"%string, 3%Z); ("B"%string, 1%Z)]
    /\ map MeanRelative.s_track_name ranked1 = map MeanRelative.s_track_name ranked2
    /\ Ranking.adjacent_ok Ranking.spec_ranks_before (map mean_rank_key ranked1)
       && Ranking.adjacent_ok Ranking.spec_ranks_before (map mean_rank_key ranked2)
       = false.
Proof.
  do 4 eexists.
  split; [vm_compute; reflexivity|].
  split; [vm_compute; reflexivity|].
  split; [vm_compute; reflexivity|].
  split; [vm_compute; reflexivity|].
  split; [vm_compute; reflexivity|].
  split; [vm_compute; reflexivity|].
  split; vm_compute; reflexivity.
Qed.

(* ================================================================== *)
(** * NaN and infinities through the scoring formula *)

Module FloatSpecials.

Lemma isna_nan_or_inf x : F64.isna x = true -> nan_or_inf x = true.
Proof.
  intros H. apply FloatOrder.isna_spec in H. unfold nan_or_inf. rewrite H.
  reflexivity.
Qed.

Lemma div_by_zero x y s :
  Prim2SF y = S754_zero s -> nan_or_inf (x / y) = true.
Proof.
  intros Hy. unfold nan_or_inf. rewrite div_spec, Hy. unfold SF64div.
  destruct (Prim2SF x); reflexivity.
Qed.

Lemma div_nan_or_inf_l x y : nan_or_inf x = true -> nan_or_inf (x / y) = true.
Proof.
  unfold nan_or_inf. rewrite div_spec. unfold SF64div.
  destruct (Prim2SF x), (Prim2SF y); simpl; intros H; try discriminate; auto.
Qed.

Lemma div_nan_or_inf_both x y :
  nan_or_inf x = true -> nan_or_inf y = true -> F64.isna (x / y) = true.
Proof.
  unfold nan_or_inf. intros Hx Hy. apply FloatOrder.isna_spec.
  rewrite div_spec. unfold SF64div.
  destruct (Prim2SF x), (Prim2SF y); simpl in *; auto; discriminate.
Qed.

Lemma add_nan_or_inf_l x y : nan_or_inf x = true -> nan_or_inf (x + y) = true.
Proof.
  unfold nan_or_inf. rewrite add_spec. unfold SF64add.
  destruct (Prim2SF x) as [[]|[]| |], (Prim2SF y) as [[]|[]| |];
    simpl; auto; discriminate.
Qed.

Lemma add_nan_or_inf_r x y : nan_or_inf y = true -> nan_or_inf (x + y) = true.
Proof.
  unfold nan_or_inf. rewrite add_spec. unfold SF64add.
  destruct (Prim2SF x) as [[]|[]| |], (Prim2SF y) as [[]|[]| |];
    simpl; auto; discriminate.
Qed.

Lemma isna_div_l x y : F64.isna x = true -> F64.isna (x / y) = true.
Proof.
  rewrite !FloatOrder.isna_spec, div_spec. intros ->. reflexivity.
Qed.

Lemma isna_mul_r x y : F64.isna y = true -> F64.isna (x * y) = true.
Proof.
  rewrite !FloatOrder.isna_spec, mul_spec. intros ->. unfold SF64mul.
  destruct (Prim2SF x); reflexivity.
Qed.

Lemma isna_sub_l x y : F64.isna x = true -> F64.isna (x - y) = true.
Proof.
  rewrite !FloatOrder.isna_spec, sub_spec. intros ->. reflexivity.
Qed.

Lemma isna_add_l x y : F64.isna x = true -> F64.isna (x + y) = true.
Proof.
  rewrite !FloatOrder.isna_spec, add_spec. intros ->. reflexivity.
Qed.

Lemma fold_add_nan_or_inf_acc col acc :
  nan_or_inf acc = true -> nan_or_inf (fold_left PrimFloat.add col acc) = true.
Proof.
  revert acc. induction col as [|x col IH]; simpl; intros acc H; auto.
  apply IH. apply add_nan_or_inf_l. exact H.
Qed.

Lemma fold_add_nan_or_inf col acc x :
  In x col -> nan_or_inf x = true ->
  nan_or_inf (fold_left PrimFloat.add col acc) = true.
Proof.
  revert acc. induction col as [|y col IH]; simpl; intros acc Hin H.
  - destruct Hin.
  - destruct Hin as [->|Hin].
    + apply fold_add_nan_or_inf_acc. apply add_nan_or_inf_r. exact H.
    + eapply IH; eauto.
Qed.

Lemma blocks_nan_or_inf n : forall a r,
  List.length a = n ->
  acc8_nan_or_inf r = true \/ (exists x, In x a /\ nan_or_inf x = true) ->
  acc8_nan_or_inf (fst (F64.blocks r a)) = true
  \/ exists x, In x (snd (F64.blocks r a)) /\ nan_or_inf x = true.
Proof.
  induction n as [n IH] using lt_wf_ind. intros a r Hn H.
  destruct a as [|x0 [|x1 [|x2 [|x3 [|x4 [|x5 [|x6 [|x7 rest]]]]]]]];
    try (exact H).
  cbn [F64.blocks].
  apply (IH (List.length rest)); [simpl in Hn; lia | reflexivity |].
  destruct H as [H|[x [Hx Bx]]].
  - left. unfold acc8_nan_or_inf in *. cbn [F64.r0 F64.r1 F64.r2 F64.r3 F64.r4 F64.r5 F64.r6 F64.r7].
    repeat rewrite orb_true_iff in H. repeat rewrite orb_true_iff.
    intuition auto using add_nan_or_inf_l.
  - repeat (destruct Hx as [<-|Hx];
            [left; unfold acc8_nan_or_inf;
             cbn [F64.r0 F64.r1 F64.r2 F64.r3 F64.r4 F64.r5 F64.r6 F64.r7];
             repeat rewrite orb_true_iff;
             intuition auto using add_nan_or_inf_r|]).
    right. exists x. auto.
Qed.

Lemma block_sum_nan_or_inf a x :
  In x a -> nan_or_inf x = true -> nan_or_inf (F64.block_sum a) = true.
Proof.
  intros Hx Bx.
  destruct a as [|x0 [|x1 [|x2 [|x3 [|x4 [|x5 [|x6 [|x7 rest]]]]]]]];
    try (apply fold_add_nan_or_inf with (x := x); assumption).
  unfold F64.block_sum.
  pose proof (blocks_nan_or_inf (List.length rest) rest
                (F64.Acc8 x0 x1 x2 x3 x4 x5 x6 x7) eq_refl) as B.
  destruct (F64.blocks (F64.Acc8 x0 x1 x2 x3 x4 x5 x6 x7) rest) as [r tail].
  cbn [fst snd] in B.
  destruct B as [B|[y [Hy By]]].
  - repeat (destruct Hx as [<-|Hx];
            [left; unfold acc8_nan_or_inf;
             cbn [F64.r0 F64.r1 F64.r2 F64.r3 F64.r4 F64.r5 F64.r6 F64.r7];
             rewrite Bx; rewrite ?orb_true_r; reflexivity|]).
    right. exists x. auto.
  - apply fold_add_nan_or_inf_acc.
    unfold acc8_nan_or_inf in B. repeat rewrite orb_true_iff in B.
    intuition auto using add_nan_or_inf_l, add_nan_or_inf_r.
  - apply fold_add_nan_or_inf with (x := y); assumption.
Qed.

Lemma pairwise_sum_nan_or_inf fuel : forall a x,
  In x a -> nan_or_inf x = true -> nan_or_inf (F64.pairwise_sum fuel a) = true.
Proof.
  induction fuel as [|fuel IH]; intros a x Hx Bx; cbn [F64.pairwise_sum].
  - apply block_sum_nan_or_inf with (x := x); assumption.
  - destruct (List.length a <=? 128)%nat.
    + apply block_sum_nan_or_inf with (x := x); assumption.
    + set (n2 := (List.length a / 2 - (List.length a / 2) mod 8)%nat).
      rewrite <- (firstn_skipn n2 a) in Hx. apply in_app_or in Hx.
      destruct Hx as [Hx|Hx].
      * apply add_nan_or_inf_l. apply IH with (x := x); assumption.
      * apply add_nan_or_inf_r. apply IH with (x := x); assumption.
Qed.

(** With the length of the column as fuel the splitting never runs out:
    more fuel gives the same sum. *)
Lemma pairwise_sum_fuel f1 : forall f2 a,
  (List.length a <= f1)%nat -> (List.length a <= f2)%nat ->
  F64.pairwise_sum f1 a = F64.pairwise_sum f2 a.
Proof.
  induction f1 as [|f1 IH]; intros f2 a H1 H2.
  - destruct f2; cbn [F64.pairwise_sum]; [reflexivity|].
    replace (List.length a <=? 128)%nat with true
      by (symmetry; apply Nat.leb_le; lia).
    reflexivity.
  - destruct f2; cbn [F64.pairwise_sum].
    + replace (List.length a <=? 128)%nat with true
        by (symmetry; apply Nat.leb_le; lia).
      reflexivity.
    + destruct (List.length a <=? 128)%nat eqn:E; [reflexivity|].
      apply Nat.leb_gt in E.
      set (n2 := (List.length a / 2 - (List.length a / 2) mod 8)%nat).
      assert (8 <= n2 < List.length a)%nat as B.
      { unfold n2.
        pose proof (Nat.div_mod_eq (List.length a) 2).
        pose proof (Nat.mod_upper_bound (List.length a) 2 ltac:(lia)).
        pose proof (Nat.mod_upper_bound (List.length a / 2) 8 ltac:(lia)).
        lia. }
      f_equal; apply IH; rewrite ?length_firstn, ?length_skipn; lia.
Qed.

(** The mean of a column that holds an infinity is an infinity or NaN. *)
Lemma Series_mean_nan_or_inf col x :
  In x col -> F64.isna x = false -> nan_or_inf x = true ->
  nan_or_inf (F64.Series_mean col) = true.
Proof.
  intros Hin N H. unfold F64.Series_mean.
  destruct (List.length (filter F64.notna col)) eqn:E; [reflexivity|].
  apply div_nan_or_inf_l. unfold F64.np_sum.
  apply add_nan_or_inf_r.
  apply pairwise_sum_nan_or_inf with (x := x); auto.
  unfold F64.fillna. apply in_map_iff. exists x. rewrite N. auto.
Qed.

(** A track without streams gets a NaN composite. *)
Lemma zero_stream_composite_nan tracks t :
  In t tracks -> m_total_streams t = 0%Z ->
  F64.isna (mean_relative_composite 0.5 0.3 0.2 tracks t) = true.
Proof.
  intros Hin Hz. unfold mean_relative_composite.
  apply isna_add_l, isna_sub_l, isna_mul_r.
  set (save_rate := fun u : TrackMetrics =>
         (F64.of_int64 (m_total_saves u) / F64.of_int64 (m_total_streams u))%float).
  assert (nan_or_inf (save_rate t) = true) as H.
  { unfold save_rate. rewrite Hz. apply div_by_zero with (s := false).
    reflexivity. }
  destruct (F64.isna (save_rate t)) eqn:N.
  - apply isna_div_l. exact N.
  - apply div_nan_or_inf_both; auto.
    apply Series_mean_nan_or_inf with (x := save_rate t); auto.
    apply in_map. exact Hin.
Qed.

End FloatSpecials.

(* ================================================================== *)
(** * Scoring: tracks without streams *)

Lemma mean_scored_rows_In tracks r :
  In r (MeanRelative.scored_rows tracks) ->
  exists t, In t tracks
            /\ MeanRelative.s_total_streams r = m_total_streams t
            /\ MeanRelative.total_score r = mean_relative_composite 0.5 0.3 0.2 tracks t.
Proof.
  unfold MeanRelative.scored_rows. rewrite in_map_iff.
  intros [t [<- Ht]]. exists t. repeat split; auto.
Qed.

Lemma sort_values_desc_blocks {A} (by_ : A -> float) rows :
  exists valid nans,
    sort_values_desc by_ rows = valid ++ nans
    /\ Forall (fun r => F64.notna (by_ r) = true) valid
    /\ Forall (fun r => F64.isna (by_ r) = true) nans.
Proof.
  destruct (sort_values_desc_nan_last by_ rows) as [valid [E F]].
  exists valid, (filter (fun r => F64.isna (by_ r)) rows).
  repeat split; auto. rewrite Forall_forall. intros r Hr.
  apply filter_In in Hr. tauto.
Qed.

(** C3, as the code has it. A track whose aggregated total_streams is 0 is
    not excluded and nothing is reported as skipped: for every frame with a
    named row, [recommend_track] returns one entry for every track identity
    with its aggregated streams. In casechallenge_final.py the composite of
    a track without streams is NaN, and the entries with a NaN composite
    follow the entries with a valid one in the same list; final_case.py
    likewise keeps every track. *)
Theorem C3_zero_stream_tracks_are_kept (df : DataFrame)
        (H : exists r k, In r df /\ row_identity r = Some k) :
  (exists best ranked,
      MeanRelative.recommend_track df = Ok (best, ranked)
      /\ Permutation
           (map (fun r => (MeanRelative.s_identity r, MeanRelative.s_total_streams r))
                ranked)
           (map (fun g => (m_identity g, m_total_streams g)) (groupby_agg df))
      /\ (forall r, In r ranked -> MeanRelative.s_total_streams r = 0%Z ->
                    F64.isna (MeanRelative.total_score r) = true)
      /\ exists valid nans,
          ranked = valid ++ nans
          /\ Forall (fun r => F64.notna (MeanRelative.total_score r) = true) valid
          /\ Forall (fun r => F64.isna (MeanRelative.total_score r) = true) nans)
  /\ (exists best ranked,
         MaxRelative.recommend_track df = Ok (best, ranked)
         /\ Permutation
              (map (fun r => (MaxRelative.s_identity r, MaxRelative.s_total_streams r))
                   ranked)
              (map (fun g => (m_identity g, m_total_streams g)) (groupby_agg df))).
Proof.
  split.
  - destruct (mean_recommend_track_ok df H) as [best [rest [E R]]].
    exists best, (best :: rest). rewrite <- E. repeat split.
    + rewrite E. exact R.
    + transitivity
        (map (fun r => (MeanRelative.s_identity r, MeanRelative.s_total_streams r))
             (MeanRelative.scored_rows (groupby_agg df))).
      * apply Permutation_map. apply sort_values_desc_perm.
      * unfold MeanRelative.scored_rows. rewrite map_map. reflexivity.
    + intros r Hr Hz. apply sort_values_desc_In in Hr.
      apply mean_scored_rows_In in Hr. destruct Hr as [t [Ht [Hs ->]]].
      apply FloatSpecials.zero_stream_composite_nan; congruence.
    + apply sort_values_desc_blocks.
  - destruct (max_recommend_track_ok df H) as [best [rest [E R]]].
    exists best, (best :: rest). rewrite <- E. split.
    + rewrite E. exact R.
    + transitivity
        (map (fun r => (MaxRelative.s_identity r, MaxRelative.s_total_streams r))
             (MaxRelative.scored_rows (groupby_agg df))).
      * apply Permutation_map. apply sort_values_desc_perm.
      * unfold MaxRelative.scored_rows. rewrite map_map. reflexivity.
Qed.

Lemma C3_zero_stream_tracks_are_kept_witness :
  (exists best ranked,
      MeanRelative.recommend_track Examples.zero_stream_tracks = Ok (best, ranked)
      /\ Permutation
           (map (fun r => (MeanRelative.s_identity r, MeanRelative.s_total_streams r))
                ranked)
           (map (fun g => (m_identity g, m_total_streams g))
                (groupby_agg Examples.zero_stream_tracks))
      /\ (forall r, In r ranked -> MeanRelative.s_total_streams r = 0%Z ->
                    F64.isna (MeanRelative.total_score r) = true)
      /\ exists valid nans,
          ranked = valid ++ nans
          /\ Forall (fun r => F64.notna (MeanRelative.total_score r) = true) valid
          /\ Forall (fun r => F64.isna (MeanRelative.total_score r) = true) nans)
  /\ (exists best ranked,
         MaxRelative.recommend_track Examples.zero_stream_tracks = Ok (best, ranked)
         /\ Permutation
              (map (fun r => (MaxRelative.s_identity r, MaxRelative.s_total_streams r))
                   ranked)
              (map (fun g => (m_identity g, m_total_streams g))
                   (groupby_agg Examples.zero_stream_tracks))).
Proof.
  apply (C3_zero_stream_tracks_are_kept Examples.zero_stream_tracks).
  eexists. eexists. split; [left; reflexivity | reflexivity].
Defined.

(** C3 as stated fails: the tracks A and C have no streams and are
    returned, with a NaN composite, after D and B, whose composites are
    valid; nothing else is returned. *)
Lemma C3_counterexample :
  exists best ranked,
    MeanRelative.recommend_track Examples.zero_stream_tracks = Ok (best, ranked)
    /\ map (fun r => (MeanRelative.s_track_name r, MeanRelative.s_total_streams r,
                      F64.isna (MeanRelative.total_score r))) ranked
       = [("D"%string, 10%Z, false); ("B"%string, 3%Z, false);
          ("A"%string, 0%Z, true); ("C"%string, 0%Z, true)].
Proof.
  do 2 eexists. split; vm_compute; reflexivity.
Qed.

(* ================================================================== *)
(** * Audience analysis: a track that is not in the frame *)

Lemma track_rows_nil df track artist :
  (forall r, In r df ->
             name_is track (track_name r) && name_is artist (artist_name r) = false) ->
  track_rows df track artist = [].
Proof.
  intros H. unfold track_rows. induction df as [|r df IH]; simpl; auto.
  rewrite (H r) by (left; reflexivity). apply IH.
  intros r' Hr'. apply H. right. exact Hr'.
Qed.

(** C4, as the code has it. When no record carries the requested track and
    artist names, [audience_analysis] does not return: it raises, but the
    exception is the ValueError of [max()] over the empty cross-tabulation
    (of [idxmax()] over the empty Series in casechallenge_sony.py). *)
Theorem C4_absent_track_raises_ValueError (df : DataFrame) (track artist : string)
        (H : forall r, In r df ->
                       name_is track (track_name r) && name_is artist (artist_name r)
                       = false) :
  Final.audience_analysis df track artist = Raise ValueError
  /\ Sony.audience_analysis df track artist = Raise ValueError.
Proof.
  pose proof (track_rows_nil df track artist H) as E.
  unfold Final.audience_analysis, Sony.audience_analysis. rewrite E.
  split; reflexivity.
Qed.

Lemma C4_absent_track_raises_ValueError_witness :
  Final.audience_analysis Examples.four_cells "Z" "Artist" = Raise ValueError
  /\ Sony.audience_analysis Examples.four_cells "Z" "Artist" = Raise ValueError.
Proof.
  apply (C4_absent_track_raises_ValueError Examples.four_cells "Z" "Artist").
  intros r Hr. simpl in Hr.
  repeat (destruct Hr as [<-|Hr]; [reflexivity|]). destruct Hr.
Defined.

(** C4 as stated fails: for a track that no record of the frame carries, the
    exception is not TrackNotFoundError. *)
Lemma C4_counterexample :
  track_rows Examples.four_cells "Z" "Artist" = []
  /\ Final.audience_analysis Examples.four_cells "Z" "Artist"
     <> Raise TrackNotFoundError
  /\ Sony.audience_analysis Examples.four_cells "Z" "Artist"
     <> Raise TrackNotFoundError.
Proof.
  repeat split; try reflexivity; vm_compute; discriminate.
Qed.

(* ================================================================== *)
(** * Audience analysis: loops and maxima *)

Lemma for_each_ok {A B} (body : A -> PyResult B) (f : A -> B) l :
  (forall a, In a l -> body a = Ok (f a)) -> for_each body l = Ok (map f l).
Proof.
  induction l as [|a l IH]; simpl; intros H; auto.
  rewrite (H a) by auto. simpl. rewrite IH by auto. reflexivity.
Qed.

Lemma for_each_inv {A B} (body : A -> PyResult B) l bs :
  for_each body l = Ok bs -> Forall2 (fun a b => body a = Ok b) l bs.
Proof.
  revert bs. induction l as [|a l IH]; simpl; intros bs H.
  - inversion H. constructor.
  - destruct (body a) as [b|e] eqn:E; simpl in H; [|discriminate].
    destruct (for_each body l) as [bs'|e] eqn:E'; simpl in H; [|discriminate].
    inversion H; subst. constructor; auto.
Qed.

Lemma dist_line_printable text pct :
  printable pct = true ->
  dist_line text pct
  = Ok {| line_text := text; line_pct := pct; line_bars := bars_of pct |}.
Proof.
  unfold printable, dist_line, bars_of.
  destruct (F64.py_int (pct / 3)); simpl; [reflexivity|discriminate].
Qed.

Lemma dist_line_inv text pct b :
  dist_line text pct = Ok b ->
  line_text b = text /\ line_pct b = pct /\ printable pct = true.
Proof.
  unfold dist_line, printable.
  destruct (F64.py_int (pct / 3)); simpl; intros H; inversion H; subst; auto.
Qed.

Section MaxFrom.
Context {K : Type}.

(** [max_from] keeps the first of the entries that no entry exceeds. *)
Lemma max_from_first_max (items pre post : list (K * float)) (cur : K * float) :
  Forall (no_greater cur) (pre ++ cur :: post) ->
  Forall (not_equal cur) pre ->
  exists l1 l2,
    pre ++ cur :: post ++ items = l1 ++ max_from cur items :: l2
    /\ Forall (no_greater (max_from cur items)) (pre ++ cur :: post ++ items)
    /\ Forall (not_equal (max_from cur items)) l1.
Proof.
  revert pre post cur. induction items as [|x items IH]; intros pre post cur G N.
  - simpl. exists pre, post. rewrite app_nil_r. auto.
  - simpl. destruct (PrimFloat.ltb (snd cur) (snd x)) eqn:L.
    + destruct (IH (pre ++ cur :: post) [] x) as [l1 [l2 [E [G' N']]]].
      * rewrite Forall_forall in *. intros p Hp. unfold no_greater in *.
        apply in_app_or in Hp. destruct Hp as [Hp|[<-|[]]].
        -- destruct (PrimFloat.ltb (snd x) (snd p)) eqn:L'; auto.
           rewrite <- (G p Hp). symmetry. eapply FloatOrder.ltb_trans; eauto.
        -- apply FloatOrder.ltb_irrefl.
      * rewrite Forall_forall in *. intros p Hp. unfold not_equal, no_greater in *.
        destruct (PrimFloat.eqb (snd p) (snd x)) eqn:Q; auto.
        rewrite <- (G p Hp). rewrite (FloatOrder.eqb_ltb_r _ _ _ Q). auto.
      * exists l1, l2. simpl in E, G'. rewrite <- !app_assoc in E, G'.
        simpl in E, G'. auto.
    + destruct (IH pre (post ++ [x]) cur) as [l1 [l2 [E [G' N']]]]; auto.
      * rewrite Forall_forall in *. intros p Hp.
        replace (pre ++ cur :: post ++ [x]) with ((pre ++ cur :: post) ++ [x]) in Hp
          by (rewrite <- app_assoc; reflexivity).
        apply in_app_or in Hp. destruct Hp as [Hp|[<-|[]]]; auto.
      * exists l1, l2. rewrite <- !app_assoc in E, G'. simpl in E, G'. auto.
Qed.

Lemma py_max_key_first_max (d : list (K * float)) :
  d <> [] ->
  exists m l1 l2,
    py_max_key d = Ok m
    /\ d = l1 ++ m :: l2
    /\ Forall (no_greater m) d
    /\ Forall (not_equal m) l1.
Proof.
  destruct d as [|x rest]; [congruence|]. intros _.
  destruct (max_from_first_max rest [] [] x) as [l1 [l2 [E [G N]]]].
  - repeat constructor. apply FloatOrder.ltb_irrefl.
  - constructor.
  - exists (max_from x rest), l1, l2. simpl in *. auto.
Qed.

End MaxFrom.

Section StrictSort.
Context {A : Type}.
Variable leb : A -> A -> bool.
Hypothesis leb_total : forall a b, leb a b = true \/ leb b a = true.
Hypothesis leb_trans :
  forall a b c, leb a b = true -> leb b c = true -> leb a c = true.

Lemma sorted_strict l :
  NoDup l ->
  StronglySorted (fun a b => leb a b = true /\ a <> b) (sorted leb l).
Proof.
  intros ND.
  assert (NoDup (sorted leb l)) as ND'.
  { eapply Permutation_NoDup; [symmetry; apply sorted_perm|exact ND]. }
  assert (StronglySorted (sorted_by leb (fun _ _ => True)) (sorted leb l)) as S.
  { apply (sorted_sorted_by leb (fun _ => True)); auto.
    - rewrite Forall_forall. auto.
    - clear. induction l; constructor; auto. rewrite Forall_forall. auto. }
  revert ND' S. generalize (sorted leb l). clear l ND.
  intros l ND S. induction S as [|x l S IH F]; constructor.
  - apply IH. inversion ND; auto.
  - inversion ND as [|? ? Nx ND']; subst.
    rewrite Forall_forall in *. intros z Hz. split.
    + apply (F z Hz).
    + intros ->. auto.
Qed.

End StrictSort.


Lemma sorted_strings_strict (l : list string) :
  NoDup l -> StronglySorted (fun a b => String.ltb a b = true) (sorted String.leb l).
Proof.
  intros ND. eapply StronglySorted_impl;
    [|apply (sorted_strict String.leb String.leb_total
               StringOrder.str_leb_trans l ND)].
  simpl. intros a b _ _ [H N]. apply StringOrder.str_ltb_iff.
  apply StringOrder.str_leb_iff in H. destruct H; congruence.
Qed.

(* ================================================================== *)
(** * Audience analysis: what is returned *)

Lemma string_eqb_eq a b : String.eqb a b = true <-> a = b.
Proof. apply String.eqb_eq. Qed.

Lemma age_groups_In track_df age :
  In age (Final.age_groups track_df) <-> exists r, In r track_df /\ age_group r = age.
Proof.
  unfold Final.age_groups. rewrite sorted_In, (unique_In _ string_eqb_eq).
  rewrite in_map_iff. split; intros [r H]; exists r; tauto.
Qed.

Lemma genders_In track_df g :
  In g (Final.genders track_df) <-> exists r, In r track_df /\ gender r = g.
Proof.
  unfold Final.genders. rewrite (unique_In _ string_eqb_eq).
  rewrite in_map_iff. split; intros [r H]; exists r; tauto.
Qed.

Lemma final_age_gender_pct_keys track_df total :
  map fst (Final.age_gender_pct track_df total)
  = list_prod (Final.age_groups track_df) (Final.genders track_df).
Proof.
  unfold Final.age_gender_pct.
  induction (Final.age_groups track_df) as [|age ages IH]; simpl; auto.
  rewrite map_app, IH, map_map. reflexivity.
Qed.

Lemma final_age_gender_pct_nonempty track_df total :
  track_df <> [] -> Final.age_gender_pct track_df total <> [].
Proof.
  intros H E. destruct track_df as [|r track_df]; [congruence|].
  assert (In (age_group r, gender r)
             (map fst (Final.age_gender_pct (r :: track_df) total))) as I.
  { rewrite final_age_gender_pct_keys. apply in_prod.
    - apply age_groups_In. exists r. simpl. auto.
    - apply genders_In. exists r. simpl. auto. }
  rewrite E in I. destruct I.
Qed.

(** The result of [audience_analysis] of casechallenge_final.py and
    final_case.py on a track whose lines can be printed. *)
Lemma final_audience_analysis_ok df track artist :
  let track_df := track_rows df track artist in
  let total := Int64.sum (map total_streams track_df) in
  track_df <> [] -> lines_printable track_df ->
  exists m l1 l2,
    Final.age_gender_pct track_df total = l1 ++ m :: l2
    /\ Forall (no_greater m) (Final.age_gender_pct track_df total)
    /\ Forall (not_equal m) l1
    /\ Final.audience_analysis df track artist
       = Ok ({| altersverteilung :=
                  map (fun age => line_of age (age_share track_df age))
                      (Final.age_groups track_df);
                geschlechtsverteilung :=
                  map (fun g => line_of (Final.gender_text g) (gender_share track_df g))
                      (Final.genders track_df) |},
             {| track := track;
                artist := artist;
                kernzielgruppe :=
                  (Final.gender_text_primary (snd (fst m)) ++ " " ++ fst (fst m))%string;
                anteil := snd m |}).
Proof.
  intros track_df total Hne Hp.
  destruct (py_max_key_first_max (Final.age_gender_pct track_df total))
    as [m [l1 [l2 [Em [E [G N]]]]]].
  { apply final_age_gender_pct_nonempty. exact Hne. }
  exists m, l1, l2. repeat split; auto.
  unfold Final.audience_analysis. fold track_df. fold total.
  rewrite (for_each_ok _ (fun age => line_of age (age_share track_df age))).
  2:{ intros age Ha. apply age_groups_In in Ha. destruct Ha as [r [Hr <-]].
      apply dist_line_printable. apply (Hp r Hr). }
  simpl.
  rewrite (for_each_ok _ (fun g => line_of (Final.gender_text g) (gender_share track_df g))).
  2:{ intros g Hg. apply genders_In in Hg. destruct Hg as [r [Hr <-]].
      apply dist_line_printable. apply (Hp r Hr). }
  simpl. rewrite Em. simpl. destruct m as [[age g] share]. reflexivity.
Qed.

Lemma leb_negb_ltb x y :
  F64.notna x = true -> F64.notna y = true ->
  PrimFloat.leb y x = negb (PrimFloat.ltb x y).
Proof.
  intros Hx Hy. destruct (PrimFloat.ltb x y) eqn:L; simpl.
  - destruct (PrimFloat.leb y x) eqn:L'; auto.
    apply FloatOrder.leb_iff in L'. destruct L' as [L'|L'].
    + rewrite (FloatOrder.ltb_asym _ _ L) in L'. discriminate.
    + rewrite (FloatOrder.eqb_ltb_r _ _ x L'), FloatOrder.ltb_irrefl in L.
      discriminate.
  - destruct (PrimFloat.leb y x) eqn:L'; auto.
    rewrite (FloatOrder.leb_false _ _ Hy Hx L') in L. discriminate.
Qed.

Lemma fold_maximum_max_from {K} (x : K * float) rest :
  Forall (fun kv => F64.notna (snd kv) = true) (x :: rest) ->
  fold_left F64.maximum (map snd rest) (snd x) = snd (max_from x rest).
Proof.
  revert x. induction rest as [|y rest IH]; intros x H; simpl; auto.
  inversion H as [|? ? Hx H']; subst. inversion H' as [|? ? Hy H'']; subst.
  unfold F64.maximum at 2. rewrite (leb_negb_ltb _ _ Hx Hy).
  destruct (PrimFloat.ltb (snd x) (snd y)); simpl; apply IH; constructor; auto.
Qed.

Lemma Series_max_max_from {K} (x : K * float) rest :
  Forall (fun kv => F64.notna (snd kv) = true) (x :: rest) ->
  F64.Series_max (map snd (x :: rest)) = snd (max_from x rest).
Proof.
  intros H. unfold F64.Series_max.
  assert (Forall (fun v => F64.notna v = true) (map snd (x :: rest))) as H'.
  { rewrite Forall_forall in *. intros v Hv. apply in_map_iff in Hv.
    destruct Hv as [kv [<- Hkv]]. auto. }
  rewrite (FloatArith.filter_notna _ H'), (FloatArith.fillna_notna _ _ H').
  simpl. apply fold_maximum_max_from. exact H.
Qed.

Lemma idxmax_notna {K} (s : list (K * float)) :
  Forall (fun kv => F64.notna (snd kv) = true) s ->
  Sony.idxmax s = (kv <- py_max_key s ;; Ok (fst kv)).
Proof.
  intros H. unfold Sony.idxmax.
  assert (filter (fun kv => F64.notna (snd kv)) s = s) as E1.
  { induction H as [|kv s Hkv H IH]; simpl; auto. rewrite Hkv, IH. reflexivity. }
  assert (map (fun kv : K * float =>
                 (fst kv, if F64.isna (snd kv) then neg_infinity else snd kv)) s = s)
    as E2.
  { clear E1. induction H as [|kv s Hkv H IH]; simpl; auto. rewrite IH. f_equal.
    unfold F64.notna, F64.isna in *. apply negb_true_iff in Hkv. rewrite Hkv.
    destruct kv; reflexivity. }
  rewrite E1, E2. destruct s; reflexivity.
Qed.

Lemma sony_groups_In c df g :
  In g (sorted String.leb (unique String.eqb (map (Sony.column c) df)))
  <-> exists r, In r df /\ Sony.column c r = g.
Proof.
  rewrite sorted_In, (unique_In _ string_eqb_eq), in_map_iff.
  split; intros [r H]; exists r; tauto.
Qed.

Lemma sony_pairs_In track_df k :
  In k (sorted pair_leb
          (unique Sony.pair_eqb (map (fun r => (age_group r, gender r)) track_df)))
  <-> exists r, In r track_df /\ (age_group r, gender r) = k.
Proof.
  rewrite sorted_In, (unique_In _ StringOrder.eqb_pair_eq), in_map_iff.
  split; intros [r H]; exists r; tauto.
Qed.


Lemma sony_age_gender_pct_nonempty track_df total :
  track_df <> [] -> Sony.age_gender_pct track_df total <> [].
Proof.
  intros H E. destruct track_df as [|r track_df]; [congruence|].
  unfold Sony.age_gender_pct in E. apply map_eq_nil in E.
  assert (In (age_group r, gender r)
             (sorted pair_leb
                (unique Sony.pair_eqb
                   (map (fun r => (age_group r, gender r)) (r :: track_df))))) as I.
  { apply sony_pairs_In. exists r. simpl. auto. }
  rewrite E in I. destruct I.
Qed.

(** The result of [audience_analysis] of casechallenge_sony.py on a track
    whose lines can be printed and whose cross-tabulation has no NaN. *)
Lemma sony_audience_analysis_ok df track artist :
  let track_df := track_rows df track artist in
  let total := Int64.sum (map total_streams track_df) in
  track_df <> [] -> lines_printable track_df ->
  Forall (fun kv => F64.notna (snd kv) = true) (Sony.age_gender_pct track_df total) ->
  exists m l1 l2,
    Sony.age_gender_pct track_df total = l1 ++ m :: l2
    /\ Forall (no_greater m) (Sony.age_gender_pct track_df total)
    /\ Forall (not_equal m) l1
    /\ Sony.audience_analysis df track artist
       = Ok ({| altersverteilung :=
                  map (fun age => line_of age (age_share track_df age))
                      (sorted String.leb (unique String.eqb (map age_group track_df)));
                geschlechtsverteilung :=
                  map (fun g => line_of (Sony.get_german_gender_text g)
                                        (gender_share track_df g))
                      (sorted String.leb (unique String.eqb (map gender track_df))) |},
             {| track := track;
                artist := artist;
                kernzielgruppe :=
                  (Sony.get_german_gender_text_primary (snd (fst m)) ++ " "
                   ++ fst (fst m))%string;
                anteil := snd m |}).
Proof.
  intros track_df total Hne Hp Hn.
  destruct (py_max_key_first_max (Sony.age_gender_pct track_df total))
    as [m [l1 [l2 [Em [E [G N]]]]]].
  { apply sony_age_gender_pct_nonempty. exact Hne. }
  exists m, l1, l2. repeat split; auto.
  unfold Sony.audience_analysis. fold track_df. fold total.
  unfold Sony.print_distribution.
  rewrite (for_each_ok _ (fun age => line_of age (age_share track_df age))).
  2:{ intros age Ha. apply (sony_groups_In Sony.col_age_group) in Ha.
      destruct Ha as [r [Hr <-]].
      apply dist_line_printable. apply (Hp r Hr). }
  simpl.
  rewrite (for_each_ok _ (fun g => line_of (Sony.get_german_gender_text g)
                                           (gender_share track_df g))).
  2:{ intros g Hg. apply (sony_groups_In Sony.col_gender) in Hg.
      destruct Hg as [r [Hr <-]].
      apply dist_line_printable. apply (Hp r Hr). }
  simpl. rewrite (idxmax_notna _ Hn), Em. simpl.
  destruct (Sony.age_gender_pct track_df total) as [|x rest] eqn:Es.
  { destruct l1; discriminate. }
  rewrite (Series_max_max_from x rest Hn).
  simpl in Em. inversion Em; subst. destruct (max_from x rest) as [[age g] share].
  reflexivity.
Qed.

(* ================================================================== *)
(** * Audience analysis: the primary segment *)

(** C6 at a tie. The records of the track hold the cells (18-24, MALE) and
    (18-24, FEMALE), in this order, with 500 streams each: both shares round
    to 50.0. The claim asks for the cell of the smaller gender label, FEMALE.
    [audience_analysis] of casechallenge_final.py and final_case.py sorts the
    age labels but takes the gender labels as [unique()] leaves them, and
    returns the MALE cell; [audience_analysis] of casechallenge_sony.py,
    whose cross-tabulation is sorted on both labels, returns the FEMALE
    cell. *)
Lemma C6_gender_tie_divergence :
  let track_df := track_rows Examples.tied_cells "T" "Artist" in
  let total := Int64.sum (map total_streams track_df) in
  total = 1000%Z
  /\ Final.age_groups track_df = ["18-24"%string]
  /\ Final.genders track_df = ["MALE"%string; "FEMALE"%string]
  /\ Final.age_gender_pct track_df total
     = [(("18-24", "MALE")%string, 50%float); (("18-24", "FEMALE")%string, 50%float)]
  /\ Sony.age_gender_pct track_df total
     = [(("18-24", "FEMALE")%string, 50%float); (("18-24", "MALE")%string, 50%float)]
  /\ pair_ltb ("18-24", "FEMALE")%string ("18-24", "MALE")%string = true
  /\ (exists printed res,
        Final.audience_analysis Examples.tied_cells "T" "Artist" = Ok (printed, res)
        /\ kernzielgruppe res = "männliche 18-24"%string
        /\ anteil res = 50%float)
  /\ (exists printed res,
        Sony.audience_analysis Examples.tied_cells "T" "Artist" = Ok (printed, res)
        /\ kernzielgruppe res = "weibliche 18-24"%string
        /\ anteil res = 50%float).
Proof.
  cbv zeta.
  split; [vm_compute; reflexivity|].
  split; [vm_compute; reflexivity|].
  split; [vm_compute; reflexivity|].
  split; [vm_compute; reflexivity|].
  split; [vm_compute; reflexivity|].
  split; [vm_compute; reflexivity|].
  split; do 2 eexists; (split; [vm_compute; reflexivity|]); split; reflexivity.
Qed.

(* ================================================================== *)
(** * Audience analysis: the gender texts *)

Lemma max_from_In {K} (cur : K * float) items :
  In (max_from cur items) (cur :: items).
Proof.
  revert cur. induction items as [|x items IH]; intros cur; simpl; auto.
  destruct (IH (if PrimFloat.ltb (snd cur) (snd x) then x else cur)) as [E|I].
  - destruct (PrimFloat.ltb (snd cur) (snd x)); rewrite <- E; auto.
  - auto.
Qed.

Lemma py_max_key_In {K} (d : list (K * float)) m : py_max_key d = Ok m -> In m d.
Proof.
  destruct d as [|x rest]; simpl; intros H; inversion H. apply max_from_In.
Qed.

Lemma lines_text {A} (text : A -> string) (pct : A -> float) l bs :
  for_each (fun a => dist_line (text a) (pct a)) l = Ok bs ->
  map line_text bs = map text l /\ map line_pct bs = map pct l.
Proof.
  intros H. apply for_each_inv in H.
  induction H as [|a b l bs Hab H IH]; simpl; auto.
  apply dist_line_inv in Hab. destruct Hab as [-> [-> _]].
  destruct IH as [-> ->]. auto.
Qed.

Lemma final_audience_analysis_inv df track artist printed res :
  Final.audience_analysis df track artist = Ok (printed, res) ->
  let track_df := track_rows df track artist in
  map line_text (altersverteilung printed) = Final.age_groups track_df
  /\ map line_pct (altersverteilung printed)
     = map (age_share track_df) (Final.age_groups track_df)
  /\ map line_text (geschlechtsverteilung printed)
     = map Final.gender_text (Final.genders track_df)
  /\ map line_pct (geschlechtsverteilung printed)
     = map (gender_share track_df) (Final.genders track_df)
  /\ exists age g,
      In (age, g) (list_prod (Final.age_groups track_df) (Final.genders track_df))
      /\ kernzielgruppe res = (Final.gender_text_primary g ++ " " ++ age)%string.
Proof.
  intros H. cbv zeta. unfold Final.audience_analysis in H.
  set (track_df := track_rows df track artist) in *.
  destruct (for_each _ (Final.age_groups track_df)) as [al|] eqn:Ea;
    simpl in H; [|discriminate].
  destruct (for_each _ (Final.genders track_df)) as [gl|] eqn:Eg;
    simpl in H; [|discriminate].
  destruct (py_max_key _) as [[[age g] share]|] eqn:Em; simpl in H; [|discriminate].
  inversion H; subst; simpl.
  apply (lines_text (fun age => age)) in Ea.
  apply (lines_text Final.gender_text) in Eg.
  destruct Ea as [Ea1 Ea2], Eg as [Eg1 Eg2]. rewrite map_id in Ea1.
  repeat split; auto.
  exists age, g. split; auto.
  rewrite <- (final_age_gender_pct_keys track_df (Int64.sum (map total_streams track_df))).
  apply py_max_key_In in Em. apply (in_map fst) in Em. exact Em.
Qed.

Lemma sony_audience_analysis_inv df track artist printed res :
  Sony.audience_analysis df track artist = Ok (printed, res) ->
  let track_df := track_rows df track artist in
  map line_text (geschlechtsverteilung printed)
  = map Sony.get_german_gender_text
        (sorted String.leb (unique String.eqb (map gender track_df)))
  /\ map line_pct (geschlechtsverteilung printed)
     = map (gender_share track_df)
           (sorted String.leb (unique String.eqb (map gender track_df)))
  /\ map line_text (altersverteilung printed)
     = sorted String.leb (unique String.eqb (map age_group track_df))
  /\ map line_pct (altersverteilung printed)
     = map (age_share track_df)
           (sorted String.leb (unique String.eqb (map age_group track_df)))
  /\ exists age g,
      (exists r, In r track_df /\ age_group r = age /\ gender r = g)
      /\ kernzielgruppe res
         = (Sony.get_german_gender_text_primary g ++ " " ++ age)%string.
Proof.
  intros H. cbv zeta. unfold Sony.audience_analysis, Sony.print_distribution in H.
  set (track_df := track_rows df track artist) in *.
  destruct (for_each _ (sorted String.leb (unique String.eqb
              (map (Sony.column Sony.col_age_group) track_df)))) as [al|] eqn:Ea;
    simpl in H; [|discriminate].
  destruct (for_each _ (sorted String.leb (unique String.eqb
              (map gender track_df)))) as [gl|] eqn:Eg;
    simpl in H; [|discriminate].
  destruct (Sony.idxmax _) as [[age g]|] eqn:Em; simpl in H; [|discriminate].
  inversion H; subst; simpl.
  apply (lines_text (fun age => age)) in Ea.
  apply (lines_text Sony.get_german_gender_text) in Eg.
  destruct Ea as [Ea1 Ea2], Eg as [Eg1 Eg2]. rewrite map_id in Ea1.
  repeat split; auto.
  exists age, g. split; auto.
  unfold Sony.idxmax in Em.
  destruct (filter _ _); [discriminate|].
  destruct (py_max_key _) as [kv|] eqn:Ek; simpl in Em; [|discriminate].
  inversion Em as [Ekv]. apply py_max_key_In in Ek. apply (in_map fst) in Ek.
  rewrite Ekv in Ek. rewrite map_map in Ek. simpl in Ek.
  unfold Sony.age_gender_pct in Ek. rewrite map_map in Ek. simpl in Ek.
  rewrite map_id in Ek. apply sony_pairs_In in Ek.
  destruct Ek as [r [Hr Er]]. inversion Er; subst. exists r. auto.
Qed.

(** C10. The gender is rendered in two values: the text is "männlich"
    ("männliche" for the primary segment) exactly when the label is the
    string "MALE", and "weiblich" ("weibliche") for every other label; the
    lines of the gender distribution and the description of the returned
    primary segment are built from these texts, in all three scripts. *)
Theorem C10_gender_rendering (g : string) (df : DataFrame) (track artist : string) :
  (Sony.get_german_gender_text g = "männlich"%string <-> g = "MALE"%string)
  /\ (g <> "MALE"%string -> Sony.get_german_gender_text g = "weiblich"%string)
  /\ (Sony.get_german_gender_text_primary g = "männliche"%string <-> g = "MALE"%string)
  /\ (g <> "MALE"%string -> Sony.get_german_gender_text_primary g = "weibliche"%string)
  /\ Final.gender_text g = Sony.get_german_gender_text g
  /\ Final.gender_text_primary g = Sony.get_german_gender_text_primary g
  /\ (forall printed res,
         Final.audience_analysis df track artist = Ok (printed, res) ->
         map line_text (geschlechtsverteilung printed)
         = map Final.gender_text (Final.genders (track_rows df track artist))
         /\ exists age g',
             (exists r, In r (track_rows df track artist) /\ gender r = g')
             /\ kernzielgruppe res
                = (Final.gender_text_primary g' ++ " " ++ age)%string)
  /\ (forall printed res,
         Sony.audience_analysis df track artist = Ok (printed, res) ->
         map line_text (geschlechtsverteilung printed)
         = map Sony.get_german_gender_text
               (sorted String.leb
                  (unique String.eqb (map gender (track_rows df track artist))))
         /\ exists age g',
             (exists r, In r (track_rows df track artist) /\ gender r = g')
             /\ kernzielgruppe res
                = (Sony.get_german_gender_text_primary g' ++ " " ++ age)%string).
Proof.
  refine (conj _ (conj _ (conj _ (conj _ (conj _ (conj _ (conj _ _))))))).
  - unfold Sony.get_german_gender_text.
    destruct (String.eqb_spec g "MALE"); split; intros; congruence.
  - unfold Sony.get_german_gender_text.
    destruct (String.eqb_spec g "MALE"); intros; congruence.
  - unfold Sony.get_german_gender_text_primary.
    destruct (String.eqb_spec g "MALE"); split; intros; congruence.
  - unfold Sony.get_german_gender_text_primary.
    destruct (String.eqb_spec g "MALE"); intros; congruence.
  - reflexivity.
  - reflexivity.
  - intros printed res H. apply final_audience_analysis_inv in H.
    destruct H as [_ [_ [H1 [_ [age [g' [I K]]]]]]]. split; [exact H1|].
    exists age, g'. split; auto. apply in_prod_iff in I.
    apply genders_In. tauto.
  - intros printed res H. apply sony_audience_analysis_inv in H.
    destruct H as [H1 [_ [_ [_ [age [g' [[r [Hr [Ha Hg]]] K]]]]]]].
    split; [exact H1|]. exists age, g'. split; eauto.
Qed.

(* ================================================================== *)
(** * Aggregation: sums over the groups *)

Module Int64Facts.

Local Open Scope Z_scope.

Lemma wrap_range z : Int64.in_range (Int64.wrap z).
Proof.
  unfold Int64.in_range, Int64.wrap.
  pose proof (Z.mod_pos_bound (z + 2 ^ 63) (2 ^ 64) ltac:(lia)). lia.
Qed.

Lemma wrap_small z : Int64.in_range z -> Int64.wrap z = z.
Proof.
  unfold Int64.in_range, Int64.wrap. intros H.
  rewrite Z.mod_small by lia. lia.
Qed.

Lemma wrap_add_l a b : Int64.wrap (Int64.wrap a + b) = Int64.wrap (a + b).
Proof.
  unfold Int64.wrap.
  replace ((a + 2 ^ 63) mod 2 ^ 64 - 2 ^ 63 + b + 2 ^ 63)
    with ((a + 2 ^ 63) mod 2 ^ 64 + b) by lia.
  rewrite Zplus_mod_idemp_l. f_equal. f_equal. lia.
Qed.

Lemma wrap_add_r a b : Int64.wrap (a + Int64.wrap b) = Int64.wrap (a + b).
Proof. rewrite Z.add_comm, wrap_add_l. f_equal. lia. Qed.

Lemma wrap_wrap a : Int64.wrap (Int64.wrap a) = Int64.wrap a.
Proof. apply wrap_small, wrap_range. Qed.

Lemma Zsum_acc l a : fold_left Z.add l a = a + Int64.Zsum l.
Proof.
  unfold Int64.Zsum. revert a. induction l as [|x l IH]; intros a; simpl.
  - lia.
  - rewrite IH, (IH x). lia.
Qed.

Lemma Zsum_cons x l : Int64.Zsum (x :: l) = x + Int64.Zsum l.
Proof. unfold Int64.Zsum at 1. simpl. apply Zsum_acc. Qed.

Lemma Zsum_app l1 l2 : Int64.Zsum (l1 ++ l2) = Int64.Zsum l1 + Int64.Zsum l2.
Proof.
  induction l1 as [|x l1 IH]; simpl.
  - reflexivity.
  - rewrite !Zsum_cons, IH. lia.
Qed.

Lemma sum_acc l a :
  fold_left Int64.add l (Int64.wrap a) = Int64.wrap (a + Int64.Zsum l).
Proof.
  revert a. induction l as [|x l IH]; intros a; simpl.
  - f_equal. unfold Int64.Zsum. simpl. lia.
  - unfold Int64.add at 2. rewrite wrap_add_l, IH, Zsum_cons. f_equal. lia.
Qed.

(** The int64 sum is the exact sum, wrapped once. *)
Lemma sum_wrap l : Int64.sum l = Int64.wrap (Int64.Zsum l).
Proof.
  unfold Int64.sum. change 0 with (Int64.wrap 0) at 1. rewrite sum_acc.
  reflexivity.
Qed.

Lemma sum_of_wraps (l : list Z) :
  Int64.sum (map Int64.wrap l) = Int64.sum l.
Proof.
  rewrite !sum_wrap. induction l as [|x l IH]; simpl; auto.
  rewrite !Zsum_cons. rewrite <- wrap_add_r, IH, wrap_add_r, wrap_add_l.
  reflexivity.
Qed.

Lemma Zsum_nonneg l : Forall (fun x => 0 <= x) l -> 0 <= Int64.Zsum l.
Proof.
  intros H. induction H as [|x l Hx H IH].
  - unfold Int64.Zsum. simpl. lia.
  - rewrite Zsum_cons. lia.
Qed.

Lemma Zsum_filter_le {A} (f : A -> Z) p l :
  (forall a, In a l -> 0 <= f a) ->
  0 <= Int64.Zsum (map f (filter p l)) <= Int64.Zsum (map f l).
Proof.
  induction l as [|a l IH]; intros H; simpl.
  - unfold Int64.Zsum. simpl. lia.
  - assert (0 <= f a) by (apply H; left; reflexivity).
    assert (0 <= Int64.Zsum (map f (filter p l)) <= Int64.Zsum (map f l)) as B
        by (apply IH; intros; apply H; right; assumption).
    destruct (p a); simpl; rewrite ?Zsum_cons; lia.
Qed.

(** Without overflow the int64 sum is the exact sum. *)
Lemma sum_exact l :
  Forall (fun x => 0 <= x) l -> Int64.Zsum l < 2 ^ 63 -> Int64.sum l = Int64.Zsum l.
Proof.
  intros H B. rewrite sum_wrap. apply wrap_small.
  pose proof (Zsum_nonneg l H). unfold Int64.in_range. lia.
Qed.

End Int64Facts.

Section GroupSums.
Local Open Scope Z_scope.

Variable f : PerformanceRecord -> Z.

(** What the row [r] adds to the sums of the groups [keys]. *)
Lemma group_share_of_row (keys : list TrackIdentity) r :
  NoDup keys ->
  (forall k, row_identity r = Some k -> In k keys) ->
  Int64.Zsum (map (fun k => if has_identity k r then f r else 0) keys)
  = if is_named r then f r else 0.
Proof.
  intros ND Hin. unfold has_identity, is_named in *.
  destruct (row_identity r) as [k0|].
  - specialize (Hin k0 eq_refl).
    induction keys as [|k keys IH]; [destruct Hin|].
    simpl. rewrite Int64Facts.Zsum_cons. inversion ND as [|? ? Nk ND']; subst.
    destruct (identity_eqb k k0) eqn:E.
    + apply StringOrder.identity_eqb_eq in E. subst.
      assert (Int64.Zsum (map (fun k => if identity_eqb k k0 then f r else 0) keys) = 0)
        as Z0.
      { clear IH Hin ND ND'. induction keys as [|k keys IH]; simpl.
        - reflexivity.
        - rewrite Int64Facts.Zsum_cons.
          destruct (identity_eqb k k0) eqn:E.
          + apply StringOrder.identity_eqb_eq in E. subst. exfalso. apply Nk.
            left. reflexivity.
          + rewrite IH; [lia|]. intros H. apply Nk. right. exact H. }
      rewrite Z0. lia.
    + destruct Hin as [->|Hin].
      * rewrite (proj2 (StringOrder.identity_eqb_eq k0 k0) eq_refl) in E.
        discriminate.
      * rewrite IH; auto.
  - clear ND Hin. induction keys as [|k keys IH]; simpl; [reflexivity|].
    rewrite Int64Facts.Zsum_cons, IH. lia.
Qed.

Lemma group_sums_partition (keys : list TrackIdentity) df :
  NoDup keys ->
  (forall r k, In r df -> row_identity r = Some k -> In k keys) ->
  Int64.Zsum (map (fun k => Int64.Zsum (map f (filter (has_identity k) df))) keys)
  = Int64.Zsum (map f (filter is_named df)).
Proof.
  intros ND Hin. induction df as [|r df IH]; simpl.
  - clear ND Hin. induction keys as [|k keys IHk]; simpl; auto.
  - assert (forall ks,
             Int64.Zsum (map (fun k => Int64.Zsum
                                         (map f (if has_identity k r
                                                 then r :: filter (has_identity k) df
                                                 else filter (has_identity k) df))) ks)
             = Int64.Zsum (map (fun k => if has_identity k r then f r else 0) ks)
               + Int64.Zsum (map (fun k => Int64.Zsum
                                             (map f (filter (has_identity k) df))) ks))
      as Split.
    { induction ks as [|k ks IHk]; simpl; [reflexivity|].
      rewrite !Int64Facts.Zsum_cons, IHk.
      destruct (has_identity k r); simpl; rewrite ?Int64Facts.Zsum_cons; lia. }
    rewrite Split, IH, group_share_of_row; auto.
    + destruct (is_named r); simpl; rewrite ?Int64Facts.Zsum_cons; lia.
    + intros k Hk. apply (Hin r k); simpl; auto.
    + intros r' k Hr' Hk. apply (Hin r' k); simpl; auto.
Qed.

End GroupSums.

Section AggregationSums.
Local Open Scope Z_scope.

Variable f : PerformanceRecord -> Z.
Variable m : TrackMetrics -> Z.
Hypothesis m_sum :
  forall df k, m (aggregate_group df k) = Int64.sum (map f (filter (has_identity k) df)).

Lemma group_keys_cover df r k :
  In r df -> row_identity r = Some k -> In k (group_keys df).
Proof. intros Hr Hk. apply group_keys_In. eauto. Qed.

(** The int64 sum over the groups is the int64 sum over the named rows. *)
Lemma aggregated_sum df :
  Int64.sum (map m (groupby_agg df)) = Int64.sum (map f (filter is_named df)).
Proof.
  unfold groupby_agg. rewrite map_map.
  rewrite (map_ext _ (fun k => Int64.wrap
                                 (Int64.Zsum (map f (filter (has_identity k) df)))))
    by (intros k; rewrite m_sum; apply Int64Facts.sum_wrap).
  rewrite <- (map_map (fun k => Int64.Zsum (map f (filter (has_identity k) df)))
                      Int64.wrap).
  rewrite Int64Facts.sum_of_wraps, !Int64Facts.sum_wrap.
  rewrite (group_sums_partition f (group_keys df) df).
  - reflexivity.
  - apply group_keys_NoDup.
  - intros r k. apply group_keys_cover.
Qed.

(** Without overflow the sums are the exact sums. *)
Lemma aggregated_sum_exact df :
  (forall r, In r df -> 0 <= f r) ->
  Int64.Zsum (map f df) < 2 ^ 63 ->
  Int64.Zsum (map m (groupby_agg df)) = Int64.Zsum (map f (filter is_named df)).
Proof.
  intros Hpos Hfit. unfold groupby_agg. rewrite map_map.
  rewrite (map_ext_in _ (fun k => Int64.Zsum (map f (filter (has_identity k) df)))).
  - apply group_sums_partition.
    + apply group_keys_NoDup.
    + intros r k. apply group_keys_cover.
  - intros k _. rewrite m_sum. apply Int64Facts.sum_exact.
    + rewrite Forall_forall. intros x Hx. apply in_map_iff in Hx.
      destruct Hx as [r [<- Hr]]. apply filter_In in Hr. apply Hpos. tauto.
    + pose proof (Int64Facts.Zsum_filter_le f (has_identity k) df Hpos). lia.
Qed.

End AggregationSums.

Lemma filter_all_named df :
  (forall r, In r df -> is_named r = true) -> filter is_named df = df.
Proof.
  intros H. induction df as [|r df IH]; simpl; auto.
  rewrite (H r) by (left; reflexivity). f_equal. apply IH.
  intros r' Hr'. apply H. right. exact Hr'.
Qed.

(** C9. When every row carries a track name and an artist name, the sum of
    total_streams over the aggregated tracks is the sum of total_streams
    over the rows, and likewise for total_saves: as int64 sums always, and
    as exact sums when the counts are not negative and their total fits in
    an int64. *)
Theorem C9_aggregation_conserves_volume (df : DataFrame)
        (H : forall r, In r df -> is_named r = true) :
  Int64.sum (map m_total_streams (groupby_agg df)) = Int64.sum (map total_streams df)
  /\ Int64.sum (map m_total_saves (groupby_agg df)) = Int64.sum (map total_saves df)
  /\ ((forall r, In r df -> (0 <= total_streams r)%Z) ->
      (Int64.Zsum (map total_streams df) < 2 ^ 63)%Z ->
      Int64.Zsum (map m_total_streams (groupby_agg df))
      = Int64.Zsum (map total_streams df))
  /\ ((forall r, In r df -> (0 <= total_saves r)%Z) ->
      (Int64.Zsum (map total_saves df) < 2 ^ 63)%Z ->
      Int64.Zsum (map m_total_saves (groupby_agg df))
      = Int64.Zsum (map total_saves df)).
Proof.
  pose proof (filter_all_named df H) as E.
  refine (conj _ (conj _ (conj _ _))).
  - rewrite (aggregated_sum total_streams m_total_streams); [|reflexivity].
    rewrite E. reflexivity.
  - rewrite (aggregated_sum total_saves m_total_saves); [|reflexivity].
    rewrite E. reflexivity.
  - intros Hp Hf.
    rewrite (aggregated_sum_exact total_streams m_total_streams); auto.
    rewrite E. reflexivity.
  - intros Hp Hf.
    rewrite (aggregated_sum_exact total_saves m_total_saves); auto.
    rewrite E. reflexivity.
Qed.

Lemma C9_aggregation_conserves_volume_witness :
  Int64.sum (map m_total_streams (groupby_agg Examples.four_cells))
  = Int64.sum (map total_streams Examples.four_cells)
  /\ Int64.sum (map m_total_saves (groupby_agg Examples.four_cells))
     = Int64.sum (map total_saves Examples.four_cells)
  /\ Int64.Zsum (map m_total_streams (groupby_agg Examples.four_cells))
     = Int64.Zsum (map total_streams Examples.four_cells)
  /\ Int64.Zsum (map m_total_saves (groupby_agg Examples.four_cells))
     = Int64.Zsum (map total_saves Examples.four_cells).
Proof.
  destruct (C9_aggregation_conserves_volume Examples.four_cells)
    as [S1 [S2 [S3 S4]]].
  - intros r Hr. simpl in Hr.
    repeat (destruct Hr as [<-|Hr]; [reflexivity|]). destruct Hr.
  - refine (conj S1 (conj S2 (conj (S3 _ _) (S4 _ _)))).
    + intros r Hr. simpl in Hr.
      repeat (destruct Hr as [<-|Hr]; [simpl; lia|]). destruct Hr.
    + vm_compute. reflexivity.
    + intros r Hr. simpl in Hr.
      repeat (destruct Hr as [<-|Hr]; [simpl; lia|]). destruct Hr.
    + vm_compute. reflexivity.
Defined.

(* ================================================================== *)
(** * Rounding to nearest in binary64 *)

Module Rounding.
Local Open Scope Z_scope.

Lemma new_location_loc_of N D :
  0 < D -> new_location D (N mod D) = loc_of N D.
Proof.
  intros HD. pose proof (Z.mod_pos_bound N D HD) as B.
  unfold new_location, loc_of, new_location_even, new_location_odd.
  set (r := N mod D) in *. clearbody r.
  destruct (Z.even D) eqn:Ev; [reflexivity|].
  destruct (r =? 0); [reflexivity|].
  assert (Z.odd D = true) as Od by (rewrite <- Z.negb_even, Ev; reflexivity).
  apply Z.odd_spec in Od. destruct Od as [j Hj].
  destruct (Z.compare_spec (2 * r + 1) D); destruct (Z.compare_spec (2 * r) D);
    try reflexivity; lia.
Qed.

Lemma shr_m_rec_of N D : shr_m (rec_of N D) = N / D.
Proof. unfold rec_of. destruct (loc_of N D) as [|[]]; reflexivity. Qed.

Lemma loc_of_shr_record_rec_of N D : loc_of_shr_record (rec_of N D) = loc_of N D.
Proof. unfold rec_of. destruct (loc_of N D) as [|[]]; reflexivity. Qed.

Lemma shr_1_spec m r s :
  0 <= m ->
  shr_1 {| shr_m := m; shr_r := r; shr_s := s |}
  = {| shr_m := m / 2; shr_r := Z.odd m; shr_s := r || s |}.
Proof.
  intros Hm. destruct m as [|[p|p|]|p]; try lia; cbn [shr_1].
  - reflexivity.
  - rewrite Pos2Z.inj_xI.
    replace (2 * Z.pos p + 1) with (1 + 2 * Z.pos p) by lia.
    rewrite Z.odd_add_mul_2.
    replace ((1 + 2 * Z.pos p) / 2) with (Z.pos p)
      by (apply Z.div_unique with 1; lia).
    reflexivity.
  - rewrite Pos2Z.inj_xO.
    replace (2 * Z.pos p) with (0 + 2 * Z.pos p) by lia.
    rewrite Z.odd_add_mul_2.
    replace ((0 + 2 * Z.pos p) / 2) with (Z.pos p)
      by (apply Z.div_unique with 0; lia).
    reflexivity.
  - reflexivity.
Qed.

Lemma shr_1_rec_of N D :
  0 <= N -> 0 < D -> shr_1 (rec_of N D) = rec_of N (2 * D).
Proof.
  intros HN HD.
  assert (N / (2 * D) = N / D / 2) as Eq.
  { rewrite (Z.mul_comm 2 D). rewrite Z.div_div by lia. reflexivity. }
  assert (N mod (2 * D) = N mod D + D * ((N / D) mod 2)) as Em.
  { rewrite (Z.mul_comm 2 D). apply Z.rem_mul_r; lia. }
  pose proof (Z.mod_pos_bound N D HD) as B.
  assert (0 <= N / D) as Hq by (apply Z.div_pos; lia).
  unfold rec_of at 2. unfold loc_of at 1. rewrite Eq, Em.
  unfold rec_of, loc_of. rewrite Zmod_odd.
  set (r := N mod D) in *. set (m := N / D) in *. clearbody r m.
  assert (forall l, shr_1 (shr_record_of_loc m l)
                    = {| shr_m := m / 2; shr_r := Z.odd m;
                         shr_s := match l with loc_Exact => false | _ => true end |}) as E1.
  { intros [|[]]; cbn [shr_record_of_loc]; rewrite shr_1_spec by lia; reflexivity. }
  rewrite E1.
  destruct (Z.eqb_spec r 0) as [Er|Er].
  - subst r. destruct (Z.odd m).
    + replace (0 + D * 1 =? 0) with false by (symmetry; apply Z.eqb_neq; lia).
      replace (2 * (0 + D * 1) ?= 2 * D) with Datatypes.Eq
        by (symmetry; apply Z.compare_eq_iff; lia).
      reflexivity.
    + replace (0 + D * 0 =? 0) with true by (symmetry; apply Z.eqb_eq; lia).
      reflexivity.
  - destruct (Z.odd m).
    + replace (r + D * 1 =? 0) with false by (symmetry; apply Z.eqb_neq; lia).
      replace (2 * (r + D * 1) ?= 2 * D) with Gt
        by (symmetry; apply Z.compare_gt_iff; lia).
      reflexivity.
    + replace (r + D * 0 =? 0) with false by (symmetry; apply Z.eqb_neq; lia).
      replace (2 * (r + D * 0) ?= 2 * D) with Lt
        by (symmetry; apply Z.compare_lt_iff; lia).
      reflexivity.
Qed.

Lemma iter_pos_shr_1 p : forall N D,
  0 <= N -> 0 < D -> iter_pos shr_1 p (rec_of N D) = rec_of N (D * 2 ^ Z.pos p).
Proof.
  induction p as [p IH|p IH|]; intros N D HN HD; cbn [iter_pos].
  - assert (0 < 2 ^ Z.pos p) by (apply Z.pow_pos_nonneg; lia).
    rewrite shr_1_rec_of, IH, IH by nia.
    apply (f_equal (rec_of N)). 
    replace (Z.pos p~1) with (Z.pos p + Z.pos p + 1) by lia.
    rewrite !Z.pow_add_r by lia. change (2 ^ 1) with 2. ring.
  - assert (0 < 2 ^ Z.pos p) by (apply Z.pow_pos_nonneg; lia).
    rewrite IH, IH by nia.
    apply (f_equal (rec_of N)). 
    replace (Z.pos p~0) with (Z.pos p + Z.pos p) by lia.
    rewrite !Z.pow_add_r by lia. ring.
  - rewrite shr_1_rec_of by lia. apply (f_equal (rec_of N)). change (2 ^ 1) with 2. lia.
Qed.

Lemma digits2_pos_bounds p :
  2 ^ (Z.pos (digits2_pos p) - 1) <= Z.pos p < 2 ^ Z.pos (digits2_pos p).
Proof.
  induction p as [p IH|p IH|]; cbn [digits2_pos].
  - rewrite Pos2Z.inj_succ.
    replace (Z.succ (Z.pos (digits2_pos p)) - 1)
      with (Z.succ (Z.pos (digits2_pos p) - 1)) by lia.
    rewrite !Z.pow_succ_r by lia. lia.
  - rewrite Pos2Z.inj_succ.
    replace (Z.succ (Z.pos (digits2_pos p)) - 1)
      with (Z.succ (Z.pos (digits2_pos p) - 1)) by lia.
    rewrite !Z.pow_succ_r by lia. lia.
  - simpl. lia.
Qed.

Lemma Zdigits2_bounds m :
  0 < m -> 2 ^ (Zdigits2 m - 1) <= m < 2 ^ Zdigits2 m.
Proof.
  intros Hm. destruct m as [|p|p]; try lia. apply digits2_pos_bounds.
Qed.

Lemma Zdigits2_unique m d :
  2 ^ (d - 1) <= m < 2 ^ d -> 0 < d -> Zdigits2 m = d.
Proof.
  intros B Hd.
  assert (0 < m).
  { assert (0 < 2 ^ (d - 1)) by (apply Z.pow_pos_nonneg; lia). lia. }
  pose proof (Zdigits2_bounds m H) as B'.
  assert (0 < Zdigits2 m) by (destruct m; simpl; lia).
  destruct (Z.lt_trichotomy (Zdigits2 m) d) as [L|[E|G]]; auto.
  - assert (2 ^ Zdigits2 m <= 2 ^ (d - 1)) by (apply Z.pow_le_mono_r; lia). lia.
  - assert (2 ^ d <= 2 ^ (Zdigits2 m - 1)) by (apply Z.pow_le_mono_r; lia). lia.
Qed.

Lemma round_nearest_even_bound N D :
  0 <= N -> 0 < D ->
  N / D <= round_nearest_even (N / D) (loc_of N D) <= N / D + 1
  /\ 2 * Z.abs (round_nearest_even (N / D) (loc_of N D) * D - N) <= D.
Proof.
  intros HN HD.
  pose proof (Z.div_mod N D ltac:(lia)) as E.
  pose proof (Z.mod_pos_bound N D HD) as B.
  unfold loc_of.
  set (q := N / D) in *. set (r := N mod D) in *. clearbody q r.
  destruct (Z.eqb_spec r 0) as [Er|Er]; cbn [round_nearest_even].
  - nia.
  - destruct (Z.compare_spec (2 * r) D); cbn [round_nearest_even].
    + destruct (Z.even q); nia.
    + nia.
    + nia.
Qed.

(** Rounding to nearest of a positive value [N / D * 2 ^ e] whose integer
    part has at least 53 bits, in the range of the normal numbers. *)
Lemma binary_round_aux_normal sx N D e :
  0 <= N -> 0 < D -> 2 ^ 52 <= N / D ->
  let n := Zdigits2 (N / D) - 53 in
  -1074 <= e + n -> e + n + 1 <= 971 ->
  exists M Mf Ef,
    binary_round_aux prec emax sx (N / D) e (loc_of N D) = S754_finite sx Mf Ef
    /\ 2 ^ 52 <= Z.pos Mf < 2 ^ 53
    /\ 0 <= n
    /\ 2 * Z.abs (M * (D * 2 ^ n) - N) <= D * 2 ^ n
    /\ ((Z.pos Mf = M /\ Ef = e + n)
        \/ (M = 2 ^ 53 /\ Z.pos Mf = 2 ^ 52 /\ Ef = e + n + 1)).
Proof.
  intros HN HD Hq n Hlo Hhi.
  assert (0 < N / D) as Hq0 by lia.
  pose proof (Zdigits2_bounds (N / D) Hq0) as Bd. fold n in Bd.
  assert (53 <= Zdigits2 (N / D)) as Hd.
  { destruct (Z_lt_le_dec (Zdigits2 (N / D)) 53) as [L|]; auto.
    assert (2 ^ Zdigits2 (N / D) <= 2 ^ 52) by (apply Z.pow_le_mono_r; lia). lia. }
  assert (0 <= n) as Hn by (unfold n; lia).
  assert (0 < 2 ^ n) as Hp by (apply Z.pow_pos_nonneg; lia).
  set (D' := D * 2 ^ n).
  assert (0 < D') as HD' by (unfold D'; nia).
  assert (shr_fexp prec emax (N / D) e (loc_of N D) = (rec_of N D', e + n)) as E1.
  { unfold shr_fexp, shr. fold (rec_of N D).
    replace (fexp prec emax (Zdigits2 (N / D) + e) - e) with n
      by (unfold fexp, SpecFloat.emin, prec, emax, n; lia).
    destruct n as [|p|p] eqn:En; try lia.
    - unfold D'. rewrite Z.pow_0_r, Z.mul_1_r, Z.add_0_r. reflexivity.
    - rewrite iter_pos_shr_1 by lia. reflexivity. }
  unfold binary_round_aux. rewrite E1.
  rewrite shr_m_rec_of, loc_of_shr_record_rec_of.
  destruct (round_nearest_even_bound N D' HN HD') as [BM BE].
  set (M := round_nearest_even (N / D') (loc_of N D')) in *.
  assert (N / D' = N / D / 2 ^ n) as Eq.
  { unfold D'. rewrite Z.div_div by lia. reflexivity. }
  assert (2 ^ 52 <= N / D' < 2 ^ 53) as BQ.
  { rewrite Eq. split.
    - apply Z.div_le_lower_bound; [lia|].
      rewrite <- Z.pow_add_r by lia.
      replace (n + 52) with (Zdigits2 (N / D) - 1) by (unfold n; lia). lia.
    - apply Z.div_lt_upper_bound; [lia|].
      rewrite <- Z.pow_add_r by lia.
      replace (n + 53) with (Zdigits2 (N / D)) by (unfold n; lia). lia. }
  clearbody M.
  destruct (Z_lt_le_dec M (2 ^ 53)) as [Lt53|Ge53].
  - assert (Zdigits2 M = 53) as Ed by (apply Zdigits2_unique; simpl; lia).
    assert (shr_fexp prec emax M (e + n) loc_Exact
            = ({| shr_m := M; shr_r := false; shr_s := false |}, e + n)) as E2.
    { unfold shr_fexp, shr. rewrite Ed.
      replace (fexp prec emax (53 + (e + n)) - (e + n)) with 0
        by (unfold fexp, SpecFloat.emin, prec, emax; lia).
      reflexivity. }
    rewrite E2. cbn [shr_m].
    destruct M as [|Mp|Mp]; try lia.
    replace (e + n <=? emax - prec) with true
      by (symmetry; apply Z.leb_le; unfold emax, prec; lia).
    exists (Z.pos Mp), Mp, (e + n). fold D'. repeat split; try lia. 
  - assert (M = 2 ^ 53) as EM by lia.
    assert (shr_fexp prec emax M (e + n) loc_Exact
            = ({| shr_m := 2 ^ 52; shr_r := false; shr_s := false |}, e + n + 1)) as E2.
    { unfold shr_fexp, shr. rewrite EM.
      replace (Zdigits2 (2 ^ 53)) with 54 by reflexivity.
      replace (fexp prec emax (54 + (e + n)) - (e + n)) with 1
        by (unfold fexp, SpecFloat.emin, prec, emax; lia).
      reflexivity. }
    rewrite E2. cbn [shr_m].
    replace (e + n + 1 <=? emax - prec) with true
      by (symmetry; apply Z.leb_le; unfold emax, prec; lia).
    exists M, (Z.to_pos (2 ^ 52)), (e + n + 1). fold D'.
    repeat split; try lia; try reflexivity.
Qed.

End Rounding.

Module RealRounding.
Import Reals Lra RealValue.
Local Open Scope R_scope.

Lemma bpow_pos e : 0 < bpow e.
Proof. apply powerRZ_lt. lra. Qed.

Lemma bpow_add a b : bpow (a + b) = bpow a * bpow b.
Proof. apply powerRZ_add. lra. Qed.

Lemma bpow_IZR n : (0 <= n)%Z -> bpow n = IZR (2 ^ n).
Proof.
  intros Hn. rewrite <- (Z2Nat.id n) by lia. unfold bpow.
  rewrite <- pow_powerRZ, pow_IZR. reflexivity.
Qed.

Lemma bpow_le a b : (a <= b)%Z -> bpow a <= bpow b.
Proof.
  intros H. replace b with (a + (b - a))%Z by lia. rewrite bpow_add.
  rewrite (bpow_IZR (b - a)) by lia.
  assert (1 <= IZR (2 ^ (b - a))).
  { apply IZR_le. assert (0 < 2 ^ (b - a))%Z by (apply Z.pow_pos_nonneg; lia). lia. }
  pose proof (bpow_pos a). nra.
Qed.

Lemma bpow_lt_inv a b : bpow a < bpow b -> (a < b)%Z.
Proof.
  intros H. destruct (Z_lt_le_dec a b) as [|L]; auto.
  apply bpow_le in L. lra.
Qed.

Lemma bpow_le_inv a b : bpow a <= bpow b -> (a <= b)%Z.
Proof.
  intros H. destruct (Z_le_gt_dec a b) as [|L]; auto.
  assert (b + 1 <= a)%Z as L' by lia. apply bpow_le in L'.
  rewrite bpow_add in L'. change (bpow 1) with (2 * 1) in L'.
  pose proof (bpow_pos b). lra.
Qed.

Lemma Rabs_le_inv x b : Rabs x <= b -> - b <= x <= b.
Proof. unfold Rabs. destruct (Rcase_abs x); lra. Qed.

(** The quotient of two integers lies between its integer part and the
    next integer. *)
Lemma IZR_div_bounds N D :
  (0 < D)%Z -> IZR (N / D) <= IZR N / IZR D < IZR (N / D) + 1.
Proof.
  intros HD.
  pose proof (Z.div_mod N D ltac:(lia)) as E.
  pose proof (Z.mod_pos_bound N D HD) as B.
  assert (0 < IZR D) as HDr by (apply (IZR_lt 0); lia).
  assert (IZR N = IZR D * IZR (N / D) + IZR (N mod D)) as Er.
  { rewrite <- mult_IZR, <- plus_IZR. f_equal. exact E. }
  assert (0 <= IZR (N mod D) < IZR D) as Br.
  { split; [apply (IZR_le 0); lia | apply IZR_lt; lia]. }
  rewrite Er. unfold Rdiv. rewrite Rmult_plus_distr_r.
  replace (IZR D * IZR (N / D) * / IZR D) with (IZR (N / D)) by (field; lra).
  assert (0 <= IZR (N mod D) * / IZR D < 1).
  { split.
    - apply Rmult_le_pos; [lra|]. left. apply Rinv_0_lt_compat. lra.
    - apply (Rmult_lt_reg_r (IZR D)); [lra|].
      rewrite Rmult_assoc, Rinv_l by lra. lra. }
  lra.
Qed.

(** Rounding to nearest of the positive real [N / D * 2 ^ e]. *)
Lemma round_normal_R sx N D e :
  (0 <= N)%Z -> (0 < D)%Z -> (2 ^ 52 <= N / D)%Z ->
  let v := IZR N / IZR D * bpow e in
  bpow (-900) <= v <= bpow 900 ->
  exists M E Mf Ef,
    binary_round_aux prec emax sx (N / D) e (loc_of N D) = S754_finite sx Mf Ef
    /\ (2 ^ 52 <= Z.pos Mf < 2 ^ 53)%Z
    /\ (-1074 <= Ef <= 971)%Z
    /\ IZR (Z.pos Mf) * bpow Ef = IZR M * bpow E
    /\ Rabs (IZR M * bpow E - v) <= bpow E / 2
    /\ bpow (E + 52) <= v < bpow (E + 53)
    /\ ((Z.pos Mf = M /\ Ef = E)
        \/ (M = 2 ^ 53 /\ Z.pos Mf = 2 ^ 52 /\ Ef = E + 1))%Z.
Proof.
  intros HN HD Hq v Hv.
  assert (0 < N / D)%Z as Hq0 by lia.
  pose proof (Rounding.Zdigits2_bounds (N / D) Hq0) as Bd.
  set (d := Zdigits2 (N / D)) in *.
  assert (53 <= d)%Z as Hd.
  { destruct (Z_lt_le_dec d 53) as [L|]; auto.
    assert (2 ^ d <= 2 ^ 52)%Z by (apply Z.pow_le_mono_r; lia). lia. }
  pose proof (IZR_div_bounds N D HD) as Bq.
  assert (0 < IZR D) as HDr by (apply (IZR_lt 0); lia).
  pose proof (bpow_pos e) as He.
  assert (bpow (d - 1 + e) <= v < bpow (d + e)) as Bv.
  { unfold v.
    rewrite (bpow_add (d - 1) e), (bpow_add d e), (bpow_IZR (d - 1)), (bpow_IZR d) by lia.
    assert (IZR (2 ^ (d - 1)) <= IZR (N / D)) by (apply IZR_le; lia).
    assert (IZR (N / D) + 1 <= IZR (2 ^ d)).
    { rewrite <- (plus_IZR _ 1). apply IZR_le. lia. }
    split; [apply Rmult_le_compat_r|apply Rmult_lt_compat_r]; lra. }
  assert (-900 < d + e)%Z as Hlo by (apply bpow_lt_inv; lra).
  assert (d - 1 + e <= 900)%Z as Hhi by (apply bpow_le_inv; lra).
  destruct (Rounding.binary_round_aux_normal sx N D e HN HD Hq)
    as [M [Mf [Ef [R1 [R2 [R3 [R4 R5]]]]]]]; fold d; try lia.
  fold d in R3, R4, R5. set (n := (d - 53)%Z) in *.
  exists M, (e + n)%Z, Mf, Ef.
  split; [exact R1|]. split; [exact R2|]. split; [lia|].
  split.
  { destruct R5 as [[-> ->]|[-> [-> ->]]]; [reflexivity|].
    rewrite (bpow_add (e + n) 1). change (bpow 1) with (2 * 1).
    change (2 ^ 53)%Z with (2 * 2 ^ 52)%Z. rewrite mult_IZR. ring. }
  split.
  { assert (0 < 2 ^ n)%Z as Hp by (apply Z.pow_pos_nonneg; lia).
    assert (2 * N <= 2 * (M * (D * 2 ^ n)) + D * 2 ^ n)%Z as B1 by lia.
    assert (2 * (M * (D * 2 ^ n)) <= 2 * N + D * 2 ^ n)%Z as B2 by lia.
    apply IZR_le in B1. apply IZR_le in B2.
    rewrite !plus_IZR, !mult_IZR in B1. rewrite !plus_IZR, !mult_IZR in B2.
    rewrite <- (bpow_IZR n) in B1 by lia. rewrite <- (bpow_IZR n) in B2 by lia.
    rewrite bpow_add. unfold v.
    pose proof (bpow_pos n) as Hn.
    set (c := bpow e / IZR D).
    assert (0 < c) as Hc by (apply Rdiv_lt_0_compat; lra).
    replace (IZR M * (bpow e * bpow n) - IZR N / IZR D * bpow e)
      with (c * (IZR M * (IZR D * bpow n) - IZR N)) by (unfold c; field; lra).
    replace (bpow e * bpow n / 2) with (c * (IZR D * bpow n / 2))
      by (unfold c; field; lra).
    set (Y := IZR M * (IZR D * bpow n) - IZR N) in *.
    set (W := IZR D * bpow n) in *.
    assert (- W <= 2 * Y <= W) as BY by (unfold Y; lra).
    clearbody Y W.
    assert (0 <= c * (2 * Y + W)) by (apply Rmult_le_pos; lra).
    assert (0 <= c * (W - 2 * Y)) by (apply Rmult_le_pos; lra).
    apply Rabs_le. lra. }
  split.
  { replace (e + n + 52)%Z with (d - 1 + e)%Z by (unfold n; lia).
    replace (e + n + 53)%Z with (d + e)%Z by (unfold n; lia). exact Bv. }
  destruct R5 as [R5|R5]; [left|right]; lia.
Qed.

End RealRounding.

Module RealOps.
Import Reals Lra RealValue RealRounding.
Local Open Scope R_scope.


Lemma iter_xO p d : Z.pos (Pos.iter xO p d) = (Z.pos p * 2 ^ Z.pos d)%Z.
Proof.
  induction d as [|d IH] using Pos.peano_ind.
  - cbn [Pos.iter]. change (2 ^ 1)%Z with 2%Z. lia.
  - rewrite Pos.iter_succ.
    change (Z.pos (Pos.iter xO p d)~0) with (2 * Z.pos (Pos.iter xO p d))%Z.
    rewrite IH, Pos2Z.inj_succ, Z.pow_succ_r by lia. ring.
Qed.

Lemma loc_of_1 N : loc_of N 1 = loc_Exact.
Proof. unfold loc_of. rewrite Z.mod_1_r. reflexivity. Qed.

(** The result of a rounding, as a positive normal number with its
    relative error. *)
Lemma round_normal_rel N D e :
  (0 <= N)%Z -> (0 < D)%Z -> (2 ^ 52 <= N / D)%Z ->
  let v := IZR N / IZR D * bpow e in
  bpow (-900) <= v <= bpow 900 ->
  exists vz,
    pos_normal (binary_round_aux prec emax false (N / D) e (loc_of N D)) vz
    /\ Rabs (vz - v) <= v * u53.
Proof.
  intros HN HD Hq v Hv.
  destruct (round_normal_R false N D e HN HD Hq Hv)
    as [M [E [Mf [Ef [R1 [R2 [R3 [R4 [R5 [R6 R7]]]]]]]]]].
  fold v in R5, R6.
  exists (IZR M * bpow E). split.
  - exists Mf, Ef. repeat split; try lia; auto.
  - eapply Rle_trans; [exact R5|].
    destruct R6 as [R6 _]. rewrite bpow_add in R6.
    rewrite (bpow_IZR 52) in R6 by lia.
    pose proof (bpow_pos E).
    unfold u53. change (2 ^ 52)%Z with 4503599627370496%Z in R6. lra.
Qed.


(** [binary_round] aligns the mantissa to at least 53 bits and rounds. *)
Lemma binary_round_aligned sx p e :
  let v := IZR (Z.pos p) * bpow e in
  bpow (-900) <= v <= bpow 900 ->
  exists N e',
    binary_round prec emax sx p e
    = binary_round_aux prec emax sx (N / 1) e' (loc_of N 1)
    /\ (0 <= N)%Z /\ (2 ^ 52 <= N / 1)%Z
    /\ IZR N / IZR 1 * bpow e' = v.
Proof.
  intros v Hv.
  pose proof (Rounding.digits2_pos_bounds p) as Bd.
  set (dp := Z.pos (digits2_pos p)) in *.
  assert (0 < dp)%Z as Hdp by (unfold dp; lia).
  pose proof (bpow_pos e) as He.
  assert (v < bpow (dp + e)) as Bv.
  { unfold v. rewrite bpow_add, (bpow_IZR dp) by lia.
    apply Rmult_lt_compat_r; [lra|]. apply IZR_lt. lia. }
  assert (-900 < dp + e)%Z as Hlo by (apply bpow_lt_inv; lra).
  unfold binary_round. fold dp.
  replace (fexp prec emax (dp + e)) with (dp + e - 53)%Z
    by (unfold fexp, SpecFloat.emin, prec, emax; lia).
  unfold shl_align.
  replace (dp + e - 53 - e)%Z with (dp - 53)%Z by lia.
  destruct (dp - 53)%Z as [|d|d] eqn:Ed.
  - exists (Z.pos p), e. rewrite Z.div_1_r, loc_of_1.
    split; [reflexivity|]. split; [lia|]. split.
    + replace (dp - 1)%Z with 52%Z in Bd by lia. lia.
    + unfold v. field.
  - exists (Z.pos p), e. rewrite Z.div_1_r, loc_of_1.
    split; [reflexivity|]. split; [lia|]. split.
    + assert (2 ^ 52 <= 2 ^ (dp - 1))%Z by (apply Z.pow_le_mono_r; lia). lia.
    + unfold v. field.
  - exists (Z.pos p * 2 ^ Z.pos d)%Z, (dp + e - 53)%Z.
    rewrite Z.div_1_r, loc_of_1, <- iter_xO.
    split; [reflexivity|]. rewrite iter_xO.
    assert (0 < 2 ^ Z.pos d)%Z by (apply Z.pow_pos_nonneg; lia).
    split; [nia|]. split.
    + replace (2 ^ 52)%Z with (2 ^ (dp - 1) * 2 ^ Z.pos d)%Z.
      * apply Z.mul_le_mono_nonneg_r; lia.
      * rewrite <- Z.pow_add_r by lia. f_equal. lia.
    + unfold v. rewrite mult_IZR, <- (bpow_IZR (Z.pos d)) by lia.
      replace (dp + e - 53)%Z with (e + - Z.pos d)%Z by lia.
      rewrite bpow_add. unfold bpow at 3. rewrite powerRZ_neg'.
      fold (bpow (Z.pos d)). pose proof (bpow_pos (Z.pos d)). field. lra.
Qed.

End RealOps.

Module RealArith.
Import Reals Lra RealValue RealRounding RealOps.
Local Open Scope R_scope.

Lemma bpow_neg e : bpow (- e) = / bpow e.
Proof. apply powerRZ_neg'. Qed.

Lemma bpow_0 : bpow 0 = 1.
Proof. reflexivity. Qed.

Lemma SFmul_rel x y vx vy :
  pos_normal x vx -> pos_normal y vy ->
  bpow (-900) <= vx * vy <= bpow 900 ->
  exists vz,
    pos_normal (SFmul prec emax x y) vz /\ Rabs (vz - vx * vy) <= vx * vy * u53.
Proof.
  intros [mx [ex [-> [Bx [Ex ->]]]]] [my [ey [-> [By [Ey ->]]]]] Hv.
  cbn [SFmul xorb].
  set (N := (Z.pos mx * Z.pos my)%Z).
  replace (Z.pos (mx * my)) with (N / 1)%Z by (rewrite Z.div_1_r; reflexivity).
  rewrite <- (loc_of_1 N).
  assert (IZR N / IZR 1 * bpow (ex + ey)
          = IZR (Z.pos mx) * bpow ex * (IZR (Z.pos my) * bpow ey)) as Ev.
  { unfold N. rewrite mult_IZR, bpow_add. field. }
  destruct (round_normal_rel N 1 (ex + ey)) as [vz [P R]]; try lia.
  - rewrite Z.div_1_r. unfold N. nia.
  - rewrite Ev. exact Hv.
  - exists vz. rewrite Ev in R. auto.
Qed.

Lemma SFdiv_core_normal mx ex my ey :
  (2 ^ 52 <= Z.pos mx < 2 ^ 53)%Z -> (2 ^ 52 <= Z.pos my < 2 ^ 53)%Z ->
  (-1021 <= ex - ey)%Z ->
  SFdiv_core_binary prec emax (Z.pos mx) ex (Z.pos my) ey
  = ((Z.pos mx * 2 ^ 53 / Z.pos my)%Z, (ex - ey - 53)%Z,
     loc_of (Z.pos mx * 2 ^ 53) (Z.pos my)).
Proof.
  intros Bx By Hlo.
  assert (Zdigits2 (Z.pos mx) = 53%Z) as Dx by (apply Rounding.Zdigits2_unique; lia).
  assert (Zdigits2 (Z.pos my) = 53%Z) as Dy by (apply Rounding.Zdigits2_unique; lia).
  unfold SFdiv_core_binary. rewrite Dx, Dy.
  replace (Z.min (fexp prec emax (53 + ex - (53 + ey))) (ex - ey))
    with (ex - ey - 53)%Z
    by (unfold fexp, SpecFloat.emin, prec, emax; lia).
  replace (ex - ey - (ex - ey - 53))%Z with 53%Z by lia.
  cbv iota. rewrite Z.shiftl_mul_pow2 by lia.
  rewrite <- (Rounding.new_location_loc_of (Z.pos mx * 2 ^ 53) (Z.pos my)) by lia.
  unfold Z.div, Z.modulo.
  destruct (Z.div_eucl (Z.pos mx * 2 ^ 53) (Z.pos my)). reflexivity.
Qed.

Lemma SFdiv_rel x y vx vy :
  pos_normal x vx -> pos_normal y vy ->
  bpow (-900) <= vx / vy <= bpow 900 ->
  exists vz,
    pos_normal (SFdiv prec emax x y) vz /\ Rabs (vz - vx / vy) <= vx / vy * u53.
Proof.
  intros [mx [ex [-> [Bx [Ex ->]]]]] [my [ey [-> [By [Ey ->]]]]] Hv.
  cbn [SFdiv xorb].
  assert (0 < IZR (Z.pos mx)) as Hmx by (apply (IZR_lt 0); lia).
  assert (0 < IZR (Z.pos my)) as Hmy by (apply (IZR_lt 0); lia).
  pose proof (bpow_pos ex) as Hex. pose proof (bpow_pos ey) as Hey.
  assert (IZR (Z.pos mx * 2 ^ 53) / IZR (Z.pos my) * bpow (ex - ey - 53)
          = IZR (Z.pos mx) * bpow ex / (IZR (Z.pos my) * bpow ey)) as Ev.
  { rewrite mult_IZR.
    replace (ex - ey - 53)%Z with (ex + (- ey + -53))%Z by lia.
    rewrite !bpow_add, bpow_neg.
    replace (bpow (-53)) with (/ IZR (2 ^ 53))
      by (rewrite <- (bpow_IZR 53), <- bpow_neg by lia; reflexivity).
    assert (0 < IZR (2 ^ 53)) by (apply (IZR_lt 0); lia).
    field. repeat split; lra. }
  rewrite <- Ev in Hv.
  assert (-901 < ex - ey)%Z as Hlo.
  { assert (IZR (Z.pos mx * 2 ^ 53) / IZR (Z.pos my) < IZR (2 ^ 54)).
    { apply (Rmult_lt_reg_r (IZR (Z.pos my))); [lra|].
      unfold Rdiv. rewrite Rmult_assoc, Rinv_l, Rmult_1_r by lra.
      rewrite <- mult_IZR. apply IZR_lt. lia. }
    assert (IZR (Z.pos mx * 2 ^ 53) / IZR (Z.pos my) * bpow (ex - ey - 53)
            < bpow (ex - ey + 1)).
    { replace (ex - ey + 1)%Z with (54 + (ex - ey - 53))%Z by lia.
      rewrite (bpow_add 54), (bpow_IZR 54) by lia.
      apply Rmult_lt_compat_r; [apply bpow_pos | lra]. }
    assert (-900 < ex - ey + 1)%Z by (apply bpow_lt_inv; lra). lia. }
  rewrite SFdiv_core_normal by lia.
  destruct (round_normal_rel (Z.pos mx * 2 ^ 53) (Z.pos my) (ex - ey - 53))
    as [vz [P R]]; try lia.
  - apply Z.div_le_lower_bound; lia.
  - exact Hv.
  - exists vz. rewrite Ev in R. auto.
Qed.

Lemma SFadd_magic m e v :
  (2 ^ 52 <= Z.pos m < 2 ^ 53)%Z ->
  v = IZR (Z.pos m) * bpow e -> v <= 2000 ->
  exists M,
    SFadd prec emax (S754_finite false m e) (S754_finite false 4503599627370496 0)
    = S754_finite false M 0
    /\ (2 ^ 52 <= Z.pos M < 2 ^ 53)%Z
    /\ Rabs (IZR (Z.pos M) - (v + 4503599627370496)) <= / 2.
Proof.
  intros Bm Ev Hv.
  assert (0 < IZR (Z.pos m)) as Hm by (apply (IZR_lt 0); lia).
  assert (4503599627370496 <= IZR (Z.pos m)) as Hm'.
  { apply (IZR_le 4503599627370496). lia. }
  pose proof (bpow_pos e) as He.
  assert (e < 0)%Z as Hneg.
  { apply bpow_lt_inv. rewrite bpow_0. nra. }
  cbn [SFadd]. rewrite Z.min_l by lia.
  unfold shl_align. rewrite Z.sub_diag, Z.sub_0_r.
  destruct e as [|d|d]; try lia.
  cbn [fst cond_Zopp]. cbn [Z.add binary_normalize].
  set (p := (m + Pos.iter xO 4503599627370496 d)%positive).
  assert (IZR (Z.pos p) * bpow (Z.neg d) = v + 4503599627370496) as Ep.
  { unfold p. rewrite Pos2Z.inj_add, plus_IZR, iter_xO, mult_IZR.
    rewrite <- (bpow_IZR (Z.pos d)) by lia.
    change (Z.neg d) with (- Z.pos d)%Z. rewrite bpow_neg.
    pose proof (bpow_pos (Z.pos d)).
    rewrite Ev. change (Z.neg d) with (- Z.pos d)%Z. rewrite bpow_neg.
    field. lra. }
  assert (bpow (-900) <= bpow 52) as L1 by (apply bpow_le; lia).
  assert (bpow 53 <= bpow 900) as L2 by (apply bpow_le; lia).
  rewrite (bpow_IZR 52) in L1 by lia. rewrite (bpow_IZR 53) in L2 by lia.
  change (2 ^ 52)%Z with 4503599627370496%Z in L1.
  change (2 ^ 53)%Z with 9007199254740992%Z in L2.
  assert (0 <= v) as Hv0 by (rewrite Ev; nra).
  destruct (binary_round_aligned false p (Z.neg d)) as [N [e' [Eb [HN [HN2 EN]]]]].
  { rewrite Ep. lra. }
  rewrite Eb.
  destruct (round_normal_R false N 1 e') as
      [M [E [Mf [Ef [R1 [R2 [R3 [R4 [R5 [R6 R7]]]]]]]]]]; try lia.
  { rewrite EN, Ep. lra. }
  rewrite EN, Ep in R5, R6.
  assert (E = 0)%Z as E0.
  { destruct R6 as [R6a R6b].
    assert (E + 52 < 53)%Z.
    { apply bpow_lt_inv. rewrite (bpow_IZR 53) by lia.
      change (2 ^ 53)%Z with 9007199254740992%Z. lra. }
    assert (52 < E + 53)%Z.
    { apply bpow_lt_inv. rewrite (bpow_IZR 52) by lia.
      change (2 ^ 52)%Z with 4503599627370496%Z. lra. }
    lia. }
  subst E. rewrite !bpow_0, ?Rmult_1_r in R4, R5.
  assert (M < 2 ^ 53)%Z as HM.
  { apply lt_IZR. change (2 ^ 53)%Z with 9007199254740992%Z.
    apply Rabs_le_inv in R5. lra. }
  destruct R7 as [[EM EE]|[EM _]]; [|lia].
  exists Mf. rewrite R1. subst Ef. split; [reflexivity|]. split; [exact R2|].
  rewrite EM. replace (/ 2) with (1 / 2) by lra. exact R5.
Qed.

Lemma SFsub_magic M :
  SFsub prec emax (S754_finite false M 0) (S754_finite false 4503599627370496 0)
  = binary_normalize prec emax (Z.pos M - 4503599627370496) 0 false.
Proof. reflexivity. Qed.

End RealArith.

(* ================================================================== *)
(** * The shares in binary64 *)

Module ShareBound.
Import Reals Lra RealValue RealRounding RealOps RealArith.
Local Open Scope R_scope.

Lemma of_int64_normalize a :
  (0 <= a < 2 ^ 63)%Z ->
  Prim2SF (F64.of_int64 a) = binary_normalize prec emax a 0 false.
Proof.
  intros H. unfold F64.of_int64. rewrite Z.abs_eq by lia.
  replace (a <? 2 ^ 63)%Z with true by (symmetry; apply Z.ltb_lt; lia).
  replace (a <? 0)%Z with false by (symmetry; apply Z.ltb_ge; lia).
  rewrite of_uint63_spec, Uint63.of_Z_spec, Z.mod_small; [reflexivity|].
  exact H.
Qed.

Lemma bpow_m900_le n : (0 <= n <= 900)%Z -> bpow (-900) <= / IZR (2 ^ n).
Proof.
  intros H. rewrite <- (bpow_IZR n), <- bpow_neg by lia. apply bpow_le. lia.
Qed.

Lemma bpow_900_ge n : (0 <= n <= 900)%Z -> IZR (2 ^ n) <= bpow 900.
Proof.
  intros H. rewrite <- (bpow_IZR n) by lia. apply bpow_le. lia.
Qed.

Lemma rel_bounds z w : 0 <= w -> Rabs (z - w) <= w * u53 ->
  w * (1 - u53) <= z <= w * (1 + u53).
Proof. intros Hw H. apply Rabs_le_inv in H. lra. Qed.

Lemma of_int64_rel a :
  (0 < a < 2 ^ 63)%Z ->
  exists v, pos_normal (Prim2SF (F64.of_int64 a)) v
            /\ IZR a * (1 - u53) <= v <= IZR a * (1 + u53).
Proof.
  intros H. rewrite of_int64_normalize by lia.
  destruct a as [|p|p]; try lia. cbn [binary_normalize].
  assert (1 <= IZR (Z.pos p) <= IZR (2 ^ 63)) as B.
  { split; [apply (IZR_le 1) | apply IZR_le]; lia. }
  pose proof (bpow_m900_le 0 ltac:(lia)) as L1.
  pose proof (bpow_900_ge 63 ltac:(lia)) as L2.
  change (2 ^ 0)%Z with 1%Z in L1.
  destruct (binary_round_aligned false p 0) as [N [e' [Eb [HN [HN2 EN]]]]].
  { rewrite bpow_0, Rmult_1_r. lra. }
  rewrite Eb. rewrite bpow_0, Rmult_1_r in EN.
  destruct (round_normal_rel N 1 e') as [vz [P R]]; try lia.
  { rewrite EN. lra. }
  rewrite EN in R. exists vz. split; [exact P|].
  apply rel_bounds; lra.
Qed.

Lemma mul_rel x y vx vy :
  pos_normal (Prim2SF x) vx -> pos_normal (Prim2SF y) vy ->
  0 <= vx * vy -> bpow (-900) <= vx * vy <= bpow 900 ->
  exists vz, pos_normal (Prim2SF (x * y)%float) vz
             /\ vx * vy * (1 - u53) <= vz <= vx * vy * (1 + u53).
Proof.
  intros Px Py H0 Hv. rewrite mul_spec.
  destruct (SFmul_rel _ _ _ _ Px Py Hv) as [vz [P R]].
  exists vz. split; [exact P|]. apply rel_bounds; auto.
Qed.

Lemma div_rel x y vx vy :
  pos_normal (Prim2SF x) vx -> pos_normal (Prim2SF y) vy ->
  0 <= vx / vy -> bpow (-900) <= vx / vy <= bpow 900 ->
  exists vz, pos_normal (Prim2SF (x / y)%float) vz
             /\ vx / vy * (1 - u53) <= vz <= vx / vy * (1 + u53).
Proof.
  intros Px Py H0 Hv. rewrite div_spec.
  destruct (SFdiv_rel _ _ _ _ Px Py Hv) as [vz [P R]].
  exists vz. split; [exact P|]. apply rel_bounds; auto.
Qed.

Lemma pos_normal_100 : pos_normal (Prim2SF 100%float) 100.
Proof.
  exists 7036874417766400%positive, (-46)%Z.
  split; [vm_compute; reflexivity|]. split; [lia|]. split; [lia|].
  change (-46)%Z with (- (46))%Z. rewrite bpow_neg, (bpow_IZR 46) by lia.
  change (2 ^ 46)%Z with 70368744177664%Z. lra.
Qed.

Lemma pos_normal_10 : pos_normal (Prim2SF 10%float) 10.
Proof.
  exists 5629499534213120%positive, (-49)%Z.
  split; [vm_compute; reflexivity|]. split; [lia|]. split; [lia|].
  change (-49)%Z with (- (49))%Z. rewrite bpow_neg, (bpow_IZR 49) by lia.
  change (2 ^ 49)%Z with 562949953421312%Z. lra.
Qed.

(** [rint] of a positive number below 2000 is an integer within one half
    of it. *)
Lemma rint_nearest x v :
  pos_normal (Prim2SF x) v -> v <= 2000 ->
  exists k, F64.rint x = F64.of_int64 k
            /\ (0 <= k <= 2001)%Z /\ Rabs (IZR k - v) <= / 2.
Proof.
  intros [m [e [Ex [Bm [Be Ev]]]]] Hv.
  assert (4503599627370496 <= IZR (Z.pos m)) as Hm.
  { apply (IZR_le 4503599627370496). lia. }
  pose proof (bpow_pos e) as He.
  assert (e < 0)%Z as Hneg.
  { apply bpow_lt_inv. rewrite bpow_0. nra. }
  assert (abs x = x) as Habs.
  { apply Prim2SF_inj. rewrite abs_spec, Ex. reflexivity. }
  assert (Prim2SF 0x1p52%float = S754_finite false 4503599627370496 0) as H52
      by (vm_compute; reflexivity).
  assert (Prim2SF zero = S754_zero false) as Hz by (vm_compute; reflexivity).
  destruct (SFadd_magic m e v Bm Ev Hv) as [M [Ea [BM RM]]].
  unfold F64.rint. rewrite Habs.
  replace (x <? 0x1p52)%float with true.
  2:{ rewrite FloatAxioms.ltb_spec, Ex, H52. unfold SFltb, SFcompare.
      destruct e; try lia. reflexivity. }
  replace (get_sign x) with false.
  2:{ unfold get_sign, is_zero. rewrite FloatAxioms.eqb_spec, Ex, Hz.
      cbn [SFeqb SFcompare]. rewrite FloatAxioms.ltb_spec, Ex, Hz. reflexivity. }
  exists (Z.pos M - 4503599627370496)%Z.
  split; [|split].
  - apply Prim2SF_inj.
    rewrite sub_spec, add_spec, Ex, H52.
    unfold SF64sub, SF64add. rewrite Ea, SFsub_magic.
    rewrite of_int64_normalize; [reflexivity|]. lia.
  - apply Rabs_le_inv in RM.
    assert (IZR (Z.pos M) <= 4503599627370496 + 2001) as HM by lra.
    rewrite <- plus_IZR in HM. apply le_IZR in HM. lia.
  - rewrite minus_IZR.
    replace (IZR (Z.pos M) - 4503599627370496 - v)
      with (IZR (Z.pos M) - (v + 4503599627370496)) by ring.
    exact RM.
Qed.

End ShareBound.

Module SharePct.
Import Reals Lra RealValue RealRounding RealOps RealArith ShareBound.
Local Open Scope R_scope.

Lemma div_mono x x' y y' :
  0 <= x <= x' -> 0 < y' <= y -> x / y <= x' / y'.
Proof.
  intros Hx Hy.
  apply (Rmult_le_reg_r (y * y')); [nra|].
  replace (x / y * (y * y')) with (x * y') by (field; lra).
  replace (x' / y' * (y * y')) with (x' * y) by (field; lra).
  nra.
Qed.

(** The share of a cell with at least one stream: the code returns the
    binary64 quotient of an integer number [k] of tenths by 10, and [k] is
    within one half, and a relative 2 ^ -50, of the exact number of
    tenths. *)
Lemma share_pct_pos a t :
  (0 < a <= t)%Z -> (t < 2 ^ 63)%Z ->
  exists k,
    share_pct a t = tenths k
    /\ (0 <= k <= 1000)%Z
    /\ (2 ^ 50 * (2 * Z.abs (t * k - 1000 * a)) <= 2 ^ 50 * t + 2000 * a)%Z.
Proof.
  intros Ha Ht.
  destruct (of_int64_rel a ltac:(lia)) as [va [Pa Ba]].
  destruct (of_int64_rel t ltac:(lia)) as [vt [Pt Bt]].
  assert (1 <= IZR a) as A1 by (apply (IZR_le 1); lia).
  assert (IZR a <= IZR t) as A2 by (apply IZR_le; lia).
  assert (IZR t <= IZR (2 ^ 63)) as A3 by (apply IZR_le; lia).
  change (2 ^ 63)%Z with 9223372036854775808%Z in A3.
  set (A := IZR a) in *. set (T := IZR t) in *.
  set (r := A / T).
  assert (0 < T) as HT by lra.
  assert (/ 9223372036854775808 <= r <= 1) as Br.
  { unfold r. split.
    - apply (Rmult_le_reg_r T); [lra|].
      replace (A / T * T) with A by (field; lra).
      apply (Rmult_le_reg_r 9223372036854775808); [lra|].
      rewrite Rmult_assoc, (Rmult_comm T), <- Rmult_assoc, Rinv_l by lra. lra.
    - apply (Rmult_le_reg_r T); [lra|].
      replace (A / T * T) with A by (field; lra). lra. }
  pose proof (bpow_m900_le 70 ltac:(lia)) as L1.
  pose proof (bpow_900_ge 70 ltac:(lia)) as L2.
  change (2 ^ 70)%Z with 1180591620717411303424%Z in L1, L2.
  unfold u53 in Ba, Bt.
  assert (0 < vt) as Hvt by lra.
  assert (0 < va) as Hva by lra.
  assert (r * ((1 - u53) / (1 + u53)) <= va / vt <= r * ((1 + u53) / (1 - u53))) as B0.
  { unfold u53, r. split.
    - replace (A / T * ((1 - / 9007199254740992) / (1 + / 9007199254740992)))
        with (A * (1 - / 9007199254740992) / (T * (1 + / 9007199254740992)))
        by (field; lra).
      apply div_mono; lra.
    - replace (A / T * ((1 + / 9007199254740992) / (1 - / 9007199254740992)))
        with (A * (1 + / 9007199254740992) / (T * (1 - / 9007199254740992)))
        by (field; lra).
      apply div_mono; lra. }
  unfold u53 in B0.
  destruct (div_rel _ _ va vt Pa Pt) as [v1 [P1 B1]].
  { lra. }
  { lra. }
  unfold u53 in B1.
  destruct (mul_rel _ _ v1 100 P1 pos_normal_100) as [v2 [P2 B2]].
  { lra. }
  { lra. }
  unfold u53 in B2.
  destruct (mul_rel _ _ v2 10 P2 pos_normal_10) as [v3 [P3 B3]].
  { lra. }
  { lra. }
  unfold u53 in B3.
  assert (1000 * r * (1 - / 1125899906842624) <= v3
          <= 1000 * r * (1 + / 1125899906842624)) as B4 by lra.
  destruct (rint_nearest _ v3 P3 ltac:(lra)) as [k [Ek [Bk Rk]]].
  assert (- (1125899906842624 * t + 2000 * a)
          <= 2251799813685248 * (t * k - 1000 * a)
          <= 1125899906842624 * t + 2000 * a)%Z as BZ.
  2:{ exists k. split; [|split].
      - unfold share_pct, F64.round1, tenths. rewrite Ek. reflexivity.
      - split; [lia|].
        destruct (Z_le_gt_dec k 1000) as [|G]; [assumption|exfalso].
        assert (1001 * t <= t * k)%Z by nia. lia.
      - change (2 ^ 50)%Z with 1125899906842624%Z. lia. }
  { apply Rabs_le_inv in Rk.
    assert (- (/ 2 + 1000 * r * / 1125899906842624) <= IZR k - 1000 * r
            <= / 2 + 1000 * r * / 1125899906842624) as B5 by lra.
    assert (r * T = A) as ErT by (unfold r; field; lra).
    set (K := IZR k) in *.
    assert (- (1125899906842624 * T + 2000 * A)
            <= 2251799813685248 * (T * K - 1000 * A)
            <= 1125899906842624 * T + 2000 * A) as B6.
    { clearbody r K T A. clear - B5 ErT HT. subst A. nra. }
    destruct B6 as [B6 B7].
    split; apply le_IZR;
      rewrite ?opp_IZR, ?plus_IZR, ?mult_IZR, ?minus_IZR, ?mult_IZR;
      fold A T K; lra. }
Qed.

(** The share of any cell of a positive total. *)
Lemma share_pct_tenths a t :
  (0 <= a <= t)%Z -> (0 < t < 2 ^ 63)%Z ->
  exists k,
    share_pct a t = tenths k
    /\ (0 <= k <= 1000)%Z
    /\ (2 ^ 50 * (2 * Z.abs (t * k - 1000 * a)) <= 2 ^ 50 * t + 2000 * a)%Z.
Proof.
  intros Ha Ht. destruct (Z.eq_dec a 0) as [->|Hne].
  - exists 0%Z. split; [|lia].
    destruct (of_int64_rel t ltac:(lia)) as [vt [[m [e [Et _]]] _]].
    assert (F64.of_int64 0 = 0%float) as E0 by (vm_compute; reflexivity).
    assert ((0 / F64.of_int64 t)%float = 0%float) as E1.
    { apply Prim2SF_inj. rewrite div_spec, Et. reflexivity. }
    unfold share_pct. rewrite E0, E1. vm_compute. reflexivity.
  - apply share_pct_pos; lia.
Qed.

End SharePct.


Section Partition.
Local Open Scope Z_scope.
Context {K : Type}.
Variable eqb : K -> K -> bool.
Hypothesis eqb_eq : forall a b, eqb a b = true <-> a = b.
Variable keyof : PerformanceRecord -> K.
Variable f : PerformanceRecord -> Z.

Lemma key_share_of_row (keys : list K) r :
  NoDup keys -> In (keyof r) keys ->
  Int64.Zsum (map (fun k => if eqb (keyof r) k then f r else 0) keys) = f r.
Proof.
  intros ND Hin. induction keys as [|k keys IH]; [destruct Hin|].
  simpl. rewrite Int64Facts.Zsum_cons. inversion ND as [|? ? Nk ND']; subst.
  destruct (eqb (keyof r) k) eqn:E.
  - apply eqb_eq in E. subst.
    assert (Int64.Zsum (map (fun k => if eqb (keyof r) k then f r else 0) keys) = 0)
      as Z0.
    { clear IH Hin ND ND'. induction keys as [|k keys IH]; simpl.
      - reflexivity.
      - rewrite Int64Facts.Zsum_cons.
        destruct (eqb (keyof r) k) eqn:E.
        + apply eqb_eq in E. subst. exfalso. apply Nk. left. reflexivity.
        + rewrite IH; [lia|]. intros H. apply Nk. right. exact H. }
    rewrite Z0. lia.
  - destruct Hin as [->|Hin].
    + rewrite (proj2 (eqb_eq (keyof r) (keyof r)) eq_refl) in E. discriminate.
    + rewrite IH; auto.
Qed.

(** The cells of distinct keys that cover the rows add up to the whole. *)
Lemma cells_partition (keys : list K) l :
  NoDup keys ->
  (forall r, In r l -> In (keyof r) keys) ->
  Int64.Zsum
    (map (fun k => Int64.Zsum (map f (filter (fun r => eqb (keyof r) k) l))) keys)
  = Int64.Zsum (map f l).
Proof.
  intros ND Hin. induction l as [|r l IH]; simpl.
  - clear ND Hin. induction keys as [|k keys IHk]; simpl; auto.
  - assert (forall ks,
             Int64.Zsum
               (map (fun k => Int64.Zsum
                                (map f (if eqb (keyof r) k
                                        then r :: filter (fun r => eqb (keyof r) k) l
                                        else filter (fun r => eqb (keyof r) k) l))) ks)
             = Int64.Zsum (map (fun k => if eqb (keyof r) k then f r else 0) ks)
               + Int64.Zsum
                   (map (fun k => Int64.Zsum
                                    (map f (filter (fun r => eqb (keyof r) k) l))) ks))
      as Split.
    { induction ks as [|k ks IHk]; simpl; [reflexivity|].
      rewrite !Int64Facts.Zsum_cons, IHk.
      destruct (eqb (keyof r) k); simpl; rewrite ?Int64Facts.Zsum_cons; lia. }
    rewrite Split, IH, key_share_of_row, Int64Facts.Zsum_cons; auto.
    + apply Hin. left. reflexivity.
    + intros r' Hr'. apply Hin. right. exact Hr'.
Qed.

End Partition.

(* ================================================================== *)
(** * Audience analysis: the sums of the rounded shares *)

Lemma NoDup_list_prod {A B} (l : list A) (l' : list B) :
  NoDup l -> NoDup l' -> NoDup (list_prod l l').
Proof.
  intros H H'. induction H as [|a l Na H IH]; simpl.
  - constructor.
  - apply NoDup_app; auto.
    + clear IH. induction H' as [|b l' Nb H' IH']; simpl; constructor; auto.
      rewrite in_map_iff. intros [b' [E Hb']]. inversion E; subst. auto.
    + intros [a' b'] I1 I2. apply in_map_iff in I1.
      destruct I1 as [b'' [E _]]. inversion E; subst.
      apply in_prod_iff in I2. tauto.
Qed.

Lemma flat_map_list_prod {A B C} (F : A -> B -> C) l l' :
  flat_map (fun a => map (fun b => F a b) l') l
  = map (fun k => F (fst k) (snd k)) (list_prod l l').
Proof.
  induction l as [|a l IH]; simpl; auto.
  rewrite map_app, map_map, IH. reflexivity.
Qed.

(** The shares that the scripts print or compare are the rounded shares of
    these cells. *)
Lemma age_shares_cells track_df :
  map (age_share track_df) (Final.age_groups track_df)
  = float_shares (age_cells track_df) (Int64.sum (map total_streams track_df)).
Proof. unfold float_shares, age_cells. rewrite map_map. reflexivity. Qed.

Lemma gender_shares_cells track_df :
  map (gender_share track_df) (Final.genders track_df)
  = float_shares (gender_cells track_df) (Int64.sum (map total_streams track_df)).
Proof. unfold float_shares, gender_cells. rewrite map_map. reflexivity. Qed.

Lemma final_cross_shares_cells track_df total :
  map snd (Final.age_gender_pct track_df total)
  = float_shares (final_cross_cells track_df) total.
Proof.
  unfold Final.age_gender_pct, float_shares, final_cross_cells.
  rewrite (flat_map_list_prod
             (fun age g =>
                ((age, g),
                 share_pct
                   (streams_where
                      (fun r => (age_group r =? age)%string && (gender r =? g)%string)
                      track_df) total))).
  rewrite !map_map. reflexivity.
Qed.

Lemma sony_cross_shares_cells track_df total :
  map snd (Sony.age_gender_pct track_df total)
  = float_shares (sony_cross_cells track_df) total.
Proof.
  unfold Sony.age_gender_pct, float_shares, sony_cross_cells.
  rewrite !map_map. reflexivity.
Qed.

Section CellSums.
Local Open Scope Z_scope.

Variable track_df : DataFrame.
Hypothesis streams_nonneg : forall r, In r track_df -> 0 <= total_streams r.
Hypothesis streams_fit : Int64.Zsum (map total_streams track_df) < 2 ^ 63.

Lemma total_exact :
  Int64.sum (map total_streams track_df) = Int64.Zsum (map total_streams track_df).
Proof.
  apply Int64Facts.sum_exact; auto.
  rewrite Forall_forall. intros x Hx. apply in_map_iff in Hx.
  destruct Hx as [r [<- Hr]]. auto.
Qed.

Lemma streams_where_exact p :
  streams_where p track_df = Int64.Zsum (map total_streams (filter p track_df)).
Proof.
  unfold streams_where. apply Int64Facts.sum_exact.
  - rewrite Forall_forall. intros x Hx. apply in_map_iff in Hx.
    destruct Hx as [r [<- Hr]]. apply filter_In in Hr.
    apply streams_nonneg. tauto.
  - pose proof (Int64Facts.Zsum_filter_le total_streams p track_df streams_nonneg).
    lia.
Qed.

Lemma age_cells_sum :
  Int64.Zsum (age_cells track_df) = Int64.sum (map total_streams track_df).
Proof.
  rewrite total_exact. unfold age_cells.
  rewrite (map_ext _ (fun age => Int64.Zsum
                                   (map total_streams
                                        (filter (fun r => String.eqb (age_group r) age)
                                                track_df))))
    by (intros; apply streams_where_exact).
  apply (cells_partition String.eqb string_eqb_eq age_group).
  - unfold Final.age_groups.
    eapply Permutation_NoDup; [symmetry; apply sorted_perm|].
    apply (unique_NoDup _ string_eqb_eq).
  - intros r Hr. apply age_groups_In. eauto.
Qed.

Lemma gender_cells_sum :
  Int64.Zsum (gender_cells track_df) = Int64.sum (map total_streams track_df).
Proof.
  rewrite total_exact. unfold gender_cells.
  rewrite (map_ext _ (fun g => Int64.Zsum
                                 (map total_streams
                                      (filter (fun r => String.eqb (gender r) g)
                                              track_df))))
    by (intros; apply streams_where_exact).
  apply (cells_partition String.eqb string_eqb_eq gender).
  - apply (unique_NoDup _ string_eqb_eq).
  - intros r Hr. apply genders_In. eauto.
Qed.

Lemma final_cross_cells_sum :
  Int64.Zsum (final_cross_cells track_df) = Int64.sum (map total_streams track_df).
Proof.
  rewrite total_exact. unfold final_cross_cells.
  rewrite (map_ext _ (fun k => Int64.Zsum
                                 (map total_streams
                                      (filter (fun r => Sony.pair_eqb
                                                          (age_group r, gender r) k)
                                              track_df))))
    by (intros; apply streams_where_exact).
  apply (cells_partition Sony.pair_eqb StringOrder.eqb_pair_eq
                         (fun r => (age_group r, gender r))).
  - apply NoDup_list_prod.
    + unfold Final.age_groups.
      eapply Permutation_NoDup; [symmetry; apply sorted_perm|].
      apply (unique_NoDup _ string_eqb_eq).
    + apply (unique_NoDup _ string_eqb_eq).
  - intros r Hr. apply in_prod.
    + apply age_groups_In. eauto.
    + apply genders_In. eauto.
Qed.

Lemma sony_cross_cells_sum :
  Int64.Zsum (sony_cross_cells track_df) = Int64.sum (map total_streams track_df).
Proof.
  rewrite total_exact. unfold sony_cross_cells.
  rewrite (map_ext _ (fun k => Int64.Zsum
                                 (map total_streams
                                      (filter (fun r => Sony.pair_eqb
                                                          (age_group r, gender r) k)
                                              track_df))))
    by (intros; apply streams_where_exact).
  apply (cells_partition Sony.pair_eqb StringOrder.eqb_pair_eq
                         (fun r => (age_group r, gender r))).
  - eapply Permutation_NoDup; [symmetry; apply sorted_perm|].
    apply (unique_NoDup _ StringOrder.eqb_pair_eq).
  - intros r Hr. apply sony_pairs_In. eauto.
Qed.

Lemma sony_gender_cells_sum :
  Int64.Zsum (sony_gender_cells track_df) = Int64.sum (map total_streams track_df).
Proof.
  rewrite total_exact. unfold sony_gender_cells.
  rewrite (map_ext _ (fun g => Int64.Zsum
                                 (map total_streams
                                      (filter (fun r => String.eqb (gender r) g)
                                              track_df))))
    by (intros; apply streams_where_exact).
  apply (cells_partition String.eqb string_eqb_eq gender).
  - eapply Permutation_NoDup; [symmetry; apply sorted_perm|].
    apply (unique_NoDup _ string_eqb_eq).
  - intros r Hr. apply sorted_In. apply genders_In. eauto.
Qed.

Lemma streams_where_nonneg p : 0 <= streams_where p track_df.
Proof.
  rewrite streams_where_exact.
  apply (Int64Facts.Zsum_filter_le total_streams p track_df streams_nonneg).
Qed.


Lemma cells_nonneg {K} (p : K -> PerformanceRecord -> bool) keys :
  Forall (fun c => 0 <= c) (map (fun k => streams_where (p k) track_df) keys).
Proof.
  rewrite Forall_forall. intros c Hc. apply in_map_iff in Hc.
  destruct Hc as [k [<- _]]. apply streams_where_nonneg.
Qed.

End CellSums.



(** A share half way between two tenths: 23 streams of 80 are 28.75
    percent, and the code returns 28.7, the quotient 0.2875 times 100 being
    below 28.75 in binary64. *)
Lemma share_pct_half_way :
  share_pct 23 80 = tenths 287
  /\ share_pct 23 80 = 28.7%float
  /\ (2 * Z.abs (80 * 287 - 1000 * 23) = 80)%Z.
Proof. repeat split; vm_compute; reflexivity. Qed.

Section ShareSums.
Local Open Scope Z_scope.

Lemma Zsum_member_le l c :
  Forall (fun x => 0 <= x) l -> In c l -> c <= Int64.Zsum l.
Proof.
  intros H. induction H as [|x l Hx H IH]; intros I; [destruct I|].
  rewrite Int64Facts.Zsum_cons.
  pose proof (Int64Facts.Zsum_nonneg l H).
  destruct I as [->|I]; [lia|]. specialize (IH I). lia.
Qed.

Lemma shares_tenths_bound cells t :
  0 < t < 2 ^ 63 ->
  Forall (fun c => 0 <= c <= t) cells ->
  exists ks,
    float_shares cells t = map tenths ks
    /\ Forall (fun k => 0 <= k <= 1000) ks
    /\ 2 ^ 50 * (2 * Z.abs (t * Int64.Zsum ks - 1000 * Int64.Zsum cells))
       <= 2 ^ 50 * t * Z.of_nat (List.length cells) + 2000 * Int64.Zsum cells.
Proof.
  intros Ht H. induction H as [|c cells Hc H IH].
  - exists []. split; [reflexivity|]. split; [constructor|].
    unfold Int64.Zsum. cbn [fold_left List.length Z.of_nat]. lia.
  - destruct IH as [ks [E [R B]]].
    destruct (SharePct.share_pct_tenths c t Hc Ht) as [k [Ek [Rk Bk]]].
    exists (k :: ks). split; [|split].
    + cbn [float_shares map]. rewrite Ek. f_equal. exact E.
    + constructor; auto.
    + cbn [List.length]. rewrite !Int64Facts.Zsum_cons, Nat2Z.inj_succ.
      set (S := Int64.Zsum ks) in *. set (C := Int64.Zsum cells) in *.
      set (n := Z.of_nat (List.length cells)) in *.
      clearbody S C n. lia.
Qed.

(** The shares of cells without negative count that add up to [t]: the
    numbers of tenths add up to 1000 within half a tenth per cell. *)
Lemma shares_tenths_sum cells t :
  0 < t < 2 ^ 63 ->
  Forall (fun c => 0 <= c) cells ->
  Int64.Zsum cells = t ->
  exists ks,
    float_shares cells t = map tenths ks
    /\ Forall (fun k => 0 <= k <= 1000) ks
    /\ 2 * Z.abs (Int64.Zsum ks - 1000) <= Z.of_nat (List.length cells).
Proof.
  intros Ht H Es.
  destruct (shares_tenths_bound cells t Ht) as [ks [E [R B]]].
  { rewrite Forall_forall in *. intros c Hc. split; [auto|].
    rewrite <- Es. apply Zsum_member_le; [rewrite Forall_forall|]; auto. }
  exists ks. split; [exact E|]. split; [exact R|].
  rewrite Es in B.
  set (S := Int64.Zsum ks) in *. set (n := Z.of_nat (List.length cells)) in *.
  clearbody S n. nia.
Qed.

End ShareSums.

(** C8, as the code has it, in binary64. For the records of a track with
    non-negative stream counts and a positive total that fits in an int64,
    every share that the code rounds to one decimal is the binary64 value
    of a whole number of tenths of a percentage point between 0 and 1000,
    [tenths k], and these numbers add up to 1000 tenths within half a tenth
    (0.05 percentage points) per cell: twice the distance of their sum from
    1000 is at most the number of observed age buckets for the age distribution,
    the number of observed genders for the gender distribution (in the
    order of casechallenge_final.py and final_case.py and in the sorted
    order of casechallenge_sony.py), and the number of pairs of the
    cross-tabulation (ages times genders in casechallenge_final.py and
    final_case.py, observed pairs in casechallenge_sony.py). *)
Theorem C8_rounded_shares_sum (track_df : DataFrame)
        (Hpos : forall r, In r track_df -> (0 <= total_streams r)%Z)
        (Hfit : (Int64.Zsum (map total_streams track_df) < 2 ^ 63)%Z)
        (Htotal : (0 < Int64.sum (map total_streams track_df))%Z) :
  let total := Int64.sum (map total_streams track_df) in
  (exists ks,
      map (age_share track_df) (Final.age_groups track_df) = map tenths ks
      /\ Forall (fun k => (0 <= k <= 1000)%Z) ks
      /\ (2 * Z.abs (Int64.Zsum ks - 1000)
          <= Z.of_nat (List.length (Final.age_groups track_df)))%Z)
  /\ (exists ks,
         map (gender_share track_df) (Final.genders track_df) = map tenths ks
         /\ Forall (fun k => (0 <= k <= 1000)%Z) ks
         /\ (2 * Z.abs (Int64.Zsum ks - 1000)
             <= Z.of_nat (List.length (Final.genders track_df)))%Z)
  /\ (exists ks,
         map (gender_share track_df)
             (sorted String.leb (unique String.eqb (map gender track_df)))
         = map tenths ks
         /\ Forall (fun k => (0 <= k <= 1000)%Z) ks
         /\ (2 * Z.abs (Int64.Zsum ks - 1000)
             <= Z.of_nat (List.length (Final.genders track_df)))%Z)
  /\ (exists ks,
         map snd (Final.age_gender_pct track_df total) = map tenths ks
         /\ Forall (fun k => (0 <= k <= 1000)%Z) ks
         /\ (2 * Z.abs (Int64.Zsum ks - 1000)
             <= Z.of_nat (List.length (Final.age_groups track_df)
                          * List.length (Final.genders track_df)))%Z)
  /\ (exists ks,
         map snd (Sony.age_gender_pct track_df total) = map tenths ks
         /\ Forall (fun k => (0 <= k <= 1000)%Z) ks
         /\ (2 * Z.abs (Int64.Zsum ks - 1000)
             <= Z.of_nat (List.length (Sony.age_gender_pct track_df total)))%Z).
Proof.
  intros total.
  assert (0 < total < 2 ^ 63)%Z as Ht.
  { split; [exact Htotal|]. unfold total. rewrite (total_exact track_df Hpos Hfit).
    exact Hfit. }
  destruct (shares_tenths_sum (age_cells track_df) total Ht
              (cells_nonneg track_df Hpos Hfit _ _)
              (age_cells_sum track_df Hpos Hfit)) as [k1 [E1 [R1 B1]]].
  destruct (shares_tenths_sum (gender_cells track_df) total Ht
              (cells_nonneg track_df Hpos Hfit _ _)
              (gender_cells_sum track_df Hpos Hfit)) as [k2 [E2 [R2 B2]]].
  destruct (shares_tenths_sum (sony_gender_cells track_df) total Ht
              (cells_nonneg track_df Hpos Hfit _ _)
              (sony_gender_cells_sum track_df Hpos Hfit)) as [k3 [E3 [R3 B3]]].
  destruct (shares_tenths_sum (final_cross_cells track_df) total Ht
              (cells_nonneg track_df Hpos Hfit _ _)
              (final_cross_cells_sum track_df Hpos Hfit)) as [k4 [E4 [R4 B4]]].
  destruct (shares_tenths_sum (sony_cross_cells track_df) total Ht
              (cells_nonneg track_df Hpos Hfit _ _)
              (sony_cross_cells_sum track_df Hpos Hfit)) as [k5 [E5 [R5 B5]]].
  unfold age_cells in B1. unfold gender_cells in B2.
  unfold sony_gender_cells in B3. unfold final_cross_cells in B4.
  rewrite length_map in B1, B2, B3, B4. rewrite length_prod in B4.
  rewrite (Permutation_length (sorted_perm String.leb _)) in B3.
  fold (Final.genders track_df) in B3.
  refine (conj _ (conj _ (conj _ (conj _ _)))).
  - exists k1. split; [|split; [exact R1|exact B1]]. rewrite <- E1. apply age_shares_cells.
  - exists k2. split; [|split; [exact R2|exact B2]]. rewrite <- E2. apply gender_shares_cells.
  - exists k3. split; [|split; [exact R3|exact B3]]. rewrite <- E3.
    unfold float_shares, sony_gender_cells. rewrite map_map. reflexivity.
  - exists k4. split; [|split; [exact R4|exact B4]]. rewrite <- E4. apply final_cross_shares_cells.
  - exists k5. split; [|split; [exact R5|]].
    + rewrite <- E5. apply sony_cross_shares_cells.
    + rewrite <- (length_map snd), sony_cross_shares_cells.
      unfold float_shares. rewrite length_map. exact B5.
Qed.

Lemma C8_rounded_shares_sum_witness :
  let track_df := track_rows Examples.four_cells "T" "Artist" in
  let total := Int64.sum (map total_streams track_df) in
  (exists ks,
      map (age_share track_df) (Final.age_groups track_df) = map tenths ks
      /\ Forall (fun k => (0 <= k <= 1000)%Z) ks
      /\ (2 * Z.abs (Int64.Zsum ks - 1000)
          <= Z.of_nat (List.length (Final.age_groups track_df)))%Z)
  /\ (exists ks,
         map (gender_share track_df) (Final.genders track_df) = map tenths ks
         /\ Forall (fun k => (0 <= k <= 1000)%Z) ks
         /\ (2 * Z.abs (Int64.Zsum ks - 1000)
             <= Z.of_nat (List.length (Final.genders track_df)))%Z)
  /\ (exists ks,
         map (gender_share track_df)
             (sorted String.leb (unique String.eqb (map gender track_df)))
         = map tenths ks
         /\ Forall (fun k => (0 <= k <= 1000)%Z) ks
         /\ (2 * Z.abs (Int64.Zsum ks - 1000)
             <= Z.of_nat (List.length (Final.genders track_df)))%Z)
  /\ (exists ks,
         map snd (Final.age_gender_pct track_df total) = map tenths ks
         /\ Forall (fun k => (0 <= k <= 1000)%Z) ks
         /\ (2 * Z.abs (Int64.Zsum ks - 1000)
             <= Z.of_nat (List.length (Final.age_groups track_df)
                          * List.length (Final.genders track_df)))%Z)
  /\ (exists ks,
         map snd (Sony.age_gender_pct track_df total) = map tenths ks
         /\ Forall (fun k => (0 <= k <= 1000)%Z) ks
         /\ (2 * Z.abs (Int64.Zsum ks - 1000)
             <= Z.of_nat (List.length (Sony.age_gender_pct track_df total)))%Z).
Proof.
  apply (C8_rounded_shares_sum (track_rows Examples.four_cells "T" "Artist")).
  - intros r Hr. vm_compute in Hr.
    repeat (destruct Hr as [<-|Hr]; [simpl; lia|]). destruct Hr.
  - vm_compute. reflexivity.
  - vm_compute. reflexivity.
Defined.

(** C8 as stated fails: six age buckets of one stream each get 16.7 percent
    each, 167 tenths, which add up to 1002 tenths: 100.2, more than 0.1
    away from 100. *)
Lemma C8_counterexample :
  let track_df := track_rows Examples.six_buckets "T" "Artist" in
  let total := Int64.sum (map total_streams track_df) in
  (0 < total)%Z
  /\ (exists printed res,
         Final.audience_analysis Examples.six_buckets "T" "Artist" = Ok (printed, res)
         /\ map line_pct (altersverteilung printed)
            = [16.7; 16.7; 16.7; 16.7; 16.7; 16.7]%float
         /\ map line_pct (altersverteilung printed)
            = map tenths [167; 167; 167; 167; 167; 167]%Z
         /\ PrimFloat.ltb 0.1 (abs (F64.fsum (map line_pct (altersverteilung printed))
                                    - 100)) = true)
  /\ (exists lines,
         Sony.print_distribution track_df Sony.col_age_group total = Ok lines
         /\ map line_pct lines = map tenths [167; 167; 167; 167; 167; 167]%Z
         /\ PrimFloat.ltb 0.1 (abs (F64.fsum (map line_pct lines) - 100)) = true)
  /\ (Int64.Zsum [167; 167; 167; 167; 167; 167] = 1002
      /\ 1 < Z.abs (Int64.Zsum [167; 167; 167; 167; 167; 167] - 1000))%Z.
Proof.
  refine (conj _ (conj _ (conj _ _))).
  - vm_compute. reflexivity.
  - do 2 eexists. split; [vm_compute; reflexivity|].
    split; [vm_compute; reflexivity|].
    split; vm_compute; reflexivity.
  - eexists. split; [vm_compute; reflexivity|].
    split; vm_compute; reflexivity.
  - split; vm_compute; reflexivity.
Qed.

(* ================================================================== *)
(** * Further properties of the scoring *)

Lemma mean_score_nil_iff tracks : MeanRelative.score tracks = [] <-> tracks = [].
Proof.
  unfold MeanRelative.score. rewrite sort_values_desc_nil.
  unfold MeanRelative.scored_rows. split.
  - apply map_eq_nil.
  - intros ->. reflexivity.
Qed.

Lemma max_score_nil_iff tracks : MaxRelative.score tracks = [] <-> tracks = [].
Proof.
  unfold MaxRelative.score. rewrite sort_values_desc_nil.
  unfold MaxRelative.scored_rows. split.
  - apply map_eq_nil.
  - intros ->. reflexivity.
Qed.

Lemma recommend_track_raises (df : DataFrame) :
  (MeanRelative.recommend_track df = Raise IndexError
   <-> forall r, In r df -> row_identity r = None)
  /\ (MaxRelative.recommend_track df = Raise IndexError
      <-> forall r, In r df -> row_identity r = None).
Proof.
  rewrite <- groupby_agg_nil.
  unfold MeanRelative.recommend_track, MaxRelative.recommend_track.
  split.
  - destruct (MeanRelative.score (groupby_agg df)) eqn:E.
    + apply mean_score_nil_iff in E. tauto.
    + split; [discriminate|]. intros H. apply mean_score_nil_iff in H. congruence.
  - destruct (MaxRelative.score (groupby_agg df)) eqn:E.
    + apply max_score_nil_iff in E. tauto.
    + split; [discriminate|]. intros H. apply max_score_nil_iff in H. congruence.
Qed.

(** [recommend_track] fails, with the IndexError of [grouped.iloc[0]],
    exactly on the frames in which no row carries both a track name and an
    artist name (the empty frame among them); this is its only failure. *)
Theorem recommend_track_IndexError_iff (df : DataFrame) :
  (MeanRelative.recommend_track df = Raise IndexError
   <-> forall r, In r df -> row_identity r = None)
  /\ (MaxRelative.recommend_track df = Raise IndexError
      <-> forall r, In r df -> row_identity r = None)
  /\ (forall e, MeanRelative.recommend_track df = Raise e -> e = IndexError)
  /\ (forall e, MaxRelative.recommend_track df = Raise e -> e = IndexError).
Proof.
  destruct (recommend_track_raises df) as [M X].
  refine (conj M (conj X (conj _ _)));
    unfold MeanRelative.recommend_track, MaxRelative.recommend_track.
  - intros e. destruct (MeanRelative.score (groupby_agg df)); congruence.
  - intros e. destruct (MaxRelative.score (groupby_agg df)); congruence.
Qed.

Lemma ranks_before_not_below a b :
  Ranking.ranks_before a b = true ->
  PrimFloat.ltb (Ranking.key_score a) (Ranking.key_score b) = false.
Proof.
  unfold Ranking.ranks_before. intros H.
  apply orb_true_iff in H. destruct H as [H|H].
  - apply orb_true_iff in H. destruct H as [H|H].
    + apply FloatOrder.ltb_asym. exact H.
    + apply andb_true_iff in H. destruct H as [_ H].
      destruct (PrimFloat.ltb _ _) eqn:L; auto.
      apply FloatOrder.ltb_notna in L. destruct L as [_ L].
      unfold F64.notna, F64.isna in *. rewrite H in L. discriminate.
  - apply andb_true_iff in H. destruct H as [H _].
    apply orb_true_iff in H. destruct H as [H|H].
    + rewrite (FloatOrder.eqb_ltb_l _ _ _ H). apply FloatOrder.ltb_irrefl.
    + apply andb_true_iff in H. destruct H as [H _].
      destruct (PrimFloat.ltb _ _) eqn:L; auto.
      apply FloatOrder.ltb_notna in L. destruct L as [L _].
      unfold F64.notna, F64.isna in *. rewrite H in L. discriminate.
Qed.

(** The recommended track is the first row of the ranking, and no returned
    row has a larger composite score, in both scoring variants. *)
Theorem recommended_track_has_top_score (df : DataFrame) :
  (forall best ranked,
      MeanRelative.recommend_track df = Ok (best, ranked) ->
      hd_error ranked = Some best
      /\ forall r, In r ranked ->
                   PrimFloat.ltb (MeanRelative.total_score best)
                                 (MeanRelative.total_score r) = false)
  /\ (forall best ranked,
         MaxRelative.recommend_track df = Ok (best, ranked) ->
         hd_error ranked = Some best
         /\ forall r, In r ranked ->
                      PrimFloat.ltb (MaxRelative.total_score best)
                                    (MaxRelative.total_score r) = false).
Proof.
  split; intros best ranked H.
  - unfold MeanRelative.recommend_track in H.
    pose proof (mean_score_ranked df) as S.
    destruct (MeanRelative.score (groupby_agg df)) as [|b rest]; [discriminate|].
    inversion H; subst. split; auto.
    intros r [<-|Hr]; [apply FloatOrder.ltb_irrefl|].
    simpl in S. inversion S as [|? ? _ F]; subst.
    rewrite Forall_forall in F.
    apply (ranks_before_not_below (mean_rank_key best) (mean_rank_key r)).
    apply F. apply in_map. exact Hr.
  - unfold MaxRelative.recommend_track in H.
    pose proof (max_score_ranked df) as S.
    destruct (MaxRelative.score (groupby_agg df)) as [|b rest]; [discriminate|].
    inversion H; subst. split; auto.
    intros r [<-|Hr]; [apply FloatOrder.ltb_irrefl|].
    simpl in S. inversion S as [|? ? _ F]; subst.
    rewrite Forall_forall in F.
    apply (ranks_before_not_below (max_rank_key best) (max_rank_key r)).
    apply F. apply in_map. exact Hr.
Qed.

(** The ranking of final_case.py: every track identity exactly once, sorted
    descending by composite score: no row is followed by a row of larger
    score, and rows whose score is NaN come last. *)
Theorem max_relative_ranking_order (df : DataFrame)
        (H : exists r k, In r df /\ row_identity r = Some k) :
  exists best ranked,
    MaxRelative.recommend_track df = Ok (best, ranked)
    /\ Permutation (map MaxRelative.s_identity ranked) (group_keys df)
    /\ NoDup (map MaxRelative.s_identity ranked)
    /\ StronglySorted (fun a b => Ranking.score_before a b = true)
                      (map max_rank_key ranked).
Proof.
  destruct (max_recommend_track_ok df H) as [best [rest [E R]]].
  exists best, (best :: rest). rewrite <- E.
  assert (Permutation (map MaxRelative.s_identity (MaxRelative.score (groupby_agg df)))
                      (group_keys df)) as P.
  { rewrite max_score_identities. rewrite groupby_agg_identities. reflexivity. }
  repeat split.
  - rewrite E. exact R.
  - exact P.
  - eapply Permutation_NoDup; [symmetry; exact P|]. apply group_keys_NoDup.
  - apply max_score_sorted.
Qed.

Lemma max_relative_ranking_order_witness :
  exists best ranked,
    MaxRelative.recommend_track Examples.three_tracks = Ok (best, ranked)
    /\ Permutation (map MaxRelative.s_identity ranked)
                   (group_keys Examples.three_tracks)
    /\ NoDup (map MaxRelative.s_identity ranked)
    /\ StronglySorted (fun a b => Ranking.score_before a b = true)
                      (map max_rank_key ranked).
Proof.
  apply (max_relative_ranking_order Examples.three_tracks).
  eexists. eexists. split; [left; reflexivity | reflexivity].
Defined.

(* ================================================================== *)
(** * Further properties of the aggregation *)

(** [groupby(...).agg(...)] yields one row per identity carried by a row
    with both names, in strictly ascending order of (track, artist); rows
    with a missing name belong to no group and add nothing to the sums. *)
Theorem aggregation_groups_named_rows (df : DataFrame) :
  StronglySorted (fun a b => pair_ltb a b = true) (map m_identity (groupby_agg df))
  /\ (forall k, In k (map m_identity (groupby_agg df))
                <-> exists r, In r df /\ row_identity r = Some k)
  /\ Int64.sum (map m_total_streams (groupby_agg df))
     = Int64.sum (map total_streams (filter is_named df))
  /\ Int64.sum (map m_total_saves (groupby_agg df))
     = Int64.sum (map total_saves (filter is_named df)).
Proof.
  rewrite groupby_agg_identities. refine (conj _ (conj _ (conj _ _))).
  - apply group_keys_sorted.
  - apply group_keys_In.
  - apply (aggregated_sum total_streams m_total_streams). reflexivity.
  - apply (aggregated_sum total_saves m_total_saves). reflexivity.
Qed.

(* ================================================================== *)
(** * Further properties of the audience analysis *)

Lemma zero_column_sum (l : list Z) :
  Forall (fun x => x = 0%Z) l -> Int64.sum l = 0%Z.
Proof.
  intros H. rewrite Int64Facts.sum_wrap.
  assert (Int64.Zsum l = 0%Z) as ->; [|reflexivity].
  induction H as [|x l -> H IH].
  - reflexivity.
  - rewrite Int64Facts.Zsum_cons, IH. reflexivity.
Qed.

Lemma zero_streams_where p track_df :
  (forall r, In r track_df -> total_streams r = 0%Z) ->
  streams_where p track_df = 0%Z.
Proof.
  intros H. unfold streams_where. apply zero_column_sum.
  rewrite Forall_forall. intros x Hx. apply in_map_iff in Hx.
  destruct Hx as [r [<- Hr]]. apply filter_In in Hr. apply H. tauto.
Qed.

Lemma zero_total track_df :
  (forall r, In r track_df -> total_streams r = 0%Z) ->
  Int64.sum (map total_streams track_df) = 0%Z.
Proof.
  intros H. apply zero_column_sum.
  rewrite Forall_forall. intros x Hx. apply in_map_iff in Hx.
  destruct Hx as [r [<- Hr]]. auto.
Qed.

Lemma for_each_first_raises {A B} (body : A -> PyResult B) l e :
  (forall a, In a l -> body a = Raise e) -> l <> [] ->
  for_each body l = Raise e.
Proof.
  intros H Hne. destruct l as [|a l]; [congruence|].
  simpl. rewrite (H a) by (left; reflexivity). reflexivity.
Qed.

(** A track that has records but no streams: the share 0/0 is NaN, and
    [int(pct / 3)] fails on the first line of the age distribution. The
    analysis raises ValueError and returns no segment. *)
Theorem zero_volume_raises_ValueError (df : DataFrame) (track artist : string)
        (Hrows : track_rows df track artist <> [])
        (Hzero : forall r, In r (track_rows df track artist) -> total_streams r = 0%Z) :
  Final.audience_analysis df track artist = Raise ValueError
  /\ Sony.audience_analysis df track artist = Raise ValueError.
Proof.
  set (track_df := track_rows df track artist) in *.
  assert (forall text p,
             dist_line text
               (share_pct (streams_where p track_df)
                          (Int64.sum (map total_streams track_df)))
             = Raise ValueError) as L.
  { intros text p. rewrite (zero_streams_where p track_df Hzero).
    rewrite (zero_total track_df Hzero). reflexivity. }
  split.
  - unfold Final.audience_analysis. fold track_df.
    rewrite (for_each_first_raises _ (Final.age_groups track_df) ValueError).
    + reflexivity.
    + intros age _. apply L.
    + intros E. unfold Final.age_groups in E. apply sorted_nil_inv in E.
      apply (unique_nil_inv _ string_eqb_eq) in E. apply map_eq_nil in E.
      auto.
  - unfold Sony.audience_analysis, Sony.print_distribution. fold track_df.
    rewrite (for_each_first_raises _ _ ValueError).
    + reflexivity.
    + intros age _. apply L.
    + intros E. apply sorted_nil_inv in E.
      apply (unique_nil_inv _ string_eqb_eq) in E. apply map_eq_nil in E.
      auto.
Qed.

Lemma zero_volume_raises_ValueError_witness :
  Final.audience_analysis zero_volume_example "T" "Artist" = Raise ValueError
  /\ Sony.audience_analysis zero_volume_example "T" "Artist" = Raise ValueError.
Proof.
  apply (zero_volume_raises_ValueError zero_volume_example "T" "Artist").
  - vm_compute. discriminate.
  - intros r Hr. vm_compute in Hr. destruct Hr as [<-|[]]. reflexivity.
Defined.


Section PositiveTotal.
Local Open Scope Z_scope.

Variable track_df : DataFrame.
Hypothesis streams_nonneg : forall r, In r track_df -> 0 <= total_streams r.
Hypothesis streams_fit : Int64.Zsum (map total_streams track_df) < 2 ^ 63.
Hypothesis total_pos : 0 < Int64.sum (map total_streams track_df).





End PositiveTotal.



(* ================================================================== *)
(** * [main]: the best track is always found again *)

Lemma track_rows_of_group df t a :
  In (t, a) (group_keys df) -> track_rows df t a <> [].
Proof.
  intros H E. apply group_keys_In in H. destruct H as [r [Hr Hk]].
  assert (In r (track_rows df t a)) as I.
  { unfold track_rows. apply filter_In. split; auto.
    unfold row_identity in Hk.
    destruct (track_name r) as [t'|]; [|discriminate].
    destruct (artist_name r) as [a'|]; [|discriminate].
    inversion Hk; subst. simpl. rewrite !String.eqb_refl. reflexivity. }
  rewrite E in I. destruct I.
Qed.

Lemma mean_best_track_rows df best stats :
  MeanRelative.recommend_track df = Ok (best, stats) ->
  track_rows df (MeanRelative.s_track_name best) (MeanRelative.s_artist_name best) <> [].
Proof.
  intros H. apply track_rows_of_group.
  unfold MeanRelative.recommend_track in H.
  destruct (MeanRelative.score (groupby_agg df)) as [|b rest] eqn:E; [discriminate|].
  inversion H; subst.
  rewrite <- groupby_agg_identities.
  apply (Permutation_in _ (mean_score_identities (groupby_agg df))).
  rewrite E. left. reflexivity.
Qed.

Lemma max_best_track_rows df best stats :
  MaxRelative.recommend_track df = Ok (best, stats) ->
  track_rows df (MaxRelative.s_track_name best) (MaxRelative.s_artist_name best) <> [].
Proof.
  intros H. apply track_rows_of_group.
  unfold MaxRelative.recommend_track in H.
  destruct (MaxRelative.score (groupby_agg df)) as [|b rest] eqn:E; [discriminate|].
  inversion H; subst.
  rewrite <- groupby_agg_identities.
  apply (Permutation_in _ (max_score_identities (groupby_agg df))).
  rewrite E. left. reflexivity.
Qed.

(** [main] of the three scripts. Without data it returns at once. With
    data, it fails with IndexError when no row carries both names;
    otherwise the recommended track always has records in the frame handed
    to [audience_analysis], and when the distribution lines of that track
    can be printed (and, in casechallenge_sony.py, its cross-tabulation has
    no NaN) the whole run returns the ranking and a segment. *)
Theorem main_outcomes (df : DataFrame) :
  (main_final None = Ok None /\ main_final_case None = Ok None
   /\ main_sony None = Ok None)
  /\ ((forall r, In r df -> row_identity r = None) ->
      main_final (Some df) = Raise IndexError
      /\ main_final_case (Some df) = Raise IndexError
      /\ main_sony (Some df) = Raise IndexError)
  /\ (forall best stats,
         MeanRelative.recommend_track df = Ok (best, stats) ->
         let track_df :=
           track_rows df (MeanRelative.s_track_name best)
                      (MeanRelative.s_artist_name best) in
         track_df <> []
         /\ (lines_printable track_df ->
             exists audience_info,
               main_final (Some df) = Ok (Some ((best, stats), audience_info)))
         /\ (lines_printable track_df ->
             Forall (fun kv => F64.notna (snd kv) = true)
                    (Sony.age_gender_pct track_df
                       (Int64.sum (map total_streams track_df))) ->
             exists audience_info,
               main_sony (Some df) = Ok (Some ((best, stats), audience_info))))
  /\ (forall best stats,
         MaxRelative.recommend_track df = Ok (best, stats) ->
         let track_df :=
           track_rows df (MaxRelative.s_track_name best)
                      (MaxRelative.s_artist_name best) in
         track_df <> []
         /\ (lines_printable track_df ->
             exists audience_info,
               main_final_case (Some df) = Ok (Some ((best, stats), audience_info)))).
Proof.
  refine (conj _ (conj _ (conj _ _))).
  - repeat split.
  - intros H. unfold main_final, main_final_case, main_sony.
    destruct (recommend_track_raises df) as [M X].
    rewrite (proj2 M H), (proj2 X H). repeat split.
  - intros best stats R track_df.
    pose proof (mean_best_track_rows df best stats R) as Hne.
    refine (conj Hne (conj _ _)).
    + intros Hp.
      destruct (final_audience_analysis_ok df _ _ Hne Hp)
        as [m [l1 [l2 [_ [_ [_ A]]]]]].
      eexists. unfold main_final. rewrite R. simpl. rewrite A. reflexivity.
    + intros Hp Hn.
      destruct (sony_audience_analysis_ok df _ _ Hne Hp Hn)
        as [m [l1 [l2 [_ [_ [_ A]]]]]].
      eexists. unfold main_sony. rewrite R. simpl. rewrite A. reflexivity.
  - intros best stats R track_df.
    pose proof (max_best_track_rows df best stats R) as Hne.
    refine (conj Hne _).
    intros Hp.
    destruct (final_audience_analysis_ok df _ _ Hne Hp)
      as [m [l1 [l2 [_ [_ [_ A]]]]]].
    eexists. unfold main_final_case. rewrite R. simpl. rewrite A. reflexivity.
Qed.

(* ================================================================== *)
(** * The printed distributions *)

Lemma dist_line_inv_full text pct b :
  dist_line text pct = Ok b -> b = line_of text pct /\ printable pct = true.
Proof.
  unfold dist_line, printable, line_of, bars_of.
  destruct (F64.py_int (pct / 3)); simpl; intros H; inversion H; subst; auto.
Qed.

Lemma lines_inv {A} (text : A -> string) (pct : A -> float) l bs :
  for_each (fun a => dist_line (text a) (pct a)) l = Ok bs ->
  bs = map (fun a => line_of (text a) (pct a)) l
  /\ Forall (fun a => printable (pct a) = true) l.
Proof.
  intros H. apply for_each_inv in H.
  induction H as [|a b l bs Hab H IH]; simpl; auto.
  apply dist_line_inv_full in Hab. destruct Hab as [-> P].
  destruct IH as [-> F]. auto.
Qed.

(** What a run that returns has printed. The age distribution has one line
    per observed age bucket, in strictly ascending order of the labels, with
    the rounded share of the bucket and a bar of [int(share / 3)] glyphs.
    The gender distribution has one line per observed gender: in the order
    of first appearance in casechallenge_final.py and final_case.py, in
    ascending order of the labels in casechallenge_sony.py. *)
Theorem printed_distributions (df : DataFrame) (track artist : string) :
  let track_df := track_rows df track artist in
  (forall printed res,
      Final.audience_analysis df track artist = Ok (printed, res) ->
      altersverteilung printed
      = map (fun age => line_of age (age_share track_df age)) (Final.age_groups track_df)
      /\ geschlechtsverteilung printed
         = map (fun g => line_of (Final.gender_text g) (gender_share track_df g))
               (unique String.eqb (map gender track_df)))
  /\ (forall printed res,
         Sony.audience_analysis df track artist = Ok (printed, res) ->
         altersverteilung printed
         = map (fun age => line_of age (age_share track_df age))
               (Final.age_groups track_df)
         /\ geschlechtsverteilung printed
            = map (fun g => line_of (Sony.get_german_gender_text g)
                                    (gender_share track_df g))
                  (sorted String.leb (unique String.eqb (map gender track_df))))
  /\ StronglySorted (fun a b => String.ltb a b = true) (Final.age_groups track_df)
  /\ StronglySorted (fun a b => String.ltb a b = true)
                    (sorted String.leb (unique String.eqb (map gender track_df)))
  /\ NoDup (unique String.eqb (map gender track_df))
  /\ (forall age, In age (Final.age_groups track_df)
                  <-> exists r, In r track_df /\ age_group r = age)
  /\ (forall g, In g (unique String.eqb (map gender track_df))
                <-> exists r, In r track_df /\ gender r = g).
Proof.
  intros track_df.
  refine (conj _ (conj _ (conj _ (conj _ (conj _ (conj _ _)))))).
  - intros printed res H. unfold Final.audience_analysis in H. fold track_df in H.
    destruct (for_each _ (Final.age_groups track_df)) as [al|] eqn:Ea;
      simpl in H; [|discriminate].
    destruct (for_each _ (Final.genders track_df)) as [gl|] eqn:Eg;
      simpl in H; [|discriminate].
    destruct (py_max_key _) as [[[age g] share]|]; simpl in H; [|discriminate].
    inversion H; subst; simpl.
    apply (lines_inv (fun age => age)) in Ea.
    apply (lines_inv Final.gender_text) in Eg.
    destruct Ea as [-> _], Eg as [-> _]. split; reflexivity.
  - intros printed res H.
    unfold Sony.audience_analysis, Sony.print_distribution in H. fold track_df in H.
    destruct (for_each _ (sorted String.leb (unique String.eqb
                (map (Sony.column Sony.col_age_group) track_df)))) as [al|] eqn:Ea;
      simpl in H; [|discriminate].
    destruct (for_each _ (sorted String.leb (unique String.eqb
                (map gender track_df)))) as [gl|] eqn:Eg;
      simpl in H; [|discriminate].
    destruct (Sony.idxmax _) as [[age g]|]; simpl in H; [|discriminate].
    inversion H; subst; simpl.
    apply (lines_inv (fun age => age)) in Ea.
    apply (lines_inv Sony.get_german_gender_text) in Eg.
    destruct Ea as [-> _], Eg as [-> _]. split; reflexivity.
  - apply sorted_strings_strict. apply (unique_NoDup _ string_eqb_eq).
  - apply sorted_strings_strict. apply (unique_NoDup _ string_eqb_eq).
  - apply (unique_NoDup _ string_eqb_eq).
  - apply age_groups_In.
  - apply genders_In.
Qed.

(* ================================================================== *)
(** * The composite with the arithmetic mean *)

(** When no track has a NaN save rate or skip rate, every row returned by
    the scoring of casechallenge_final.py has the composite computed with
    the arithmetic means of the two columns: [Series.mean()] has nothing to
    skip. *)
Theorem mean_relative_plain_mean (tracks : list TrackMetrics)
        (Hsave : Forall (fun u => F64.notna (MeanRelative.save_rate_of u) = true) tracks)
        (Hskip : Forall (fun u => F64.notna (MeanRelative.skip_rate_of u) = true) tracks) :
  Forall
    (fun r =>
       MeanRelative.total_score r
       = (0.5 * (MeanRelative.save_rate r
                 / F64.mean (map MeanRelative.save_rate_of tracks))
          - 0.3 * (MeanRelative.s_skip_rate r
                   / F64.mean (map MeanRelative.skip_rate_of tracks))
          + 0.2 * (F64.of_int64 (MeanRelative.s_total_streams r)
                   / F64.of_int64 (Int64.sum (map m_total_streams tracks))))%float)
    (MeanRelative.score tracks).
Proof.
  rewrite Forall_forall. intros r Hr. apply sort_values_desc_In in Hr.
  unfold MeanRelative.scored_rows in Hr. apply in_map_iff in Hr.
  destruct Hr as [t [<- Ht]]. simpl.
  rewrite !FloatArith.Series_mean_notna; auto.
  - rewrite Forall_forall in *. intros x Hx. apply in_map_iff in Hx.
    destruct Hx as [u [<- Hu]]. auto.
  - rewrite Forall_forall in *. intros x Hx. apply in_map_iff in Hx.
    destruct Hx as [u [<- Hu]]. auto.
Qed.

Lemma three_tracks_save_rates :
  Forall (fun u => F64.notna (MeanRelative.save_rate_of u) = true)
         (groupby_agg Examples.three_tracks).
Proof.
  apply Forall_forall. intros u Hu. vm_compute in Hu.
  repeat (destruct Hu as [<-|Hu]; [vm_compute; reflexivity|]). destruct Hu.
Qed.

Lemma three_tracks_skip_rates :
  Forall (fun u => F64.notna (MeanRelative.skip_rate_of u) = true)
         (groupby_agg Examples.three_tracks).
Proof.
  apply Forall_forall. intros u Hu. vm_compute in Hu.
  repeat (destruct Hu as [<-|Hu]; [vm_compute; reflexivity|]). destruct Hu.
Qed.

Lemma mean_relative_plain_mean_witness :
  Forall
    (fun r =>
       MeanRelative.total_score r
       = (0.5 * (MeanRelative.save_rate r
                 / F64.mean (map MeanRelative.save_rate_of
                                 (groupby_agg Examples.three_tracks)))
          - 0.3 * (MeanRelative.s_skip_rate r
                   / F64.mean (map MeanRelative.skip_rate_of
                                   (groupby_agg Examples.three_tracks)))
          + 0.2 * (F64.of_int64 (MeanRelative.s_total_streams r)
                   / F64.of_int64
                       (Int64.sum (map m_total_streams
                                       (groupby_agg Examples.three_tracks)))))%float)
    (MeanRelative.score (groupby_agg Examples.three_tracks)).
Proof.
  exact (mean_relative_plain_mean (groupby_agg Examples.three_tracks)
           three_tracks_save_rates three_tracks_skip_rates).
Defined.
